(** * The set-matching loss of [BC._calculate_loss]

    A shallow embedding of the non-actor-critic branch of
    [BC._calculate_loss] (src/imitation/algorithms/bc.py, lines 326-512)
    and the properties of it that the specification states.

    Modelling conventions.
    - Tensor entries are exact rationals ([Qc]): float32 rounding is
      abstracted away, and a value [Fin q] can be of any size, so the model
      has no overflow.  The non-finite result of a division by an integer
      zero is kept as the extra value [NotFinite] of [tfloat]; it
      propagates through sums and products as in IEEE arithmetic.  What is
      stated about the size of a value (finite, sign, zero) is stated for
      batches whose components are bounded so that the float32 computation
      does not overflow, with [in_float32_range] and [float32_max].
    - A tensor is its shape together with an index function; views, slices,
      broadcasting and slice assignment follow torch's rules and raise the
      Python exception torch raises.
    - Python exceptions are the [Raise] branch of [result].
    - [scipy.optimize.linear_sum_assignment] is a library function: the
      development is parametric in it and relies on its documented contract
      only ([LsaContract]); [lsa_exhaustive] is an executable solver that
      meets the contract. *)

From Stdlib Require Import QArith Qcanon Qround ZArith List Arith Bool Lia.
From Stdlib Require Import Permutation.
Import ListNotations.

Open Scope Qc_scope.

(** ** Numbers *)

Definition nat2Qc (n : nat) : Qc := Q2Qc (inject_Z (Z.of_nat n)).

(** [x ** 2], as [MSELoss(reduction='none')] computes per element. *)
Definition sq (x : Qc) : Qc := x * x.

(** float32 values in exact arithmetic: a rational of any size, or the
    nan / +-inf of a division by zero.  Overflow is not part of this type:
    [in_float32_range] says that a value fits float32. *)
Inductive tfloat : Type :=
| Fin (q : Qc)
| NotFinite.

Definition fadd (x y : tfloat) : tfloat :=
  match x, y with
  | Fin a, Fin b => Fin (a + b)
  | _, _ => NotFinite
  end.

Definition fmul (x y : tfloat) : tfloat :=
  match x, y with
  | Fin a, Fin b => Fin (a * b)
  | _, _ => NotFinite
  end.

(** [tensor / d] for a Python integer [d]: torch does not raise on a zero
    divisor, the quotient is nan (0/0) or +-inf. *)
Definition fdiv (x : tfloat) (d : nat) : tfloat :=
  match x with
  | Fin a => if Nat.eqb d 0 then NotFinite else Fin (a / nat2Qc d)
  | NotFinite => NotFinite
  end.

Definition is_finite (x : tfloat) : bool :=
  match x with Fin _ => true | NotFinite => false end.

(** [th.round]: round half to even. *)
Definition round_half_even (q : Q) : Z :=
  let f := Qfloor q in
  match Qcompare (q - inject_Z f) (1 # 2) with
  | Lt => f
  | Gt => (f + 1)%Z
  | Eq => if Z.even f then f else (f + 1)%Z
  end.

Definition th_round (x : Qc) : Qc := Q2Qc (inject_Z (round_half_even x)).

(** Sums over an index range [0, n). *)
Fixpoint sum_n (n : nat) (f : nat -> Qc) : Qc :=
  match n with
  | O => 0
  | S k => sum_n k f + f k
  end.

Fixpoint fsum_n (n : nat) (f : nat -> tfloat) : tfloat :=
  match n with
  | O => Fin 0
  | S k => fadd (fsum_n k f) (f k)
  end.

Definition sum_list (l : list Qc) : Qc := fold_right Qcplus 0 l.

(** ** Python exceptions *)

Inductive exn : Type :=
| IndexError
| RuntimeError
| ValueError
| AssertionError
| ZeroDivisionError
| UnboundLocalError.

Inductive result (A : Type) : Type :=
| Ok (a : A)
| Raise (e : exn).

Arguments Ok {A} a.
Arguments Raise {A} e.

Definition bind {A B : Type} (m : result A) (k : A -> result B) : result B :=
  match m with
  | Ok a => k a
  | Raise e => Raise e
  end.

Notation "x <- m ;; k" := (bind m (fun x => k))
  (at level 61, m at next level, right associativity).
Notation "m ;;; k" := (bind m (fun _ => k))
  (at level 61, right associativity).

Definition py_assert (b : bool) : result unit :=
  if b then Ok tt else Raise AssertionError.

Definition guard (b : bool) (e : exn) : result unit :=
  if b then Ok tt else Raise e.

(** [for x in l: s = body x s], stopping at the first exception. *)
Fixpoint for_each {X A : Type} (l : list X) (body : X -> A -> result A)
  (s : A) : result A :=
  match l with
  | [] => Ok s
  | x :: l' => s' <- body x s ;; for_each l' body s'
  end.

(** ** Tensors *)

(** A 3-d input tensor: [acts] and [pred_acts], of shape
    [batch size, num_traj_action, size_traj]. *)
Record tensor3 : Type := Tensor3 {
  shape0 : nat;
  shape1 : nat;
  shape2 : nat;
  data : nat -> nat -> nat -> Qc
}.

Record tensor2 : Type := Tensor2 {
  rows : nat;
  cols : nat;
  at2 : nat -> nat -> Qc
}.

Record tensor1 : Type := Tensor1 {
  len : nat;
  at1 : nat -> Qc
}.

(** The [batch x K x K] tensors the function builds. *)
Definition matrix3 : Type := nat -> nat -> nat -> tfloat.
Definition zeros : matrix3 := fun _ _ _ => Fin 0.

(** [t[:, i, lo:hi]] for non-negative bounds: the index must exist, the
    slice bounds are clamped to the dimension. *)
Definition slice (t : tensor3) (i lo hi : nat) : result tensor2 :=
  if Nat.ltb i (shape1 t)
  then Ok (Tensor2 (shape0 t)
                   (Nat.min hi (shape2 t) - Nat.min lo (shape2 t))
                   (fun n k => data t n i (lo + k)))
  else Raise IndexError.

(** [t[:, i, -2]]. *)
Definition select_time (t : tensor3) (i : nat) : result tensor1 :=
  if Nat.ltb i (shape1 t)
  then if Nat.leb 2 (shape2 t)
       then Ok (Tensor1 (shape0 t) (fun n => data t n i (shape2 t - 2)))
       else Raise IndexError
  else Raise IndexError.

(** Broadcasting of one dimension, and the index read in an operand. *)
Definition bdim (a b : nat) : option nat :=
  if Nat.eqb a b then Some a
  else if Nat.eqb a 1 then Some b
  else if Nat.eqb b 1 then Some a
  else None.

Definition bidx (d i : nat) : nat := if Nat.eqb d 1 then 0%nat else i.

(** [th.nn.MSELoss(reduction='none')(x, y)]: the operands are broadcast
    against each other (torch warns when the sizes differ). *)
Definition mse_none2 (x y : tensor2) : result tensor2 :=
  match bdim (rows x) (rows y), bdim (cols x) (cols y) with
  | Some r, Some c =>
      Ok (Tensor2 r c
            (fun n k => sq (at2 x (bidx (rows x) n) (bidx (cols x) k)
                            - at2 y (bidx (rows y) n) (bidx (cols y) k))))
  | _, _ => Raise RuntimeError
  end.

Definition mse_none1 (x y : tensor1) : result tensor1 :=
  match bdim (len x) (len y) with
  | Some r =>
      Ok (Tensor1 r (fun n => sq (at1 x (bidx (len x) n)
                                  - at1 y (bidx (len y) n))))
  | None => Raise RuntimeError
  end.

(** [th.sum(t, dim=1)] and [th.sum(t, dim=0)]. *)
Definition sum_dim1 (t : tensor2) : tensor1 :=
  Tensor1 (rows t) (fun n => sum_n (cols t) (at2 t n)).

Definition sum_dim0 (t : tensor1) : Qc := sum_n (len t) (at1 t).

(** A 1-d tensor after a division: its entries may be non-finite. *)
Record ftensor1 : Type := FTensor1 {
  flen : nat;
  fat1 : nat -> tfloat
}.

(** [v / d] for a Python integer [d]. *)
Definition div_int (v : tensor1) (d : nat) : ftensor1 :=
  FTensor1 (len v) (fun n => fdiv (Fin (at1 v n)) d).

(** [m[:, i, j] = v] for a 1-d [v]: [v] is broadcast to the batch
    dimension of [m], or torch raises. *)
Definition assign_col (batch_size : nat) (m : matrix3) (i j : nat)
  (v : ftensor1) : result matrix3 :=
  if Nat.eqb (flen v) batch_size || Nat.eqb (flen v) 1
  then Ok (fun n i' j' =>
             if Nat.eqb i' i && Nat.eqb j' j
             then fat1 v (bidx (flen v) n)
             else m n i' j')
  else Raise RuntimeError.

(** [m[:, i, j] = v] for a 0-d [v]. *)
Definition assign_scalar (m : matrix3) (i j : nat) (v : Qc) : matrix3 :=
  fun n i' j' => if Nat.eqb i' i && Nat.eqb j' j then Fin v else m n i' j'.

(** ** Configuration and the cost matrices (bc.py, lines 370-393) *)

Record config : Type := Config {
  traj_size_pos_ctrl_pts : nat;
  traj_size_yaw_ctrl_pts : nat;
  weight_prob : Qc
}.

Record distances : Type := Distances {
  distance_matrix : matrix3;
  distance_pos_matrix : matrix3;
  distance_yaw_matrix : matrix3;
  distance_time_matrix : matrix3
}.

(** The body of the double loop over [(i, j)]. *)
Definition distance_step (cfg : config) (acts pred_acts : tensor3)
  (i j : nat) (d : distances) : result distances :=
  let P := traj_size_pos_ctrl_pts cfg in
  let Y := traj_size_yaw_ctrl_pts cfg in
  let num_of_elements_per_traj := shape2 acts in
  let batch_size := shape0 acts in
  expert_i <- slice acts i 0 (shape2 acts - 1) ;;
  student_j <- slice pred_acts j 0 (shape2 pred_acts - 1) ;;
  expert_pos_i <- slice acts i 0 P ;;
  student_pos_j <- slice pred_acts j 0 P ;;
  expert_yaw_i <- slice acts i P (P + Y) ;;
  student_yaw_j <- slice pred_acts j P (P + Y) ;;
  expert_time_i <- select_time acts i ;;
  student_time_j <- select_time pred_acts j ;;
  e <- mse_none2 expert_i student_j ;;
  dm <- assign_col batch_size (distance_matrix d) i j
          (div_int (sum_dim1 e) num_of_elements_per_traj) ;;
  e_pos <- mse_none2 expert_pos_i student_pos_j ;;
  dpos <- assign_col batch_size (distance_pos_matrix d) i j
            (div_int (sum_dim1 e_pos) P) ;;
  e_yaw <- mse_none2 expert_yaw_i student_yaw_j ;;
  dyaw <- assign_col batch_size (distance_yaw_matrix d) i j
            (div_int (sum_dim1 e_yaw) Y) ;;
  e_time <- mse_none1 expert_time_i student_time_j ;;
  Ok (Distances dm dpos dyaw
        (assign_scalar (distance_time_matrix d) i j (sum_dim0 e_time))).

Definition cost_matrices (cfg : config) (acts pred_acts : tensor3)
  : result distances :=
  let num_of_traj_per_action := shape1 acts in
  for_each (seq 0 num_of_traj_per_action)
    (fun i => for_each (seq 0 num_of_traj_per_action)
                (fun j => distance_step cfg acts pred_acts i j))
    (Distances zeros zeros zeros zeros).

(** ** The assignment (bc.py, lines 407-438) *)

Definition weights : Type := nat -> nat -> nat -> Qc.

Definition set3 (a : weights) (n i j : nat) (v : Qc) : weights :=
  fun n' i' j' =>
    if Nat.eqb n' n && Nat.eqb i' i && Nat.eqb j' j then v else a n' i' j'.

(** [np.delete(l, idxs, axis=0)]. *)
Definition np_delete {A : Type} (l : list A) (idxs : list nat) : list A :=
  map snd
    (filter (fun p => negb (existsb (Nat.eqb (fst p)) idxs))
       (combine (seq 0 (length l)) l)).

Fixpoint finite_row (r : list tfloat) : option (list Qc) :=
  match r with
  | [] => Some []
  | Fin q :: r' => option_map (cons q) (finite_row r')
  | NotFinite :: _ => None
  end.

Fixpoint finite_matrix (m : list (list tfloat)) : option (list (list Qc)) :=
  match m with
  | [] => Some []
  | r :: m' =>
      match finite_row r, finite_matrix m' with
      | Some r', Some m'' => Some (r' :: m'')
      | _, _ => None
      end
  end.

(** [th.round(acts[index_batch, i, -1]) == -1]. *)
Definition expert_deleted (acts : tensor3) (index_batch i : nat) : bool :=
  Qc_eq_bool (th_round (data acts index_batch i (shape2 acts - 1))) (- (1)).

Record assignment : Type := Assignment {
  alpha_matrix : weights;
  col_assigned : option (nat -> nat -> Qc);
  col_not_assigned : option (nat -> nat -> Qc)
}.

Record stats_dict : Type := Stats {
  loss : tfloat;
  pos_loss : tfloat;
  yaw_loss : tfloat;
  prob_loss : tfloat;
  time_loss : tfloat
}.

Section Solver.

(** [scipy.optimize.linear_sum_assignment] on a finite cost matrix, given
    as its list of rows: the pair [(row_ind, col_ind)]. *)
Variable linear_sum_assignment : list (list Qc) -> list nat * list nat.

(** scipy rejects a matrix with nan entries. *)
Definition call_linear_sum_assignment (cost_matrix : list (list tfloat))
  : result (list nat * list nat) :=
  match finite_matrix cost_matrix with
  | Some m => Ok (linear_sum_assignment m)
  | None => Raise ValueError
  end.

(** One iteration of the loop over [index_batch]. *)
Definition assign_item (acts : tensor3) (distance_pos_matrix_numpy : matrix3)
  (index_batch : nat) (alpha : weights) : result weights :=
  let num_of_traj_per_action := shape1 acts in
  let cost_matrix :=
    map (fun i => map (fun j => distance_pos_matrix_numpy index_batch i j)
                    (seq 0 num_of_traj_per_action))
        (seq 0 num_of_traj_per_action) in
  let map2RealRows := seq 0 num_of_traj_per_action in
  let map2RealCols := seq 0 num_of_traj_per_action in
  guard (Nat.leb 1 (shape2 acts)) IndexError ;;;
  let rows_to_delete :=
    filter (expert_deleted acts index_batch) (seq 0 num_of_traj_per_action) in
  let cost_matrix := np_delete cost_matrix rows_to_delete in
  let map2RealRows := np_delete map2RealRows rows_to_delete in
  rc <- call_linear_sum_assignment cost_matrix ;;
  for_each (combine (fst rc) (snd rc))
    (fun p a =>
       match nth_error map2RealRows (fst p), nth_error map2RealCols (snd p) with
       | Some i, Some j => Ok (set3 a index_batch i j 1)
       | _, _ => Raise IndexError
       end)
    alpha.

Definition solve_assignment (acts : tensor3) (d : distances)
  : result assignment :=
  let batch_size := shape0 acts in
  let num_of_traj_per_action := shape1 acts in
  let alpha_ones : weights := fun _ _ _ => 1 in
  let distance_pos_matrix_numpy := distance_pos_matrix d in
  if Nat.ltb 1 num_of_traj_per_action
  then
    alpha <- for_each (seq 0 batch_size)
               (assign_item acts distance_pos_matrix_numpy)
               (fun _ _ _ => 0) ;;
    let ca := fun n j => th_round (sum_n num_of_traj_per_action
                                     (fun i => alpha n i j)) in
    let cna := fun n j => if Qc_eq_bool (ca n j) 0 then 1 else 0 in
    Ok (Assignment alpha (Some ca) (Some cna))
  else Ok (Assignment alpha_ones None None).

(** ** The loss (bc.py, lines 469-510) *)

Definition fsum3 (a b c : nat) (f : nat -> nat -> nat -> tfloat) : tfloat :=
  fsum_n a (fun n => fsum_n b (fun i => fsum_n c (fun j => f n i j))).

Definition sum2 (a b : nat) (f : nat -> nat -> Qc) : Qc :=
  sum_n a (fun n => sum_n b (fun j => f n j)).

(** A local variable that is read: unbound when no branch assigned it. *)
Definition read_local {A : Type} (v : option A) : result A :=
  match v with
  | Some a => Ok a
  | None => Raise UnboundLocalError
  end.

Definition aggregate (cfg : config) (acts pred_acts : tensor3)
  (d : distances) (a : assignment) : result stats_dict :=
  let batch_size := shape0 acts in
  let num_of_traj_per_action := shape1 acts in
  guard (Nat.leb 1 (shape2 pred_acts)) IndexError ;;;
  let student_probs :=
    Tensor2 (shape0 pred_acts) (shape1 pred_acts)
      (fun n j => data pred_acts n j (shape2 pred_acts - 1)) in
  py_assert (Nat.eqb batch_size (rows student_probs)) ;;;
  py_assert (Nat.eqb num_of_traj_per_action (cols student_probs)) ;;;
  norm_constant <-
    (if Nat.eqb (batch_size * num_of_traj_per_action) 0
     then Raise ZeroDivisionError
     else Ok (1 / nat2Qc (batch_size * num_of_traj_per_action))) ;;
  let weighted (m : matrix3) : tfloat :=
    fmul (Fin norm_constant)
      (fsum3 batch_size num_of_traj_per_action num_of_traj_per_action
         (fun n i j => fmul (Fin (alpha_matrix a n i j)) (m n i j))) in
  let pos_yaw_time_loss := weighted (distance_matrix d) in
  ca <- read_local (col_assigned a) ;;
  cna <- read_local (col_not_assigned a) ;;
  let prob :=
    norm_constant
    * sum2 batch_size num_of_traj_per_action
        (fun n j => ca n j * sq (at2 student_probs n j - 1))
    + sum2 batch_size num_of_traj_per_action
        (fun n j => cna n j * sq (at2 student_probs n j - - (1))) in
  let pos := weighted (distance_pos_matrix d) in
  let yaw := weighted (distance_yaw_matrix d) in
  let time := weighted (distance_time_matrix d) in
  Ok (Stats (fadd pos_yaw_time_loss (Fin (weight_prob cfg * prob)))
            pos yaw (Fin prob) time).

(** [BC._calculate_loss], the branch for a policy that is not
    actor-critic; [pred_acts] is the policy's output on the batch. *)
Definition _calculate_loss (cfg : config) (acts pred_acts : tensor3)
  : result stats_dict :=
  d <- cost_matrices cfg acts pred_acts ;;
  a <- solve_assignment acts d ;;
  aggregate cfg acts pred_acts d a.

End Solver.

(** ** The solver's contract, and an executable solver that meets it *)

Definition entry (m : list (list Qc)) (r c : nat) : Qc :=
  nth c (nth r m []) 0.

(** [cost_matrix[row_ind, col_ind].sum()] for [row_ind = 0, 1, ...]. *)
Definition assignment_cost (m : list (list Qc)) (cs : list nat) : Qc :=
  sum_list (map (fun p => entry m (fst p) (snd p))
              (combine (seq 0 (length cs)) cs)).

(** [cs] assigns each of [nr] rows a column below [nc], no column twice. *)
Definition feasible (nr nc : nat) (cs : list nat) : Prop :=
  length cs = nr /\ NoDup cs /\ Forall (fun c => (c < nc)%nat) cs.

Definition is_cost_matrix (nr nc : nat) (m : list (list Qc)) : Prop :=
  length m = nr /\ Forall (fun r => length r = nc) m.

(** scipy's documentation: on a matrix with no more rows than columns every
    row is assigned, [row_ind] is sorted, and the assignment has minimum
    cost among those that give each row a column of its own. *)
Definition LsaContract (solve : list (list Qc) -> list nat * list nat)
  : Prop :=
  forall nr nc m,
    is_cost_matrix nr nc m -> (nr <= nc)%nat ->
    fst (solve m) = seq 0 nr
    /\ feasible nr nc (snd (solve m))
    /\ forall cs, feasible nr nc cs ->
         assignment_cost m (snd (solve m)) <= assignment_cost m cs.

(** All lists of [nr] distinct columns drawn from [avail]. *)
Fixpoint injections (nr : nat) (avail : list nat) : list (list nat) :=
  match nr with
  | O => [[]]
  | S nr' =>
      flat_map (fun c => map (cons c)
                           (injections nr' (remove Nat.eq_dec c avail)))
               avail
  end.

(** The first candidate of least cost. *)
Fixpoint argmin (cost : list nat -> Qc) (best : list nat)
  (l : list (list nat)) : list nat :=
  match l with
  | [] => best
  | x :: l' =>
      argmin cost (if Qclt_le_dec (cost x) (cost best) then x else best) l'
  end.

Definition lsa_exhaustive (m : list (list Qc)) : list nat * list nat :=
  let nr := length m in
  let nc := length (hd [] m) in
  match injections nr (seq 0 nc) with
  | [] => ([], [])
  | c0 :: cands => (seq 0 nr, argmin (assignment_cost m) c0 cands)
  end.

(** ** Concrete tensors, for examples *)

Definition tensor3_of_list (l : list (list (list Q))) : tensor3 :=
  Tensor3 (length l) (length (hd [] l)) (length (hd [] (hd [] l)))
    (fun n i k => Q2Qc (nth k (nth i (nth n l []) []) 0%Q)).

(** ** Well-formed batches and the values the cost matrices hold *)

(** [acts] and [pred_acts] have one shape [N x K x S]. *)
Definition same_shape (acts pred_acts : tensor3) : Prop :=
  shape0 acts = shape0 pred_acts
  /\ shape1 acts = shape1 pred_acts
  /\ shape2 acts = shape2 pred_acts.

(** Sum of the squared differences of the components [lo, lo + cnt) of
    expert [i] and predicted [j] of item [n]. *)
Definition sq_diff_sum (acts pred_acts : tensor3) (n i j lo cnt : nat) : Qc :=
  sum_n cnt (fun k => sq (data acts n i (lo + k) - data pred_acts n j (lo + k))).

Definition full_cell (acts pred_acts : tensor3) (n i j : nat) : tfloat :=
  fdiv (Fin (sq_diff_sum acts pred_acts n i j 0 (shape2 acts - 1)))
       (shape2 acts).

Definition pos_cell (cfg : config) (acts pred_acts : tensor3) (n i j : nat)
  : tfloat :=
  let P := traj_size_pos_ctrl_pts cfg in
  fdiv (Fin (sq_diff_sum acts pred_acts n i j 0 (Nat.min P (shape2 acts)))) P.

Definition yaw_cell (cfg : config) (acts pred_acts : tensor3) (n i j : nat)
  : tfloat :=
  let P := traj_size_pos_ctrl_pts cfg in
  let Y := traj_size_yaw_ctrl_pts cfg in
  fdiv (Fin (sq_diff_sum acts pred_acts n i j P
               (Nat.min (P + Y) (shape2 acts) - Nat.min P (shape2 acts)))) Y.

Definition time_cell (acts pred_acts : tensor3) (i j : nat) : tfloat :=
  Fin (sum_n (shape0 acts)
         (fun m => sq (data acts m i (shape2 acts - 2)
                       - data pred_acts m j (shape2 acts - 2)))).

(** The four matrices hold these values at [(i, j)], for every item. *)
Definition cell_ok (cfg : config) (acts pred_acts : tensor3)
  (c : nat * nat) (d : distances) : Prop :=
  forall n, (n < shape0 acts)%nat ->
    distance_matrix d n (fst c) (snd c) = full_cell acts pred_acts n (fst c) (snd c)
    /\ distance_pos_matrix d n (fst c) (snd c)
       = pos_cell cfg acts pred_acts n (fst c) (snd c)
    /\ distance_yaw_matrix d n (fst c) (snd c)
       = yaw_cell cfg acts pred_acts n (fst c) (snd c)
    /\ distance_time_matrix d n (fst c) (snd c)
       = time_cell acts pred_acts (fst c) (snd c).

(** ** The matching the assignment stage computes *)

(** The expert rows of item [n] that are handed to the solver. *)
Definition valid_rows (acts : tensor3) (n : nat) : list nat :=
  filter (fun i => negb (expert_deleted acts n i)) (seq 0 (shape1 acts)).

(** The position cost of expert [i] against predicted [j], when the number
    of position control points is not zero. *)
Definition pos_cost (cfg : config) (acts pred_acts : tensor3) (n i j : nat)
  : Qc :=
  let P := traj_size_pos_ctrl_pts cfg in
  sq_diff_sum acts pred_acts n i j 0 (Nat.min P (shape2 acts)) / nat2Qc P.

(** The cost matrix after [np.delete]. *)
Definition reduced_cost (cfg : config) (acts pred_acts : tensor3) (n : nat)
  : list (list Qc) :=
  map (fun i => map (fun j => pos_cost cfg acts pred_acts n i j)
                  (seq 0 (shape1 acts)))
      (valid_rows acts n).

(** The pairs (expert row, predicted column) written into [alpha_matrix]. *)
Definition matching (solve : list (list Qc) -> list nat * list nat)
  (cfg : config) (acts pred_acts : tensor3) (n : nat) : list (nat * nat) :=
  combine (valid_rows acts n)
          (snd (solve (reduced_cost cfg acts pred_acts n))).

Definition in_matching (m : list (nat * nat)) (i j : nat) : bool :=
  existsb (fun p => Nat.eqb (fst p) i && Nat.eqb (snd p) j) m.

Definition indicator (b : bool) : Qc := if b then 1 else 0.

(** Column [j] is the partner of some row of the matching. *)
Definition col_hit (m : list (nat * nat)) (j : nat) : bool :=
  existsb (fun p => Nat.eqb (snd p) j) m.

(** ** The loss as the specification words it (section 4.4) *)

(** Finite values of the cost matrices. *)
Definition full_cost (acts pred_acts : tensor3) (n i j : nat) : Qc :=
  sq_diff_sum acts pred_acts n i j 0 (shape2 acts - 1) / nat2Qc (shape2 acts).

Definition yaw_cost (cfg : config) (acts pred_acts : tensor3) (n i j : nat)
  : Qc :=
  let P := traj_size_pos_ctrl_pts cfg in
  let Y := traj_size_yaw_ctrl_pts cfg in
  sq_diff_sum acts pred_acts n i j P
    (Nat.min (P + Y) (shape2 acts) - Nat.min P (shape2 acts)) / nat2Qc Y.

Definition time_cost (acts pred_acts : tensor3) (n i j : nat) : Qc :=
  sum_n (shape0 acts)
    (fun m => sq (data acts m i (shape2 acts - 2)
                  - data pred_acts m j (shape2 acts - 2))).

(** The existence score of predicted slot [j] of item [n]. *)
Definition score (pred_acts : tensor3) (n j : nat) : Qc :=
  data pred_acts n j (shape2 pred_acts - 1).

(** Step 2: slot [j] is assigned when some expert row is matched to it. *)
Definition slot_assigned (alpha : weights) (K n j : nat) : bool :=
  existsb (fun i => Qc_eq_bool (alpha n i j) 1) (seq 0 K).

(** Step 1: [(1/(N K)) sum_items sum_(i,j) assignment[i,j] cost[i,j]]. *)
Definition spec_matched_cost (N K : nat) (alpha : weights)
  (cost : nat -> nat -> nat -> Qc) : Qc :=
  1 / nat2Qc (N * K)
  * sum_n N (fun n => sum_n K (fun i => sum_n K (fun j =>
      alpha n i j * cost n i j))).

(** Step 3: the assigned slots are averaged, the unassigned ones summed. *)
Definition spec_prob_loss (N K : nat) (alpha : weights) (pred_acts : tensor3)
  : Qc :=
  1 / nat2Qc (N * K)
  * sum_n N (fun n =>
      sum_list (map (fun j => sq (score pred_acts n j - 1))
                  (filter (slot_assigned alpha K n) (seq 0 K))))
  + sum_n N (fun n =>
      sum_list (map (fun j => sq (score pred_acts n j + 1))
                  (filter (fun j => negb (slot_assigned alpha K n j))
                     (seq 0 K)))).

(** Step 4. *)
Definition spec_loss (cfg : config) (acts pred_acts : tensor3)
  (alpha : weights) : Qc :=
  spec_matched_cost (shape0 acts) (shape1 acts) alpha
    (full_cost acts pred_acts)
  + weight_prob cfg
    * spec_prob_loss (shape0 acts) (shape1 acts) alpha pred_acts.

(** What a successful run on a well-formed batch has computed. *)
Record run_facts (solve : list (list Qc) -> list nat * list nat)
  (cfg : config) (acts pred_acts : tensor3)
  (d : distances) (a : assignment) (r : stats_dict) : Prop := RunFacts {
  rf_cells :
    forall i j, (i < shape1 acts)%nat -> (j < shape1 acts)%nat ->
      cell_ok cfg acts pred_acts (i, j) d;
  rf_alpha :
    forall n i j, (n < shape0 acts)%nat ->
      alpha_matrix a n i j
      = indicator (in_matching (matching solve cfg acts pred_acts n) i j);
  rf_col_assigned :
    col_assigned a
    = Some (fun n j => th_round (sum_n (shape1 acts)
                                   (fun i => alpha_matrix a n i j)));
  rf_col_not_assigned :
    col_not_assigned a
    = Some (fun n j =>
              if Qc_eq_bool (th_round (sum_n (shape1 acts)
                                         (fun i => alpha_matrix a n i j))) 0
              then 1 else 0);
  rf_loss : loss r = Fin (spec_loss cfg acts pred_acts (alpha_matrix a));
  rf_prob_loss :
    prob_loss r
    = Fin (spec_prob_loss (shape0 acts) (shape1 acts) (alpha_matrix a)
             pred_acts);
  rf_time_loss :
    time_loss r
    = Fin (spec_matched_cost (shape0 acts) (shape1 acts) (alpha_matrix a)
             (time_cost acts pred_acts));
  rf_pos_loss :
    pos_loss r
    = Fin (spec_matched_cost (shape0 acts) (shape1 acts) (alpha_matrix a)
             (pos_cost cfg acts pred_acts));
  rf_yaw_loss :
    (0 < traj_size_yaw_ctrl_pts cfg)%nat ->
    yaw_loss r
    = Fin (spec_matched_cost (shape0 acts) (shape1 acts) (alpha_matrix a)
             (yaw_cost cfg acts pred_acts));
  rf_yaw_loss_nan :
    traj_size_yaw_ctrl_pts cfg = 0%nat -> yaw_loss r = NotFinite
}.

(** What item [n] adds to [th.sum(alpha_matrix * m)]. *)
Definition item_contribution (K : nat) (alpha : weights) (m : matrix3)
  (n : nat) : tfloat :=
  fsum_n K (fun i => fsum_n K (fun j => fmul (Fin (alpha n i j)) (m n i j))).

(** The position cost of the assignment of an item: the matrix summed
    against [alpha_matrix]. *)
Definition item_pos_cost (cfg : config) (acts pred_acts : tensor3)
  (alpha : weights) (n : nat) : Qc :=
  sum_n (shape1 acts) (fun i => sum_n (shape1 acts) (fun j =>
    alpha n i j * pos_cost cfg acts pred_acts n i j)).


(** ** Permuting the predicted trajectories of one item *)

(** [pi] permutes [0, ..., K-1], with inverse [pi_inv]. *)
Definition is_permutation (K : nat) (pi pi_inv : nat -> nat) : Prop :=
  forall j, (j < K)%nat ->
    (pi j < K)%nat /\ (pi_inv j < K)%nat
    /\ pi_inv (pi j) = j /\ pi (pi_inv j) = j.

(** Slot [j] of item [n0] holds what slot [pi j] held: the whole vector,
    existence score included.  The other items are untouched. *)
Definition permute_slots (pred_acts : tensor3) (n0 : nat) (pi : nat -> nat)
  : tensor3 :=
  Tensor3 (shape0 pred_acts) (shape1 pred_acts) (shape2 pred_acts)
    (fun n j k =>
       if Nat.eqb n n0 then data pred_acts n (pi j) k
       else data pred_acts n j k).

(** The column choice [cs] is optimal for item [n]. *)
Definition optimal_choice (cfg : config) (acts pred_acts : tensor3) (n : nat)
  (cs : list nat) : Prop :=
  feasible (length (valid_rows acts n)) (shape1 acts) cs
  /\ forall cs', feasible (length (valid_rows acts n)) (shape1 acts) cs' ->
       assignment_cost (reduced_cost cfg acts pred_acts n) cs
       <= assignment_cost (reduced_cost cfg acts pred_acts n) cs'.

(** Item [n] has one minimum-position-cost matching only. *)
Definition unique_optimum (cfg : config) (acts pred_acts : tensor3) (n : nat)
  : Prop :=
  forall cs1 cs2,
    optimal_choice cfg acts pred_acts n cs1 ->
    optimal_choice cfg acts pred_acts n cs2 -> cs1 = cs2.

(** A matching inside [K x K]: no row twice, no column twice. *)
Definition is_matching (K : nat) (m : list (nat * nat)) : Prop :=
  NoDup (map fst m) /\ NoDup (map snd m)
  /\ forall p, In p m -> (fst p < K)%nat /\ (snd p < K)%nat.


(** ** Example batches *)

(** Four position and one yaw control points: vectors of length 7. *)
Definition cfg_4_1 : config := Config 4 1 (Q2Qc (1 # 100)).

(** One item, two valid experts; the position costs are [[1,4],[3,2]]. *)
Definition acts_small : tensor3 :=
  tensor3_of_list [[[0; 0; 0; 0; 0; 0; 1]; [0; 2; 2; 0; 0; 1; 1]]]%Q.
Definition pred_small : tensor3 :=
  tensor3_of_list [[[2; 0; 0; 0; 0; 0; 1]; [0; 4; 0; 0; 0; 1; 1]]]%Q.

(** One position and one yaw control point: vectors of length 4. *)
Definition cfg_1_1 : config := Config 1 1 1.

(** Two items of two trajectories; the experts of item 1 are both invalid.
    The predicted times of item 1 are off by 3. *)
Definition acts_two : tensor3 :=
  tensor3_of_list [[[0; 0; 0; 1]; [5; 0; 0; 1]];
                   [[0; 0; 0; -1]; [5; 0; 0; -1]]]%Q.
Definition pred_two : tensor3 :=
  tensor3_of_list [[[3; 0; 0; 1]; [5; 0; 0; 1]];
                   [[0; 0; 3; -1]; [5; 0; 3; -1]]]%Q.
(** The same batch with the predicted times of item 1 equal to the
    experts'. *)
Definition pred_two' : tensor3 :=
  tensor3_of_list [[[3; 0; 0; 1]; [5; 0; 0; 1]];
                   [[0; 0; 0; -1]; [5; 0; 0; -1]]]%Q.

(** One trajectory per set (K = 1), with a valid and with an invalid
    expert. *)
Definition acts_single : tensor3 := tensor3_of_list [[[0; 0; 0; 1]]]%Q.
Definition pred_single : tensor3 := tensor3_of_list [[[3; 0; 0; 1]]]%Q.
Definition acts_single_invalid : tensor3 :=
  tensor3_of_list [[[0; 0; 0; -1]]]%Q.

(** Vectors of length 5 under a configuration that asks for 4. *)
Definition acts_long : tensor3 :=
  tensor3_of_list [[[0; 0; 0; 0; 1]; [1; 0; 0; 0; 1]]]%Q.
Definition pred_long : tensor3 :=
  tensor3_of_list [[[0; 0; 0; 0; 1]; [1; 0; 0; 0; 1]]]%Q.

(** Two position and no yaw control points: vectors of length 4. *)
Definition cfg_2_0 : config := Config 2 0 1.

(** ** The full cost as the specification words it *)

(** Squared differences over the first [P+Y+1] components, divided by the
    number of components compared. *)
Definition spec_full_cost (cfg : config) (acts pred_acts : tensor3)
  (n i j : nat) : Qc :=
  let compared :=
    (traj_size_pos_ctrl_pts cfg + traj_size_yaw_ctrl_pts cfg + 1)%nat in
  sq_diff_sum acts pred_acts n i j 0 compared / nat2Qc compared.

(** The time cost as the specification words it: the squared difference of
    the two time scalars of the item. *)
Definition spec_time_cost (cfg : config) (acts pred_acts : tensor3)
  (n i j : nat) : Qc :=
  let t := (traj_size_pos_ctrl_pts cfg + traj_size_yaw_ctrl_pts cfg)%nat in
  sq (data acts n i t - data pred_acts n j t).

(** One item whose two experts and two predictions all have the same
    position and differ in time: every matching has position cost 0. *)
Definition acts_tie : tensor3 :=
  tensor3_of_list [[[0; 0; 0; 1]; [0; 0; 1; 1]]]%Q.
Definition pred_tie : tensor3 :=
  tensor3_of_list [[[0; 0; 0; 1]; [0; 0; 1; 1]]]%Q.

(** The transposition of slots 0 and 1. *)
Definition swap01 (j : nat) : nat :=
  match j with
  | 0%nat => 1%nat
  | 1%nat => 0%nat
  | _ => j
  end.

(** ** [EpochOrBatchIteratorWithProgress] (bc.py, lines 72-180)

    The progress display ([tqdm], [update_desc]) has no effect on what is
    yielded and is left out.  The data loader is iterated once per pass of
    the [while True] loop: [data_loader k] is the list of batches it gives
    when it is iterated for the [(k+1)]-th time.  A batch is seen through
    [len(batch["obs"])] only.  The callbacks are recorded as events. *)

(** After [__init__] exactly one of [n_epochs] and [n_batches] is not
    [None]; [use_epochs] tells which. *)
Inductive limit : Type :=
| Epochs (n_epochs : Z)
| Batches (n_batches : Z).

Record iterator (batch : Type) : Type := Iterator {
  data_loader : nat -> list batch;
  it_limit : limit;
  on_epoch_end : bool;
  on_batch_end : bool
}.

Arguments Iterator {batch}.
Arguments data_loader {batch}.
Arguments it_limit {batch}.
Arguments on_epoch_end {batch}.
Arguments on_batch_end {batch}.

Definition use_epochs {batch : Type} (it : iterator batch) : bool :=
  match it_limit it with
  | Epochs _ => true
  | Batches _ => false
  end.

(** [__init__]: the callbacks are given as "is not None". *)
Definition iterator_init {batch : Type} (loader : nat -> list batch)
  (n_epochs n_batches : option Z) (epoch_cb batch_cb : bool)
  : result (iterator batch) :=
  match n_epochs, n_batches with
  | Some n, None => Ok (Iterator loader (Epochs n) epoch_cb batch_cb)
  | None, Some n => Ok (Iterator loader (Batches n) epoch_cb batch_cb)
  | _, _ => Raise ValueError
  end.

(** The [stats] dictionary yielded with a batch. *)
Record iter_stats : Type := IterStats {
  epoch_num : nat;
  batch_num : nat;
  samples_so_far : nat
}.

Inductive event (batch : Type) : Type :=
| Yielded (b : batch) (s : iter_stats)
| BatchEnd
| EpochEnd.

Arguments Yielded {batch}.
Arguments BatchEnd {batch}.
Arguments EpochEnd {batch}.

(** How the generator ends. *)
Inductive finish : Type :=
| Returned
| Raised (e : exn).

Section Iterate.

Variable batch : Type.
(** [len(batch["obs"])]. *)
Variable batch_len : batch -> nat.
Variable it : iterator batch.

(** [for batch in self.data_loader]: the events, and either the counters
    after the last batch or the way the generator ended inside the loop. *)
Fixpoint run_batches (bs : list batch) (st : iter_stats)
  : list (event batch) * (iter_stats + finish) :=
  match bs with
  | [] => ([], inl st)
  | b :: bs' =>
      let batch_num' := S (batch_num st) in
      let batch_size := batch_len b in
      if Nat.eqb batch_size 0
      then ([], inr (Raised AssertionError))
      else
        let st' := IterStats (epoch_num st) batch_num'
                     (samples_so_far st + batch_size) in
        let evs := Yielded b st'
                   :: (if on_batch_end it then [BatchEnd] else []) in
        match it_limit it with
        | Batches n =>
            if Z.leb n (Z.of_nat batch_num')
            then (evs, inr Returned)
            else let (evs', r) := run_batches bs' st' in (evs ++ evs', r)
        | Epochs _ =>
            let (evs', r) := run_batches bs' st' in (evs ++ evs', r)
        end
  end.

(** [while True], with [fuel] bounding the number of passes; [None] when
    the fuel runs out. *)
Fixpoint run_epochs (fuel : nat) (st : iter_stats)
  : list (event batch) * option finish :=
  match fuel with
  | O => ([], None)
  | S fuel' =>
      let bs := data_loader it (epoch_num st) in
      match run_batches bs st with
      | (evs, inr fin) => (evs, Some fin)
      | (evs, inl st1) =>
          match bs with
          | [] => (evs, Some (Raised AssertionError))
          | _ :: _ =>
              let st2 := IterStats (S (epoch_num st1)) (batch_num st1)
                           (samples_so_far st1) in
              let evs2 := if on_epoch_end it then [EpochEnd] else [] in
              match it_limit it with
              | Epochs n =>
                  if Z.leb n (Z.of_nat (epoch_num st2))
                  then (evs ++ evs2, Some Returned)
                  else let (evs', r) := run_epochs fuel' st2 in
                       (evs ++ evs2 ++ evs', r)
              | Batches _ =>
                  let (evs', r) := run_epochs fuel' st2 in
                  (evs ++ evs2 ++ evs', r)
              end
          end
      end
  end.

(** [__iter__], run to its end. *)
Definition iterate (fuel : nat) : list (event batch) * option finish :=
  run_epochs fuel (IterStats 0 0 0).

End Iterate.

(** The batches an event list yields, with their stats. *)
Fixpoint yields {batch : Type} (evs : list (event batch))
  : list (batch * iter_stats) :=
  match evs with
  | [] => []
  | Yielded b s :: evs' => (b, s) :: yields evs'
  | _ :: evs' => yields evs'
  end.

Definition count_epoch_ends {batch : Type} (evs : list (event batch)) : nat :=
  length (filter (fun e => match e with EpochEnd => true | _ => false end) evs).

(** [max(n, 1)] as a count. *)
Definition at_least_one (n : Z) : nat := Z.to_nat (Z.max n 1).

(** Every batch of a pass has at least one sample. *)
Definition positive_sizes {batch : Type} (batch_len : batch -> nat)
  (bs : list batch) : Prop :=
  forall b, In b bs -> (0 < batch_len b)%nat.

(** The number of samples in a list of batches. *)
Definition total_len {batch : Type} (batch_len : batch -> nat)
  (bs : list batch) : nat :=
  fold_right (fun b acc => (batch_len b + acc)%nat) 0%nat bs.

(** The batches of the passes [e], ..., [e + k - 1], in order. *)
Definition passes {batch : Type} (it : iterator batch) (e k : nat)
  : list batch :=
  flat_map (data_loader it) (seq e k).

(** The stats of successive yields count batches from [bn] and samples
    from [ss]. *)
Fixpoint numbered {batch : Type} (batch_len : batch -> nat) (bn ss : nat)
  (ys : list (batch * iter_stats)) : Prop :=
  match ys with
  | [] => True
  | (b, s) :: ys' =>
      batch_num s = S bn
      /\ samples_so_far s = (ss + batch_len b)%nat
      /\ numbered batch_len (S bn) (ss + batch_len b) ys'
  end.

(** The generator has not returned when [epochs_done] passes are complete
    and [batches_done] batches have been given. *)
Definition limit_not_reached {batch : Type} (it : iterator batch)
  (epochs_done batches_done : nat) : Prop :=
  match it_limit it with
  | Epochs n => (epochs_done < at_least_one n)%nat
  | Batches n => (batches_done < at_least_one n)%nat
  end.

(** The passes [e], ..., [e + k - 1] have data, of positive sizes. *)
Definition good_passes {batch : Type} (batch_len : batch -> nat)
  (it : iterator batch) (e k : nat) : Prop :=
  forall i, (e <= i < e + k)%nat ->
    data_loader it i <> [] /\ positive_sizes batch_len (data_loader it i).

(** Example loaders; a batch is given by its number of samples. *)
Definition loader_two_three : nat -> list nat := fun _ => [2; 3]%nat.

Definition loader_runs_dry : nat -> list nat :=
  fun e => if Nat.eqb e 0 then [2; 3]%nat else [].

Definition loader_with_empty_batch : nat -> list nat :=
  fun e => if Nat.eqb e 0 then [2; 3]%nat else [4; 0; 5]%nat.

(** ** [BC.train] (bc.py, lines 515-605)

    The loop of [train] takes the batches of the iterator one by one,
    computes the loss, lets the optimizer take a step and, every
    [log_interval] batches, saves the policy (when a path is given) and
    dumps the logger.  The policy, the loss and the optimizer are kept
    abstract; rollouts are not generated ([log_rollouts_venv] is [None], the
    default). *)

From Stdlib Require Import Ascii String DecimalString.
Import List.

(** [str] of a Python [int]. *)
Definition str (z : Z) : string := NilZero.string_of_int (Z.to_int z).

(** [s.find(sub)]: the lowest index at which [sub] occurs in [s], or -1. *)
Fixpoint find_from (sub s : string) (i : nat) : Z :=
  if String.prefix sub s then Z.of_nat i
  else match s with
       | EmptyString => (-1)%Z
       | String _ s' => find_from sub s' (S i)
       end.

Definition find (s sub : string) : Z := find_from sub s 0.

Fixpoint string_take (n : nat) (s : string) : string :=
  match n, s with
  | S n', String c s' => String c (string_take n' s')
  | _, _ => EmptyString
  end.

Fixpoint string_drop (n : nat) (s : string) : string :=
  match n, s with
  | S n', String _ s' => string_drop n' s'
  | _, _ => s
  end.

(** The position a slice bound [i] stands for in a string of length [len]:
    a negative bound counts from the end, and the position is clamped to
    [0, len]. *)
Definition slice_bound (len : nat) (i : Z) : nat :=
  let j := if Z.ltb i 0 then (i + Z.of_nat len)%Z else i in
  Z.to_nat (Z.min (Z.max j 0) (Z.of_nat len)).

(** [s[:i]] and [s[i:]]. *)
Definition slice_to (s : string) (i : Z) : string :=
  string_take (slice_bound (String.length s) i) s.

Definition slice_from (s : string) (i : Z) : string :=
  string_drop (slice_bound (String.length s) i) s.

(** Lines 582-583.  The path is computed only when [batch_num] is a
    multiple of [log_interval], so that [batch_num/log_interval] is a whole
    number and [math.floor] of the float is the integer quotient (batch
    counts are far below 2^53). *)
Definition log_path (save_full_policy_path : string) (batch_num : nat)
  (log_interval : Z) : string :=
  let index := find save_full_policy_path ".pt" in
  (slice_to save_full_policy_path index
   ++ "_log" ++ str (Z.of_nat batch_num / log_interval)
   ++ slice_from save_full_policy_path index)%string.

(** What [train] does to the optimizer, the disk and the logger. *)
Inductive train_event : Type :=
| OptimizerStep
| SavePolicy (path : string)
| Dump (tensorboard_step : Z).

Section Train.

Variable batch : Type.
Variable batch_len : batch -> nat.
Variable policy : Type.
Variable loss : Type.
(** [self._calculate_loss(batch["obs"], batch["acts"])] under the current
    policy. *)
Variable calculate_loss : policy -> batch -> result loss.
(** [zero_grad(); loss.backward(); optimizer.step()]. *)
Variable optimizer_step : policy -> loss -> policy.

Variable log_interval : Z.
Variable save_full_policy_path : option string.

(** The body of [if batch_num % log_interval == 0]. *)
Definition log_events (batch_num : nat) (tensorboard_step : Z)
  : list train_event :=
  match save_full_policy_path with
  | Some path => [SavePolicy (log_path path batch_num log_interval)]
  | None => []
  end ++ [Dump tensorboard_step].

(** The [for] loop over the yielded batches, from the counters [batch_num]
    and [tensorboard_step]. *)
Fixpoint train_loop (bs : list batch) (batch_num : nat) (p : policy)
  (tensorboard_step : Z) : list train_event * result (policy * Z) :=
  match bs with
  | [] => ([], Ok (p, tensorboard_step))
  | b :: bs' =>
      match calculate_loss p b with
      | Raise e => ([], Raise e)
      | Ok l =>
          let p' := optimizer_step p l in
          if Z.eqb log_interval 0
          then ([OptimizerStep], Raise ZeroDivisionError)
          else
            let logged :=
              if Z.eqb (Z.of_nat batch_num mod log_interval) 0
              then log_events batch_num tensorboard_step
              else [] in
            let (evs, r) :=
              train_loop bs' (S batch_num) p' (tensorboard_step + 1)%Z in
            (OptimizerStep :: logged ++ evs, r)
      end
  end.

(** [train]: [None] when the fuel of the iterator runs out.  An exception
    of the iterator reaches [train] once the batches yielded before it have
    been used. *)
Definition train (loader : nat -> list batch) (n_epochs n_batches : option Z)
  (on_epoch_end on_batch_end reset_tensorboard : bool)
  (p : policy) (tensorboard_step : Z) (fuel : nat)
  : list train_event * option (result (policy * Z)) :=
  match iterator_init loader n_epochs n_batches on_epoch_end on_batch_end with
  | Raise e => ([], Some (Raise e))
  | Ok it =>
      let tensorboard_step :=
        if reset_tensorboard then 0%Z else tensorboard_step in
      let (its, fin) := iterate batch batch_len it fuel in
      let (evs, r) :=
        train_loop (map fst (yields its)) 0 p tensorboard_step in
      match r with
      | Raise e => (evs, Some (Raise e))
      | Ok end_state =>
          match fin with
          | None => (evs, None)
          | Some Returned => (evs, Some (Ok end_state))
          | Some (Raised e) => (evs, Some (Raise e))
          end
      end
  end.

End Train.

Definition optimizer_steps (evs : list train_event) : nat :=
  List.length
    (filter (fun e => match e with OptimizerStep => true | _ => false end) evs).

Fixpoint dumps (evs : list train_event) : list Z :=
  match evs with
  | [] => []
  | Dump t :: evs' => t :: dumps evs'
  | _ :: evs' => dumps evs'
  end.

Fixpoint saved_paths (evs : list train_event) : list string :=
  match evs with
  | [] => []
  | SavePolicy s :: evs' => s :: saved_paths evs'
  | _ :: evs' => saved_paths evs'
  end.

(** The number of multiples of [l] below [b]: [ceil(b / l)]. *)
Definition logs_in (b : nat) (l : Z) : nat :=
  Z.to_nat ((Z.of_nat b + l - 1) / l).

(** The batch numbers among [bn], ..., [bn + n - 1] at which [train] logs. *)
Definition log_batches (l : Z) (bn n : nat) : list nat :=
  filter (fun i => Z.eqb (Z.of_nat i mod l) 0) (seq bn n).

(** ** The range of float32

    The model computes with exact rationals and has no overflow: a value
    [Fin q] may be larger than any float32.  Statements about the size of a
    value (finite, non-negative, zero) are therefore made for batches whose
    components are bounded so that no sum the code takes leaves the finite
    range of float32, and they say that the value lies in that range. *)

(** The largest finite float32, [(2 - 2^-23) * 2^127]. *)
Definition float32_max : Qc := Q2Qc (inject_Z ((2 ^ 24 - 1) * 2 ^ 104)).

(** A value float32 holds without overflow. *)
Definition in_float32_range (x : tfloat) : Prop :=
  match x with
  | Fin q => - float32_max <= q /\ q <= float32_max
  | NotFinite => False
  end.

(** Every component of [t] lies in [[-B, B]]. *)
Definition bounded_by (B : Qc) (t : tensor3) : Prop :=
  forall n i k, (n < shape0 t)%nat -> (i < shape1 t)%nat ->
    (k < shape2 t)%nat ->
    - B <= data t n i k /\ data t n i k <= B.

(** A bound on the sums of squared differences of the double loop (lines
    390-393), taken before the division: at most [max(S, N)] squares of
    differences of two components of [[-B, B]].  The factor 2 leaves room
    for the rounding of the float32 sums. *)
Definition cost_bound (B : Qc) (acts : tensor3) : Qc :=
  (1 + 1) * (nat2Qc (Nat.max (shape2 acts) (shape0 acts)) * sq (B + B)).

(** A bound on the sums of the aggregation (lines 486-497), taken before
    the multiplication by [norm_constant], and on the loss:
    [th.sum(alpha_matrix * m)] has [N*K*K] terms below [cost_bound], the
    sums of [prob_loss] at most [N*K] terms below [(B + 1)^2]. *)
Definition loss_bound (cfg : config) (B : Qc) (acts : tensor3) : Qc :=
  (1 + weight_prob cfg)
  * (nat2Qc (shape0 acts * shape1 acts * shape1 acts)
     * (cost_bound B acts + sq (B + 1))).

(** * Properties *)

(** ** Arithmetic *)

Lemma th_round_0 : th_round 0 = 0.
Proof. apply Qc_is_canon. vm_compute. reflexivity. Qed.

Lemma th_round_1 : th_round 1 = 1.
Proof. apply Qc_is_canon. vm_compute. reflexivity. Qed.

Lemma th_round_opp1 : th_round (- (1)) = - (1).
Proof. apply Qc_is_canon. vm_compute. reflexivity. Qed.

Lemma Qc_eq_bool_refl (x : Qc) : Qc_eq_bool x x = true.
Proof. unfold Qc_eq_bool. destruct (Qc_eq_dec x x); congruence. Qed.

Lemma Qc_eq_bool_neq (x y : Qc) : x <> y -> Qc_eq_bool x y = false.
Proof. unfold Qc_eq_bool. destruct (Qc_eq_dec x y); congruence. Qed.

Lemma Qc_1_neq_0 : (1 : Qc) <> 0.
Proof. exact Q_apart_0_1. Qed.

(** ** Sums over index ranges *)

Lemma sum_n_ext (n : nat) (f g : nat -> Qc) :
  (forall k, (k < n)%nat -> f k = g k) -> sum_n n f = sum_n n g.
Proof.
  induction n as [| n IH]; intros H; simpl; [reflexivity |].
  rewrite IH by (intros; apply H; lia). rewrite H by lia. reflexivity.
Qed.

Lemma sum_n_zero (n : nat) (f : nat -> Qc) :
  (forall k, (k < n)%nat -> f k = 0) -> sum_n n f = 0.
Proof.
  induction n as [| n IH]; intros H; simpl; [reflexivity |].
  rewrite IH by (intros; apply H; lia). rewrite H by lia. ring.
Qed.

Lemma sum_n_plus (n : nat) (f g : nat -> Qc) :
  sum_n n (fun k => f k + g k) = sum_n n f + sum_n n g.
Proof. induction n as [| n IH]; simpl; [ring | rewrite IH; ring]. Qed.

Lemma sum_n_pick (n j : nat) (f : nat -> Qc) :
  sum_n n (fun k => if Nat.eqb k j then f k else 0)
  = if Nat.ltb j n then f j else 0.
Proof.
  induction n as [| n IH]; simpl; [reflexivity |].
  rewrite IH.
  destruct (Nat.eqb_spec n j) as [-> | Hne].
  - rewrite Nat.ltb_irrefl.
    replace (Nat.ltb j (S j)) with true by (symmetry; apply Nat.ltb_lt; lia).
    ring.
  - destruct (Nat.ltb_spec j n), (Nat.ltb_spec j (S n)); try lia; ring.
Qed.

Lemma fsum_n_ext (n : nat) (f g : nat -> tfloat) :
  (forall k, (k < n)%nat -> f k = g k) -> fsum_n n f = fsum_n n g.
Proof.
  induction n as [| n IH]; intros H; simpl; [reflexivity |].
  rewrite IH by (intros; apply H; lia). rewrite H by lia. reflexivity.
Qed.

Lemma fsum_n_fin (n : nat) (f : nat -> Qc) :
  fsum_n n (fun k => Fin (f k)) = Fin (sum_n n f).
Proof. induction n as [| n IH]; simpl; [reflexivity | rewrite IH; reflexivity]. Qed.

Lemma fsum_n_fin_ext (n : nat) (f : nat -> tfloat) (g : nat -> Qc) :
  (forall k, (k < n)%nat -> f k = Fin (g k)) -> fsum_n n f = Fin (sum_n n g).
Proof.
  intros H. rewrite <- fsum_n_fin. apply fsum_n_ext. exact H.
Qed.

Lemma fsum_n_not_finite (n : nat) (f : nat -> tfloat) :
  (exists k, (k < n)%nat /\ f k = NotFinite) -> fsum_n n f = NotFinite.
Proof.
  induction n as [| n IH]; intros [k [Hk Hf]]; [lia |].
  simpl. destruct (Nat.eq_dec k n) as [-> | Hne].
  - rewrite Hf. destruct (fsum_n n f); reflexivity.
  - rewrite IH by (exists k; split; [lia | exact Hf]). reflexivity.
Qed.

(** ** The exception monad and loops *)

Lemma bind_ok {A B : Type} (m : result A) (k : A -> result B) (b : B) :
  bind m k = Ok b -> exists a, m = Ok a /\ k a = Ok b.
Proof. destruct m as [a | e]; simpl; intros H; [eauto | discriminate]. Qed.

Lemma for_each_pure {X A : Type} (l : list X) (body : X -> A -> result A)
  (g : X -> A -> A) :
  (forall x s, In x l -> body x s = Ok (g x s)) ->
  forall s, for_each l body s = Ok (fold_left (fun s x => g x s) l s).
Proof.
  induction l as [| x l IH]; intros H s; simpl; [reflexivity |].
  rewrite H by (left; reflexivity). simpl.
  apply IH. intros; apply H; right; assumption.
Qed.

(** A loop whose iteration [x] establishes [Good (key x)] and keeps what
    was established before runs to its end and establishes it for all. *)
Lemma for_each_establish {X Y A : Type} (key : X -> Y) (Good : Y -> A -> Prop)
  (l : list X) (body : X -> A -> result A) :
  (forall x s, In x l ->
     exists s', body x s = Ok s' /\ Good (key x) s'
                /\ forall y, Good y s -> Good y s') ->
  forall s, exists s',
    for_each l body s = Ok s'
    /\ (forall x, In x l -> Good (key x) s')
    /\ (forall y, Good y s -> Good y s').
Proof.
  induction l as [| x l IH]; intros H s; simpl.
  - exists s. repeat split; [intros ? [] | auto].
  - destruct (H x s (or_introl eq_refl)) as [s1 [E1 [G1 K1]]].
    rewrite E1. simpl.
    destruct (IH (fun x' s' Hx => H x' s' (or_intror Hx)) s1)
      as [s2 [E2 [G2 K2]]].
    exists s2. split; [exact E2 |]. split.
    + intros x' [<- | Hx]; [apply K2, G1 | apply G2, Hx].
    + intros y Hy. apply K2, K1, Hy.
Qed.


(** ** The cost matrices *)

Lemma bdim_same (a : nat) : bdim a a = Some a.
Proof. unfold bdim. rewrite Nat.eqb_refl. reflexivity. Qed.

Lemma bidx_in_range (d i : nat) : (i < d)%nat -> bidx d i = i.
Proof. unfold bidx. destruct (Nat.eqb_spec d 1); intros; lia. Qed.

Lemma sum_n_eq (c c' : nat) (f g : nat -> Qc) :
  c = c' -> (forall k, (k < c)%nat -> f k = g k) -> sum_n c f = sum_n c' g.
Proof. intros <-. apply sum_n_ext. Qed.

Ltac same_sum :=
  apply sum_n_eq; [lia | intros ? ?; rewrite ?bidx_in_range by lia; reflexivity].

Lemma distance_step_ok (cfg : config) (acts pred_acts : tensor3)
  (i j : nat) (d : distances) :
  same_shape acts pred_acts ->
  (i < shape1 acts)%nat -> (j < shape1 acts)%nat -> (2 <= shape2 acts)%nat ->
  exists d',
    distance_step cfg acts pred_acts i j d = Ok d'
    /\ cell_ok cfg acts pred_acts (i, j) d'
    /\ forall c, cell_ok cfg acts pred_acts c d -> cell_ok cfg acts pred_acts c d'.
Proof.
  intros [H0 [H1 H2]] Hi Hj HS.
  unfold distance_step, slice, select_time.
  rewrite <- H1, <- H2, <- H0.
  replace (Nat.ltb i (shape1 acts)) with true by (symmetry; apply Nat.ltb_lt; lia).
  replace (Nat.ltb j (shape1 acts)) with true by (symmetry; apply Nat.ltb_lt; lia).
  replace (Nat.leb 2 (shape2 acts)) with true by (symmetry; apply Nat.leb_le; lia).
  cbn [bind]. unfold mse_none2, mse_none1. cbn [rows cols len].
  rewrite !bdim_same. cbn [bind].
  unfold assign_col, div_int, sum_dim1. cbn [flen fat1 len rows cols at1 at2].
  rewrite !Nat.eqb_refl. cbn [orb bind].
  eexists. split; [reflexivity |]. split.
  - intros n Hn. cbn [fst snd distance_matrix distance_pos_matrix
                        distance_yaw_matrix distance_time_matrix].
    unfold assign_scalar. rewrite !Nat.eqb_refl. cbn [andb].
    rewrite (bidx_in_range _ _ Hn).
    unfold full_cell, pos_cell, yaw_cell, time_cell, sq_diff_sum, sum_dim0.
    cbn [len at1]. cbn zeta.
    repeat split.
    + f_equal. f_equal. same_sum.
    + f_equal. f_equal. same_sum.
    + f_equal. f_equal. same_sum.
    + f_equal. same_sum.
  - intros [i' j'] Hc n Hn. specialize (Hc n Hn).
    cbn [fst snd distance_matrix distance_pos_matrix
           distance_yaw_matrix distance_time_matrix] in *.
    unfold assign_scalar.
    destruct (Nat.eqb_spec i' i) as [-> | Hne];
      [destruct (Nat.eqb_spec j' j) as [-> | Hne] |]; cbn [andb];
      try exact Hc.
    rewrite (bidx_in_range _ _ Hn).
    unfold full_cell, pos_cell, yaw_cell, time_cell, sq_diff_sum, sum_dim0.
    cbn [len at1]. cbn zeta.
    repeat split.
    + f_equal. f_equal. same_sum.
    + f_equal. f_equal. same_sum.
    + f_equal. f_equal. same_sum.
    + f_equal. same_sum.
Qed.

(** On a well-formed batch the double loop runs to its end and fills every
    cell with the value of its closed form. *)
Lemma cost_matrices_ok (cfg : config) (acts pred_acts : tensor3) :
  same_shape acts pred_acts -> (2 <= shape2 acts)%nat ->
  exists d,
    cost_matrices cfg acts pred_acts = Ok d
    /\ forall i j, (i < shape1 acts)%nat -> (j < shape1 acts)%nat ->
         cell_ok cfg acts pred_acts (i, j) d.
Proof.
  intros Hsh HS. unfold cost_matrices.
  destruct (for_each_establish (fun i : nat => i)
              (fun i d => forall j, (j < shape1 acts)%nat ->
                                    cell_ok cfg acts pred_acts (i, j) d)
              (seq 0 (shape1 acts))
              (fun i => for_each (seq 0 (shape1 acts))
                          (fun j => distance_step cfg acts pred_acts i j)))
    with (s := Distances zeros zeros zeros zeros) as [d [E [G _]]].
  - intros i s Hi. apply in_seq in Hi.
    destruct (for_each_establish (fun j : nat => (i, j))
                (cell_ok cfg acts pred_acts)
                (seq 0 (shape1 acts))
                (fun j => distance_step cfg acts pred_acts i j))
      with (s := s) as [s' [E' [G' K']]].
    + intros j s0 Hj. apply in_seq in Hj.
      apply distance_step_ok; [assumption | lia | lia | assumption].
    + exists s'. split; [exact E' |]. split.
      * intros j Hj. apply G'. apply in_seq. lia.
      * intros y Hy j Hj. apply K', Hy, Hj.
  - exists d. split; [exact E |].
    intros i j Hi Hj. apply G; [apply in_seq; lia | exact Hj].
Qed.

(** The loop body reads [acts[:, i, -2]]: it needs two components. *)
Lemma distance_step_needs_time (cfg : config) (acts pred_acts : tensor3)
  (i j : nat) (d d' : distances) :
  distance_step cfg acts pred_acts i j d = Ok d' -> (2 <= shape2 acts)%nat.
Proof.
  unfold distance_step. intros H.
  repeat (apply bind_ok in H; destruct H as [? [? H]]).
  match goal with
  | E : select_time acts i = Ok _ |- _ =>
      unfold select_time in E;
      destruct (Nat.ltb i (shape1 acts)); [| discriminate];
      destruct (Nat.leb_spec 2 (shape2 acts)); [assumption | discriminate]
  end.
Qed.

Lemma cost_matrices_needs_time (cfg : config) (acts pred_acts : tensor3)
  (d : distances) :
  cost_matrices cfg acts pred_acts = Ok d -> (1 <= shape1 acts)%nat ->
  (2 <= shape2 acts)%nat.
Proof.
  unfold cost_matrices. intros H HK.
  destruct (shape1 acts) as [| k]; [lia |].
  cbn [seq for_each] in H.
  apply bind_ok in H. destruct H as [d1 [H _]].
  apply bind_ok in H. destruct H as [d2 [H _]].
  eapply distance_step_needs_time. exact H.
Qed.

(** ** The assignment stage *)

Lemma existsb_eqb_filter (f : nat -> bool) (l : list nat) (k : nat) :
  In k l -> existsb (Nat.eqb k) (filter f l) = f k.
Proof.
  intros Hk. destruct (f k) eqn:Hf.
  - apply existsb_exists. exists k. split.
    + apply filter_In. split; assumption.
    + apply Nat.eqb_refl.
  - destruct (existsb (Nat.eqb k) (filter f l)) eqn:E; [| reflexivity].
    apply existsb_exists in E. destruct E as [x [Hx Hkx]].
    apply Nat.eqb_eq in Hkx. subst x.
    apply filter_In in Hx. destruct Hx as [_ Hx]. congruence.
Qed.

Lemma combine_seq_map {A : Type} (g : nat -> A) (l : list nat) :
  combine l (map g l) = map (fun k => (k, g k)) l.
Proof. induction l as [| x l IH]; simpl; [reflexivity | rewrite IH; reflexivity]. Qed.

Lemma filter_map_swap {A B : Type} (h : A -> B) (p : B -> bool) (l : list A) :
  filter p (map h l) = map h (filter (fun x => p (h x)) l).
Proof.
  induction l as [| x l IH]; simpl; [reflexivity |].
  destruct (p (h x)); simpl; rewrite IH; reflexivity.
Qed.

Lemma filter_ext_in' {A : Type} (f g : A -> bool) (l : list A) :
  (forall x, In x l -> f x = g x) -> filter f l = filter g l.
Proof.
  induction l as [| x l IH]; intros H; simpl; [reflexivity |].
  rewrite (H x) by (left; reflexivity).
  rewrite IH by (intros; apply H; right; assumption). reflexivity.
Qed.

(** Deleting from [g 0, ..., g (K-1)] the rows selected by [f] keeps the
    rows that [f] rejects. *)
Lemma np_delete_filter {A : Type} (g : nat -> A) (f : nat -> bool) (K : nat) :
  np_delete (map g (seq 0 K)) (filter f (seq 0 K))
  = map g (filter (fun i => negb (f i)) (seq 0 K)).
Proof.
  unfold np_delete. rewrite length_map, length_seq.
  rewrite combine_seq_map, filter_map_swap, map_map. cbn [fst snd].
  f_equal. apply filter_ext_in'. intros k Hk.
  rewrite existsb_eqb_filter by exact Hk. reflexivity.
Qed.

Lemma np_delete_rows (f : nat -> bool) (K : nat) :
  np_delete (seq 0 K) (filter f (seq 0 K))
  = filter (fun i => negb (f i)) (seq 0 K).
Proof.
  rewrite <- (map_id (seq 0 K)) at 1.
  rewrite (np_delete_filter (fun i => i)). apply map_id.
Qed.

Lemma finite_row_map (f : nat -> tfloat) (q : nat -> Qc) (l : list nat) :
  (forall j, In j l -> f j = Fin (q j)) ->
  finite_row (map f l) = Some (map q l).
Proof.
  induction l as [| j l IH]; intros H; simpl; [reflexivity |].
  rewrite (H j) by (left; reflexivity).
  rewrite IH by (intros; apply H; right; assumption). reflexivity.
Qed.

Lemma finite_matrix_map (f : nat -> nat -> tfloat) (q : nat -> nat -> Qc)
  (rs cs : list nat) :
  (forall i j, In i rs -> In j cs -> f i j = Fin (q i j)) ->
  finite_matrix (map (fun i => map (f i) cs) rs)
  = Some (map (fun i => map (q i) cs) rs).
Proof.
  induction rs as [| i rs IH]; intros H; simpl; [reflexivity |].
  rewrite (finite_row_map (f i) (q i))
    by (intros; apply H; [left; reflexivity | assumption]).
  rewrite IH by (intros; apply H; [right |]; assumption). reflexivity.
Qed.

Lemma valid_rows_spec (acts : tensor3) (n i : nat) :
  In i (valid_rows acts n)
  <-> (i < shape1 acts)%nat /\ expert_deleted acts n i = false.
Proof.
  unfold valid_rows. rewrite filter_In, in_seq, negb_true_iff. intuition lia.
Qed.

Lemma valid_rows_NoDup (acts : tensor3) (n : nat) : NoDup (valid_rows acts n).
Proof. apply NoDup_filter, seq_NoDup. Qed.

Lemma valid_rows_length (acts : tensor3) (n : nat) :
  (length (valid_rows acts n) <= shape1 acts)%nat.
Proof.
  unfold valid_rows.
  etransitivity; [apply filter_length_le | rewrite length_seq; lia].
Qed.

Lemma reduced_cost_is_matrix (cfg : config) (acts pred_acts : tensor3) (n : nat) :
  is_cost_matrix (length (valid_rows acts n)) (shape1 acts)
    (reduced_cost cfg acts pred_acts n).
Proof.
  unfold is_cost_matrix, reduced_cost. split.
  - apply length_map.
  - apply Forall_forall. intros r Hr. apply in_map_iff in Hr.
    destruct Hr as [i [<- _]]. rewrite length_map, length_seq. reflexivity.
Qed.

(** The solver's answer on the reduced matrix of item [n]. *)
Lemma contract_on_item (solve : list (list Qc) -> list nat * list nat)
  (cfg : config) (acts pred_acts : tensor3) (n : nat) :
  LsaContract solve ->
  let m := reduced_cost cfg acts pred_acts n in
  fst (solve m) = seq 0 (length (valid_rows acts n))
  /\ feasible (length (valid_rows acts n)) (shape1 acts) (snd (solve m))
  /\ forall cs, feasible (length (valid_rows acts n)) (shape1 acts) cs ->
       assignment_cost m (snd (solve m)) <= assignment_cost m cs.
Proof.
  intros Hc m. apply Hc.
  - apply reduced_cost_is_matrix.
  - apply valid_rows_length.
Qed.

Lemma combine_map_l {A B C : Type} (h : A -> C) (l : list A) (l' : list B) :
  combine (map h l) l' = map (fun p => (h (fst p), snd p)) (combine l l').
Proof.
  revert l'. induction l as [| x l IH]; intros [| y l']; simpl;
    try reflexivity.
  rewrite IH. reflexivity.
Qed.

(** Rows [0, 1, ...] of the reduced matrix are the kept rows, in order. *)
Lemma combine_nth_seq (kept cs : list nat) :
  map (fun p => (nth (fst p) kept 0%nat, snd p))
      (combine (seq 0 (length kept)) cs)
  = combine kept cs.
Proof.
  revert cs. induction kept as [| k kept IH]; intros cs; [reflexivity |].
  destruct cs as [| c cs]; [reflexivity |].
  cbn [length seq combine map fst snd nth]. f_equal.
  rewrite <- seq_shift, combine_map_l, map_map. cbn [fst snd nth].
  apply IH.
Qed.

Lemma fold_set3 (n : nat) (l : list (nat * nat)) (alpha : weights)
  (n' i j : nat) :
  fold_left (fun a p => set3 a n (fst p) (snd p) 1) l alpha n' i j
  = if Nat.eqb n' n && in_matching l i j then 1 else alpha n' i j.
Proof.
  revert alpha. induction l as [| p l IH]; intros alpha.
  - simpl. rewrite andb_false_r. reflexivity.
  - cbn [fold_left]. rewrite IH. unfold in_matching. cbn [existsb].
    unfold set3.
    destruct (Nat.eqb n' n); cbn [andb]; [| reflexivity].
    destruct (existsb _ l); [rewrite orb_true_r; reflexivity |].
    rewrite orb_false_r.
    rewrite (Nat.eqb_sym i (fst p)), (Nat.eqb_sym j (snd p)). reflexivity.
Qed.

Lemma fold_left_map {A B S : Type} (h : A -> B) (g : S -> B -> S)
  (l : list A) (s : S) :
  fold_left g (map h l) s = fold_left (fun s x => g s (h x)) l s.
Proof. revert s. induction l as [| x l IH]; intros s; simpl; [reflexivity | apply IH]. Qed.

(** The loop over [zip(row_indexes, col_indexes)]. *)
Lemma write_matching (n K : nat) (kept cs : list nat) (alpha : weights) :
  length cs = length kept -> Forall (fun c => (c < K)%nat) cs ->
  exists alpha',
    for_each (combine (seq 0 (length kept)) cs)
      (fun p a =>
         match nth_error kept (fst p), nth_error (seq 0 K) (snd p) with
         | Some i, Some j => Ok (set3 a n i j 1)
         | _, _ => Raise IndexError
         end) alpha = Ok alpha'
    /\ forall n' i j,
         alpha' n' i j
         = if Nat.eqb n' n && in_matching (combine kept cs) i j
           then 1 else alpha n' i j.
Proof.
  intros Hlen Hcs.
  eexists. split.
  - apply (for_each_pure _ _
             (fun p a => set3 a n (nth (fst p) kept 0%nat) (snd p) 1)).
    intros [r c] s Hin. cbn [fst snd].
    pose proof (in_combine_l _ _ _ _ Hin) as Hr. apply in_seq in Hr.
    pose proof (in_combine_r _ _ _ _ Hin) as Hc.
    rewrite Forall_forall in Hcs. specialize (Hcs c Hc).
    rewrite (nth_error_nth' kept 0%nat) by lia.
    rewrite (nth_error_nth' (seq 0 K) 0%nat) by (rewrite length_seq; lia).
    rewrite seq_nth by lia. reflexivity.
  - intros n' i j.
    rewrite <- (combine_nth_seq kept cs) at 1.
    rewrite <- fold_set3, fold_left_map. reflexivity.
Qed.

Lemma pos_cell_finite (cfg : config) (acts pred_acts : tensor3) (n i j : nat) :
  (0 < traj_size_pos_ctrl_pts cfg)%nat ->
  pos_cell cfg acts pred_acts n i j = Fin (pos_cost cfg acts pred_acts n i j).
Proof.
  intros HP. unfold pos_cell, pos_cost, fdiv. cbn zeta.
  destruct (Nat.eqb_spec (traj_size_pos_ctrl_pts cfg) 0); [lia | reflexivity].
Qed.

Section AssignmentStage.

Variable solve : list (list Qc) -> list nat * list nat.
Hypothesis solve_contract : LsaContract solve.

Variable cfg : config.
Variables acts pred_acts : tensor3.
Variable d : distances.

Hypothesis pos_ctrl_pts : (0 < traj_size_pos_ctrl_pts cfg)%nat.
Hypothesis has_last : (1 <= shape2 acts)%nat.
Hypothesis cells :
  forall i j, (i < shape1 acts)%nat -> (j < shape1 acts)%nat ->
    cell_ok cfg acts pred_acts (i, j) d.

Lemma assign_item_ok (n : nat) (alpha : weights) :
  (n < shape0 acts)%nat ->
  exists alpha',
    assign_item solve acts (distance_pos_matrix d) n alpha = Ok alpha'
    /\ forall n' i j,
         alpha' n' i j
         = if Nat.eqb n' n
              && in_matching (matching solve cfg acts pred_acts n) i j
           then 1 else alpha n' i j.
Proof.
  intros Hn. unfold assign_item.
  replace (Nat.leb 1 (shape2 acts)) with true
    by (symmetry; apply Nat.leb_le; exact has_last).
  cbn [guard bind].
  rewrite np_delete_filter, np_delete_rows.
  unfold call_linear_sum_assignment.
  rewrite (finite_matrix_map _ (pos_cost cfg acts pred_acts n)).
  2:{ intros i j Hi Hj. apply filter_In in Hi. destruct Hi as [Hi _].
      apply in_seq in Hi. apply in_seq in Hj.
      destruct (cells i j ltac:(lia) ltac:(lia) n Hn) as [_ [Hp _]].
      cbn [fst snd] in Hp. rewrite Hp. apply pos_cell_finite, pos_ctrl_pts. }
  cbn [bind].
  destruct (contract_on_item solve cfg acts pred_acts n solve_contract)
    as [Hrows [[Hlen [_ Hlt]] _]].
  change (filter (fun i => negb (expert_deleted acts n i))
            (seq 0 (shape1 acts))) with (valid_rows acts n).
  change (map (fun i => map (pos_cost cfg acts pred_acts n i)
                          (seq 0 (shape1 acts))) (valid_rows acts n))
    with (reduced_cost cfg acts pred_acts n).
  rewrite Hrows.
  destruct (write_matching n (shape1 acts) (valid_rows acts n)
              (snd (solve (reduced_cost cfg acts pred_acts n))) alpha Hlen Hlt)
    as [alpha' [E Hchar]].
  exists alpha'. split; [exact E | exact Hchar].
Qed.

Lemma assign_items_ok (l : list nat) :
  (forall n, In n l -> (n < shape0 acts)%nat) ->
  forall alpha, exists alpha',
    for_each l (assign_item solve acts (distance_pos_matrix d)) alpha = Ok alpha'
    /\ forall n i j,
         alpha' n i j
         = if existsb (Nat.eqb n) l
              && in_matching (matching solve cfg acts pred_acts n) i j
           then 1 else alpha n i j.
Proof.
  induction l as [| n0 l IH]; intros Hl alpha.
  - exists alpha. split; [reflexivity | intros; reflexivity].
  - destruct (assign_item_ok n0 alpha (Hl n0 (or_introl eq_refl)))
      as [a1 [E1 H1]].
    destruct (IH (fun n Hn => Hl n (or_intror Hn)) a1) as [a2 [E2 H2]].
    exists a2. split.
    + cbn [for_each]. rewrite E1. exact E2.
    + intros n i j. rewrite H2, H1. cbn [existsb].
      destruct (Nat.eqb_spec n n0) as [-> | Hne]; cbn [orb andb].
      * destruct (existsb (Nat.eqb n0) l); cbn [andb];
          destruct (in_matching _ i j); reflexivity.
      * reflexivity.
Qed.

(** With more than one trajectory per set the assignment stage succeeds and
    [alpha_matrix] is the indicator of each item's matching. *)
Lemma solve_assignment_ok :
  (2 <= shape1 acts)%nat ->
  exists alpha,
    solve_assignment solve acts d
    = Ok (Assignment alpha
            (Some (fun n j => th_round (sum_n (shape1 acts)
                                          (fun i => alpha n i j))))
            (Some (fun n j =>
                     if Qc_eq_bool (th_round (sum_n (shape1 acts)
                                                (fun i => alpha n i j))) 0
                     then 1 else 0)))
    /\ forall n i j, (n < shape0 acts)%nat ->
         alpha n i j
         = indicator (in_matching (matching solve cfg acts pred_acts n) i j).
Proof.
  intros HK. unfold solve_assignment.
  replace (Nat.ltb 1 (shape1 acts)) with true
    by (symmetry; apply Nat.ltb_lt; lia).
  destruct (assign_items_ok (seq 0 (shape0 acts))) with (alpha := fun (_ _ _ : nat) => (0 : Qc))
    as [alpha [E H]].
  { intros n Hn. apply in_seq in Hn. lia. }
  exists alpha. rewrite E. cbn [bind]. split; [reflexivity |].
  intros n i j Hn. rewrite H.
  replace (existsb (Nat.eqb n) (seq 0 (shape0 acts))) with true.
  - cbn [andb]. unfold indicator. reflexivity.
  - symmetry. apply existsb_exists. exists n. split.
    + apply in_seq. lia.
    + apply Nat.eqb_refl.
Qed.

End AssignmentStage.

(** ** Matchings: lists of pairs with distinct rows and distinct columns *)

Lemma in_matching_In (m : list (nat * nat)) (i j : nat) :
  in_matching m i j = true <-> In (i, j) m.
Proof.
  unfold in_matching. rewrite existsb_exists. split.
  - intros [[a b] [Hin Hab]]. cbn [fst snd] in Hab.
    apply andb_true_iff in Hab. destruct Hab as [Ha Hb].
    apply Nat.eqb_eq in Ha. apply Nat.eqb_eq in Hb. subst. exact Hin.
  - intros Hin. exists (i, j). cbn [fst snd].
    rewrite !Nat.eqb_refl. split; [exact Hin | reflexivity].
Qed.

Lemma in_matching_false (m : list (nat * nat)) (i j : nat) :
  in_matching m i j = false <-> ~ In (i, j) m.
Proof.
  rewrite <- in_matching_In. destruct (in_matching m i j); split; congruence.
Qed.

Lemma combine_In_l {A B : Type} (l : list A) (l' : list B) (x : A) :
  length l = length l' -> In x l -> exists y, In (x, y) (combine l l').
Proof.
  revert l'. induction l as [| a l IH]; intros [| b l'] Hlen Hin;
    try discriminate; [destruct Hin |].
  destruct Hin as [-> | Hin].
  - exists b. left. reflexivity.
  - destruct (IH l' ltac:(simpl in Hlen; lia) Hin) as [y Hy].
    exists y. right. exact Hy.
Qed.

Lemma combine_functional {A B : Type} (l : list A) (l' : list B)
  (x : A) (y y' : B) :
  NoDup l -> In (x, y) (combine l l') -> In (x, y') (combine l l') -> y = y'.
Proof.
  revert l'. induction l as [| a l IH]; intros [| b l'] Hnd H1 H2;
    try (destruct H1; fail).
  inversion Hnd as [| ? ? Hnotin Hnd']; subst.
  destruct H1 as [E1 | H1], H2 as [E2 | H2].
  - congruence.
  - inversion E1; subst. apply in_combine_l in H2. contradiction.
  - inversion E2; subst. apply in_combine_l in H1. contradiction.
  - eapply IH; eassumption.
Qed.

Lemma combine_injective {A B : Type} (l : list A) (l' : list B)
  (x x' : A) (y : B) :
  NoDup l' -> In (x, y) (combine l l') -> In (x', y) (combine l l') -> x = x'.
Proof.
  revert l'. induction l as [| a l IH]; intros [| b l'] Hnd H1 H2;
    try (destruct H1; fail).
  inversion Hnd as [| ? ? Hnotin Hnd']; subst.
  destruct H1 as [E1 | H1], H2 as [E2 | H2].
  - congruence.
  - inversion E1; subst. apply in_combine_r in H2. contradiction.
  - inversion E2; subst. apply in_combine_r in H1. contradiction.
  - eapply IH; eassumption.
Qed.

Lemma is_matching_tail (K : nat) (p : nat * nat) (m : list (nat * nat)) :
  is_matching K (p :: m) -> is_matching K m.
Proof.
  intros [H1 [H2 H3]]. cbn [map] in H1, H2.
  inversion H1; inversion H2; subst.
  repeat split; try assumption; apply H3; right; assumption.
Qed.

Lemma combine_is_matching (K : nat) (kept cs : list nat) :
  NoDup kept -> (forall i, In i kept -> (i < K)%nat) ->
  feasible (length kept) K cs ->
  is_matching K (combine kept cs).
Proof.
  intros Hnd Hk [Hlen [Hcs Hlt]].
  unfold is_matching.
  assert (Hf : map fst (combine kept cs) = kept).
  { clear - Hlen. revert cs Hlen.
    induction kept as [| a l IH]; intros [| b l'] Hlen; try discriminate;
      [reflexivity |].
    cbn. f_equal. apply IH. simpl in Hlen. lia. }
  assert (Hs : map snd (combine kept cs) = cs).
  { clear - Hlen. revert cs Hlen.
    induction kept as [| a l IH]; intros [| b l'] Hlen; try discriminate;
      [reflexivity |].
    cbn. f_equal. apply IH. simpl in Hlen. lia. }
  rewrite Hf, Hs. split; [exact Hnd | split; [exact Hcs |]].
  intros [a b] Hin. cbn [fst snd]. split.
  - apply Hk. eapply in_combine_l. eassumption.
  - rewrite Forall_forall in Hlt. apply Hlt.
    eapply in_combine_r. eassumption.
Qed.

Lemma in_matching_cons (p : nat * nat) (m : list (nat * nat)) (i j : nat) :
  in_matching (p :: m) i j
  = (Nat.eqb (fst p) i && Nat.eqb (snd p) j) || in_matching m i j.
Proof. reflexivity. Qed.

Lemma in_matching_row_fresh (m : list (nat * nat)) (i j : nat) :
  ~ In i (map fst m) -> in_matching m i j = false.
Proof.
  intros H. apply in_matching_false. intros Hin. apply H.
  apply in_map_iff. exists (i, j). split; [reflexivity | exact Hin].
Qed.

Lemma in_matching_col_fresh (m : list (nat * nat)) (i j : nat) :
  ~ In j (map snd m) -> in_matching m i j = false.
Proof.
  intros H. apply in_matching_false. intros Hin. apply H.
  apply in_map_iff. exists (i, j). split; [reflexivity | exact Hin].
Qed.

Lemma sum_n_pick_sym (n j : nat) (f : nat -> Qc) :
  (j < n)%nat ->
  sum_n n (fun k => if Nat.eqb j k then f k else 0) = f j.
Proof.
  intros Hj.
  rewrite (sum_n_ext n _ (fun k => if Nat.eqb k j then f k else 0))
    by (intros; rewrite Nat.eqb_sym; reflexivity).
  rewrite sum_n_pick.
  replace (Nat.ltb j n) with true by (symmetry; apply Nat.ltb_lt; exact Hj).
  reflexivity.
Qed.

(** Summing a matrix against the indicator of a matching sums it over the
    matched pairs. *)
Lemma sum_over_matching (K : nat) (m : list (nat * nat))
  (f : nat -> nat -> Qc) :
  is_matching K m ->
  sum_n K (fun i => sum_n K (fun j => indicator (in_matching m i j) * f i j))
  = sum_list (map (fun p => f (fst p) (snd p)) m).
Proof.
  induction m as [| p m IH]; intros Hm.
  - cbn [map sum_list fold_right]. apply sum_n_zero. intros i _.
    apply sum_n_zero. intros j _. unfold indicator. cbn. ring.
  - pose proof (is_matching_tail _ _ _ Hm) as Hm'.
    destruct Hm as [Hr [_ Hlt]]. cbn [map] in Hr.
    inversion Hr as [| ? ? Hfresh _]; subst.
    destruct (Hlt p (or_introl eq_refl)) as [Hpi Hpj].
    cbn [map sum_list fold_right]. fold (sum_list (map (fun p => f (fst p) (snd p)) m)).
    rewrite <- (IH Hm').
    rewrite <- (sum_n_pick_sym K (fst p)
                  (fun i => f i (snd p))) at 1 by exact Hpi.
    rewrite <- sum_n_plus. apply sum_n_ext. intros i Hi.
    destruct (Nat.eqb_spec (fst p) i) as [<- | Hne].
    + rewrite <- (sum_n_pick_sym K (snd p) (fun j => f (fst p) j)) at 1
        by exact Hpj.
      rewrite <- sum_n_plus. apply sum_n_ext. intros j Hj.
      rewrite in_matching_cons, Nat.eqb_refl.
      rewrite (in_matching_row_fresh m (fst p) j Hfresh).
      cbn [andb]. rewrite orb_false_r.
      unfold indicator. destruct (Nat.eqb (snd p) j); ring.
    + rewrite Qcplus_0_l. apply sum_n_ext. intros j Hj.
      rewrite in_matching_cons.
      replace (Nat.eqb (fst p) i) with false
        by (symmetry; apply Nat.eqb_neq; exact Hne).
      reflexivity.
Qed.

(** A column of the indicator of a matching sums to 1 when the column is
    matched and to 0 otherwise. *)
Lemma col_sum_matching (K : nat) (m : list (nat * nat)) (j : nat) :
  is_matching K m ->
  sum_n K (fun i => indicator (in_matching m i j)) = indicator (col_hit m j).
Proof.
  induction m as [| p m IH]; intros Hm.
  - cbn. apply sum_n_zero. reflexivity.
  - pose proof (is_matching_tail _ _ _ Hm) as Hm'.
    destruct Hm as [_ [Hc Hlt]]. cbn [map] in Hc.
    inversion Hc as [| ? ? Hfresh _]; subst.
    destruct (Hlt p (or_introl eq_refl)) as [Hpi _].
    unfold col_hit. cbn [existsb]. fold (col_hit m j).
    destruct (Nat.eqb_spec (snd p) j) as [<- | Hne].
    + cbn [orb indicator].
      rewrite <- (sum_n_pick_sym K (fst p) (fun _ => 1)) by exact Hpi.
      apply sum_n_ext. intros i Hi.
      rewrite in_matching_cons, Nat.eqb_refl, andb_true_r.
      rewrite (in_matching_col_fresh m i (snd p) Hfresh), orb_false_r.
      reflexivity.
    + cbn [orb]. rewrite <- (IH Hm'). apply sum_n_ext. intros i Hi.
      rewrite in_matching_cons.
      replace (Nat.eqb (snd p) j) with false
        by (symmetry; apply Nat.eqb_neq; exact Hne).
      rewrite andb_false_r. reflexivity.
Qed.

Lemma col_hit_In (m : list (nat * nat)) (j : nat) :
  col_hit m j = true <-> exists i, In (i, j) m.
Proof.
  unfold col_hit. rewrite existsb_exists. split.
  - intros [[a b] [Hin Hb]]. cbn [snd] in Hb. apply Nat.eqb_eq in Hb.
    subst. exists a. exact Hin.
  - intros [i Hin]. exists (i, j). split; [exact Hin | apply Nat.eqb_refl].
Qed.

(** ** The aggregation stage *)

Lemma sum_list_app (l l' : list Qc) :
  sum_list (l ++ l') = sum_list l + sum_list l'.
Proof.
  induction l as [| x l IH]; cbn [app sum_list fold_right].
  - fold (sum_list l'). ring.
  - fold (sum_list (l ++ l')). fold (sum_list l). rewrite IH. ring.
Qed.

Lemma sum_list_filter (K : nat) (p : nat -> bool) (f : nat -> Qc) :
  sum_list (map f (filter p (seq 0 K)))
  = sum_n K (fun j => if p j then f j else 0).
Proof.
  induction K as [| K IH]; [reflexivity |].
  rewrite seq_S, filter_app, map_app, sum_list_app, IH.
  cbn [plus filter sum_n]. f_equal.
  destruct (p K); cbn; ring.
Qed.

Lemma fsum3_finite (N K : nat) (a : weights) (m : matrix3)
  (q : nat -> nat -> nat -> Qc) :
  (forall n i j, (n < N)%nat -> (i < K)%nat -> (j < K)%nat ->
     m n i j = Fin (q n i j)) ->
  fsum3 N K K (fun n i j => fmul (Fin (a n i j)) (m n i j))
  = Fin (sum_n N (fun n => sum_n K (fun i => sum_n K (fun j =>
           a n i j * q n i j)))).
Proof.
  intros H. unfold fsum3.
  apply fsum_n_fin_ext. intros n Hn.
  apply fsum_n_fin_ext. intros i Hi.
  apply fsum_n_fin_ext. intros j Hj.
  rewrite H by assumption. reflexivity.
Qed.

Lemma fsum3_not_finite (N K : nat) (a : weights) (m : matrix3) :
  (0 < N)%nat -> (0 < K)%nat ->
  (forall n i j, (n < N)%nat -> (i < K)%nat -> (j < K)%nat ->
     m n i j = NotFinite) ->
  fsum3 N K K (fun n i j => fmul (Fin (a n i j)) (m n i j)) = NotFinite.
Proof.
  intros HN HK H. unfold fsum3.
  apply fsum_n_not_finite. exists 0%nat. split; [exact HN |].
  apply fsum_n_not_finite. exists 0%nat. split; [exact HK |].
  apply fsum_n_not_finite. exists 0%nat. split; [exact HK |].
  rewrite H by assumption. reflexivity.
Qed.

Lemma indicator_eq_1 (b : bool) : Qc_eq_bool (indicator b) 1 = b.
Proof.
  destruct b; cbn [indicator].
  - apply Qc_eq_bool_refl.
  - apply Qc_eq_bool_neq. intros H. symmetry in H. exact (Qc_1_neq_0 H).
Qed.

Lemma indicator_eq_0 (b : bool) : Qc_eq_bool (indicator b) 0 = negb b.
Proof.
  destruct b; cbn [indicator negb].
  - apply Qc_eq_bool_neq. exact Qc_1_neq_0.
  - apply Qc_eq_bool_refl.
Qed.

Lemma th_round_indicator (b : bool) : th_round (indicator b) = indicator b.
Proof. destruct b; [apply th_round_1 | apply th_round_0]. Qed.

Section Columns.

Variable K : nat.
Variable m : list (nat * nat).
Hypothesis Hm : is_matching K m.
Variable alpha : weights.
Variable n : nat.
Hypothesis Halpha :
  forall i j, alpha n i j = indicator (in_matching m i j).

(** [col_assigned] counts the rows of the column: 0 or 1. *)
Lemma col_assigned_char (j : nat) :
  th_round (sum_n K (fun i => alpha n i j)) = indicator (col_hit m j).
Proof.
  rewrite (sum_n_ext K _ (fun i => indicator (in_matching m i j)))
    by (intros; apply Halpha).
  rewrite (col_sum_matching K m j Hm). apply th_round_indicator.
Qed.

Lemma slot_assigned_char (j : nat) : slot_assigned alpha K n j = col_hit m j.
Proof.
  unfold slot_assigned.
  destruct (col_hit m j) eqn:E.
  - apply col_hit_In in E. destruct E as [i Hin].
    apply existsb_exists. exists i. split.
    + apply in_seq. destruct Hm as [_ [_ Hlt]].
      specialize (Hlt (i, j) Hin). cbn [fst] in Hlt. lia.
    + rewrite Halpha, indicator_eq_1. apply in_matching_In. exact Hin.
  - destruct (existsb _ (seq 0 K)) eqn:E'; [| reflexivity].
    apply existsb_exists in E'. destruct E' as [i [_ Hi]].
    rewrite Halpha, indicator_eq_1 in Hi. apply in_matching_In in Hi.
    assert (col_hit m j = true) by (apply col_hit_In; eauto). congruence.
Qed.

End Columns.

Lemma matching_is_matching (solve : list (list Qc) -> list nat * list nat)
  (cfg : config) (acts pred_acts : tensor3) (n : nat) :
  LsaContract solve ->
  is_matching (shape1 acts) (matching solve cfg acts pred_acts n).
Proof.
  intros Hc. unfold matching. apply combine_is_matching.
  - apply valid_rows_NoDup.
  - intros i Hi. apply valid_rows_spec in Hi. tauto.
  - apply (contract_on_item solve cfg acts pred_acts n Hc).
Qed.

Lemma fdiv_finite (x : Qc) (d : nat) :
  d <> 0%nat -> fdiv (Fin x) d = Fin (x / nat2Qc d).
Proof.
  intros Hd. unfold fdiv. destruct (Nat.eqb_spec d 0); [contradiction | reflexivity].
Qed.

Lemma full_cell_finite (acts pred_acts : tensor3) (n i j : nat) :
  (1 <= shape2 acts)%nat ->
  full_cell acts pred_acts n i j = Fin (full_cost acts pred_acts n i j).
Proof. intros H. unfold full_cell, full_cost. apply fdiv_finite. lia. Qed.

Lemma yaw_cell_finite (cfg : config) (acts pred_acts : tensor3) (n i j : nat) :
  (0 < traj_size_yaw_ctrl_pts cfg)%nat ->
  yaw_cell cfg acts pred_acts n i j = Fin (yaw_cost cfg acts pred_acts n i j).
Proof. intros H. unfold yaw_cell, yaw_cost. cbn zeta. apply fdiv_finite. lia. Qed.

Lemma yaw_cell_not_finite (cfg : config) (acts pred_acts : tensor3) (n i j : nat) :
  traj_size_yaw_ctrl_pts cfg = 0%nat ->
  yaw_cell cfg acts pred_acts n i j = NotFinite.
Proof. intros H. unfold yaw_cell. cbn zeta. rewrite H. reflexivity. Qed.

Section Aggregation.

Variable cfg : config.
Variables acts pred_acts : tensor3.
Variable d : distances.
Variable alpha : weights.
Variable mt : nat -> list (nat * nat).

Hypothesis shapes : same_shape acts pred_acts.
Hypothesis batch : (1 <= shape0 acts)%nat.
Hypothesis trajs : (1 <= shape1 acts)%nat.
Hypothesis elems : (2 <= shape2 acts)%nat.
Hypothesis cells :
  forall i j, (i < shape1 acts)%nat -> (j < shape1 acts)%nat ->
    cell_ok cfg acts pred_acts (i, j) d.
Hypothesis mt_matching :
  forall n, (n < shape0 acts)%nat -> is_matching (shape1 acts) (mt n).
Hypothesis alpha_char :
  forall n i j, (n < shape0 acts)%nat ->
    alpha n i j = indicator (in_matching (mt n) i j).

Let ca : nat -> nat -> Qc :=
  fun n j => th_round (sum_n (shape1 acts) (fun i => alpha n i j)).
Let cna : nat -> nat -> Qc :=
  fun n j => if Qc_eq_bool (ca n j) 0 then 1 else 0.

Lemma prob_loss_spec :
  1 / nat2Qc (shape0 acts * shape1 acts)
  * sum2 (shape0 acts) (shape1 acts)
      (fun n j => ca n j * sq (score pred_acts n j - 1))
  + sum2 (shape0 acts) (shape1 acts)
      (fun n j => cna n j * sq (score pred_acts n j - - (1)))
  = spec_prob_loss (shape0 acts) (shape1 acts) alpha pred_acts.
Proof.
  unfold spec_prob_loss, sum2. f_equal; [f_equal |].
  - apply sum_n_ext. intros n Hn. rewrite sum_list_filter.
    apply sum_n_ext. intros j Hj. unfold ca.
    rewrite (col_assigned_char _ (mt n) (mt_matching n Hn) alpha n
               (fun i j => alpha_char n i j Hn)).
    rewrite (slot_assigned_char _ (mt n) (mt_matching n Hn) alpha n
               (fun i j => alpha_char n i j Hn)).
    destruct (col_hit (mt n) j); cbn [indicator]; ring.
  - apply sum_n_ext. intros n Hn. rewrite sum_list_filter.
    apply sum_n_ext. intros j Hj. unfold cna, ca.
    rewrite (col_assigned_char _ (mt n) (mt_matching n Hn) alpha n
               (fun i j => alpha_char n i j Hn)).
    rewrite (slot_assigned_char _ (mt n) (mt_matching n Hn) alpha n
               (fun i j => alpha_char n i j Hn)).
    rewrite indicator_eq_0.
    destruct (col_hit (mt n) j); cbn [negb]; unfold sq; ring.
Qed.

Lemma aggregate_ok :
  exists r,
    aggregate cfg acts pred_acts d (Assignment alpha (Some ca) (Some cna))
    = Ok r
    /\ loss r = Fin (spec_loss cfg acts pred_acts alpha)
    /\ prob_loss r
       = Fin (spec_prob_loss (shape0 acts) (shape1 acts) alpha pred_acts)
    /\ time_loss r
       = Fin (spec_matched_cost (shape0 acts) (shape1 acts) alpha
                (time_cost acts pred_acts))
    /\ ((0 < traj_size_pos_ctrl_pts cfg)%nat ->
        pos_loss r
        = Fin (spec_matched_cost (shape0 acts) (shape1 acts) alpha
                 (pos_cost cfg acts pred_acts)))
    /\ ((0 < traj_size_yaw_ctrl_pts cfg)%nat ->
        yaw_loss r
        = Fin (spec_matched_cost (shape0 acts) (shape1 acts) alpha
                 (yaw_cost cfg acts pred_acts)))
    /\ (traj_size_yaw_ctrl_pts cfg = 0%nat -> yaw_loss r = NotFinite).
Proof.
  destruct shapes as [H0 [H1 H2]].
  unfold aggregate.
  replace (Nat.leb 1 (shape2 pred_acts)) with true
    by (symmetry; apply Nat.leb_le; lia).
  cbn [guard bind rows cols at2].
  rewrite <- H0, <- H1, !Nat.eqb_refl. cbn [py_assert bind].
  destruct (Nat.eqb_spec (shape0 acts * shape1 acts) 0) as [E | _]; [nia |].
  cbn [bind read_local alpha_matrix col_assigned col_not_assigned].
  eexists. split; [reflexivity |].
  cbn [loss prob_loss time_loss pos_loss yaw_loss].
  assert (Hprob := prob_loss_spec). unfold score in Hprob at 1 2.
  split; [| split; [| split; [| split; [| split]]]].
  - rewrite (fsum3_finite _ _ _ _ (full_cost acts pred_acts)).
    + cbn [fmul fadd]. f_equal. unfold spec_loss, spec_matched_cost.
      rewrite <- Hprob. reflexivity.
    + intros n i j Hn Hi Hj. destruct (cells i j Hi Hj n Hn) as [E _].
      cbn [fst snd] in E. rewrite E. apply full_cell_finite. lia.
  - f_equal. exact Hprob.
  - rewrite (fsum3_finite _ _ _ _ (time_cost acts pred_acts)).
    + reflexivity.
    + intros n i j Hn Hi Hj. destruct (cells i j Hi Hj n Hn) as [_ [_ [_ E]]].
      cbn [fst snd] in E. rewrite E. reflexivity.
  - intros HP. rewrite (fsum3_finite _ _ _ _ (pos_cost cfg acts pred_acts)).
    + reflexivity.
    + intros n i j Hn Hi Hj. destruct (cells i j Hi Hj n Hn) as [_ [E _]].
      cbn [fst snd] in E. rewrite E. apply pos_cell_finite. exact HP.
  - intros HY. rewrite (fsum3_finite _ _ _ _ (yaw_cost cfg acts pred_acts)).
    + reflexivity.
    + intros n i j Hn Hi Hj. destruct (cells i j Hi Hj n Hn) as [_ [_ [E _]]].
      cbn [fst snd] in E. rewrite E. apply yaw_cell_finite. exact HY.
  - intros HY. rewrite fsum3_not_finite; [reflexivity | lia | lia |].
    intros n i j Hn Hi Hj. destruct (cells i j Hi Hj n Hn) as [_ [_ [E _]]].
    cbn [fst snd] in E. rewrite E. apply yaw_cell_not_finite. exact HY.
Qed.

End Aggregation.

(** ** The whole computation *)

Section Run.

Variable solve : list (list Qc) -> list nat * list nat.
Variable cfg : config.
Variables acts pred_acts : tensor3.

(** A result is returned only for a non-empty batch of sets of at least two
    trajectories with at least two components. *)
Lemma calculate_loss_returns_inv (r : stats_dict) :
  _calculate_loss solve cfg acts pred_acts = Ok r ->
  (1 <= shape0 acts)%nat /\ (2 <= shape1 acts)%nat /\ (2 <= shape2 acts)%nat.
Proof.
  unfold _calculate_loss. intros H.
  apply bind_ok in H. destruct H as [d [Hd H]].
  apply bind_ok in H. destruct H as [a [Ha H]].
  unfold aggregate in H.
  apply bind_ok in H. destruct H as [_ [_ H]].
  apply bind_ok in H. destruct H as [_ [_ H]].
  apply bind_ok in H. destruct H as [_ [_ H]].
  apply bind_ok in H. destruct H as [nc [Hnc H]].
  apply bind_ok in H. destruct H as [ca [Hca _]].
  destruct (Nat.eqb_spec (shape0 acts * shape1 acts) 0) as [| Hnz];
    [discriminate |].
  assert (HK : (2 <= shape1 acts)%nat).
  { unfold solve_assignment in Ha.
    destruct (Nat.ltb_spec 1 (shape1 acts)) as [Hlt | Hge]; [lia |].
    inversion Ha; subst a. discriminate. }
  repeat split; [nia | exact HK |].
  eapply cost_matrices_needs_time; [exact Hd | lia].
Qed.

Hypothesis solve_contract : LsaContract solve.
Hypothesis shapes : same_shape acts pred_acts.
Hypothesis pos_ctrl_pts : (0 < traj_size_pos_ctrl_pts cfg)%nat.
Hypothesis batch : (1 <= shape0 acts)%nat.
Hypothesis trajs : (2 <= shape1 acts)%nat.
Hypothesis elems : (2 <= shape2 acts)%nat.

(** On such a batch every stage succeeds; the cost matrices hold their
    closed forms, [alpha_matrix] is the indicator of the matchings, and the
    returned values are the sums of the specification. *)
Lemma calculate_loss_run :
  exists d a r,
    cost_matrices cfg acts pred_acts = Ok d
    /\ solve_assignment solve acts d = Ok a
    /\ _calculate_loss solve cfg acts pred_acts = Ok r
    /\ run_facts solve cfg acts pred_acts d a r.
Proof.
  destruct (cost_matrices_ok cfg acts pred_acts shapes elems) as [d [Hd Hcells]].
  destruct (solve_assignment_ok solve solve_contract cfg acts pred_acts d
              pos_ctrl_pts ltac:(lia) Hcells trajs) as [alpha [Ha Halpha]].
  destruct (aggregate_ok cfg acts pred_acts d alpha
              (matching solve cfg acts pred_acts)
              shapes batch ltac:(lia) elems Hcells
              (fun n _ => matching_is_matching solve cfg acts pred_acts n
                            solve_contract)
              Halpha)
    as [r [Hr [Hl [Hp [Ht [Hpos [Hy1 Hy0]]]]]]].
  exists d, (Assignment alpha
               (Some (fun n j => th_round (sum_n (shape1 acts)
                                             (fun i => alpha n i j))))
               (Some (fun n j =>
                        if Qc_eq_bool (th_round (sum_n (shape1 acts)
                                                   (fun i => alpha n i j))) 0
                        then 1 else 0))), r.
  split; [exact Hd |]. split; [exact Ha |]. split.
  { unfold _calculate_loss. rewrite Hd. cbn [bind]. rewrite Ha. cbn [bind].
    exact Hr. }
  constructor; cbn [alpha_matrix col_assigned col_not_assigned];
    try assumption; try reflexivity.
  exact (Hpos pos_ctrl_pts).
Qed.

End Run.

(** ** The exhaustive solver meets the contract *)

Lemma injections_sound (nr : nat) :
  forall avail cs, In cs (injections nr avail) ->
    length cs = nr /\ NoDup cs /\ forall c, In c cs -> In c avail.
Proof.
  induction nr as [| nr IH]; intros avail cs Hin.
  - destruct Hin as [<- | []]. repeat split; [apply NoDup_nil | intros ? []].
  - cbn [injections] in Hin. apply in_flat_map in Hin.
    destruct Hin as [c [Hc Hin]]. apply in_map_iff in Hin.
    destruct Hin as [cs' [<- Hcs']].
    destruct (IH _ _ Hcs') as [Hlen [Hnd Hsub]].
    repeat split.
    + simpl. lia.
    + apply NoDup_cons; [| exact Hnd].
      intros Hcin. apply Hsub in Hcin. apply in_remove in Hcin.
      destruct Hcin as [_ Hne]. congruence.
    + intros x [<- | Hx]; [exact Hc |].
      apply Hsub in Hx. apply in_remove in Hx. tauto.
Qed.

Lemma injections_complete (nr : nat) :
  forall avail cs,
    length cs = nr -> NoDup cs -> (forall c, In c cs -> In c avail) ->
    In cs (injections nr avail).
Proof.
  induction nr as [| nr IH]; intros avail cs Hlen Hnd Hsub.
  - destruct cs; [left; reflexivity | discriminate].
  - destruct cs as [| c cs]; [discriminate |].
    inversion Hnd as [| ? ? Hfresh Hnd']; subst.
    cbn [injections]. apply in_flat_map. exists c. split.
    + apply Hsub. left. reflexivity.
    + apply in_map. apply IH.
      * simpl in Hlen. lia.
      * exact Hnd'.
      * intros x Hx. apply in_in_remove.
        -- intros ->. contradiction.
        -- apply Hsub. right. exact Hx.
Qed.

Lemma argmin_in (cost : list nat -> Qc) (l : list (list nat)) :
  forall best, In (argmin cost best l) (best :: l).
Proof.
  induction l as [| x l IH]; intros best; [left; reflexivity |].
  cbn [argmin].
  destruct (IH (if Qclt_le_dec (cost x) (cost best) then x else best))
    as [E | Hin].
  - destruct (Qclt_le_dec (cost x) (cost best)).
    + right. left. exact E.
    + left. exact E.
  - right. right. exact Hin.
Qed.

Lemma argmin_le (cost : list nat -> Qc) (l : list (list nat)) :
  forall best x, In x (best :: l) -> cost (argmin cost best l) <= cost x.
Proof.
  induction l as [| y l IH]; intros best x Hin.
  - destruct Hin as [<- | []]. apply Qcle_refl.
  - cbn [argmin].
    set (b := if Qclt_le_dec (cost y) (cost best) then y else best).
    assert (Hb : cost b <= cost best /\ cost b <= cost y).
    { unfold b. destruct (Qclt_le_dec (cost y) (cost best)) as [Hlt | Hle].
      - split; [apply Qclt_le_weak, Hlt | apply Qcle_refl].
      - split; [apply Qcle_refl | exact Hle]. }
    destruct Hin as [<- | [<- | Hin]].
    + eapply Qcle_trans; [apply IH; left; reflexivity | apply Hb].
    + eapply Qcle_trans; [apply IH; left; reflexivity | apply Hb].
    + apply IH. right. exact Hin.
Qed.

Lemma feasible_in_injections (nr nc : nat) (cs : list nat) :
  feasible nr nc cs <-> In cs (injections nr (seq 0 nc)).
Proof.
  split.
  - intros [Hlen [Hnd Hlt]]. apply injections_complete; try assumption.
    intros c Hc. rewrite Forall_forall in Hlt. apply in_seq.
    specialize (Hlt c Hc). lia.
  - intros Hin. destruct (injections_sound _ _ _ Hin) as [Hlen [Hnd Hsub]].
    repeat split; try assumption.
    apply Forall_forall. intros c Hc. apply Hsub in Hc. apply in_seq in Hc. lia.
Qed.

Lemma seq_feasible (nr nc : nat) : (nr <= nc)%nat -> feasible nr nc (seq 0 nr).
Proof.
  intros H. repeat split.
  - apply length_seq.
  - apply seq_NoDup.
  - apply Forall_forall. intros c Hc. apply in_seq in Hc. lia.
Qed.

Theorem lsa_exhaustive_contract : LsaContract lsa_exhaustive.
Proof.
  intros nr nc m [Hlen Hrows] Hle.
  assert (Hnc : injections nr (seq 0 (length (hd [] m)))
                = injections nr (seq 0 nc)).
  { destruct m as [| r m].
    - simpl in Hlen. subst nr. reflexivity.
    - inversion Hrows; subst. reflexivity. }
  unfold lsa_exhaustive. rewrite Hlen, Hnc.
  pose proof (proj1 (feasible_in_injections nr nc _) (seq_feasible nr nc Hle))
    as Hne.
  destruct (injections nr (seq 0 nc)) as [| c0 cands] eqn:E; [destruct Hne |].
  cbn [fst snd]. split; [reflexivity |]. split.
  - apply feasible_in_injections. rewrite E. apply argmin_in.
  - intros cs Hcs. apply argmin_le.
    apply feasible_in_injections in Hcs. rewrite E in Hcs. exact Hcs.
Qed.

(** ** The structure of the assignment matrix *)

Lemma indicator_is_1 (b : bool) : indicator b = 1 -> b = true.
Proof.
  destruct b; [reflexivity |]. cbn [indicator]. intros H.
  symmetry in H. destruct (Qc_1_neq_0 H).
Qed.

Section MatchingFacts.

Variable solve : list (list Qc) -> list nat * list nat.
Hypothesis solve_contract : LsaContract solve.
Variable cfg : config.
Variables acts pred_acts : tensor3.
Variable n : nat.

Let m := matching solve cfg acts pred_acts n.
Let cs := snd (solve (reduced_cost cfg acts pred_acts n)).

Lemma cs_feasible : feasible (length (valid_rows acts n)) (shape1 acts) cs.
Proof. apply (contract_on_item solve cfg acts pred_acts n solve_contract). Qed.

Lemma matching_pair (i j : nat) :
  In (i, j) m ->
  (i < shape1 acts)%nat /\ expert_deleted acts n i = false
  /\ (j < shape1 acts)%nat.
Proof.
  intros Hin. unfold m, matching in Hin.
  pose proof (in_combine_l _ _ _ _ Hin) as Hi.
  pose proof (in_combine_r _ _ _ _ Hin) as Hj.
  apply valid_rows_spec in Hi. destruct Hi as [Hi Hv].
  destruct cs_feasible as [_ [_ Hlt]]. rewrite Forall_forall in Hlt.
  repeat split; try assumption. apply Hlt. exact Hj.
Qed.

Lemma matching_covers (i : nat) :
  (i < shape1 acts)%nat -> expert_deleted acts n i = false ->
  exists j, In (i, j) m.
Proof.
  intros Hi Hv. unfold m, matching. apply combine_In_l.
  - destruct cs_feasible as [Hlen _]. symmetry. exact Hlen.
  - apply valid_rows_spec. split; assumption.
Qed.

Lemma matching_functional (i j j' : nat) :
  In (i, j) m -> In (i, j') m -> j = j'.
Proof. apply combine_functional, valid_rows_NoDup. Qed.

Lemma matching_injective (i i' j : nat) :
  In (i, j) m -> In (i', j) m -> i = i'.
Proof. apply combine_injective. destruct cs_feasible as [_ [H _]]. exact H. Qed.

Variable alpha : weights.
Hypothesis alpha_char :
  forall i j, alpha n i j = indicator (in_matching m i j).

Lemma alpha_is_1 (i j : nat) : alpha n i j = 1 <-> In (i, j) m.
Proof.
  rewrite alpha_char, <- in_matching_In. split.
  - apply indicator_is_1.
  - intros ->. reflexivity.
Qed.

Lemma alpha_0_or_1 (i j : nat) : alpha n i j = 0 \/ alpha n i j = 1.
Proof. rewrite alpha_char. destruct (in_matching m i j); [right | left]; reflexivity. Qed.

Lemma alpha_not_1 (i j : nat) : ~ In (i, j) m -> alpha n i j = 0.
Proof.
  intros H. rewrite alpha_char.
  apply in_matching_false in H. rewrite H. reflexivity.
Qed.

(** A row that is handed to the solver holds exactly one 1. *)
Lemma valid_row_one (i : nat) :
  (i < shape1 acts)%nat -> expert_deleted acts n i = false ->
  exists j, (j < shape1 acts)%nat /\ alpha n i j = 1
            /\ forall j', j' <> j -> alpha n i j' = 0.
Proof.
  intros Hi Hv. destruct (matching_covers i Hi Hv) as [j Hj].
  exists j. split; [apply (matching_pair i j Hj) |].
  split; [apply alpha_is_1; exact Hj |].
  intros j' Hne. apply alpha_not_1. intros Hj'. apply Hne.
  eapply matching_functional; eassumption.
Qed.

(** A deleted row is all zero. *)
Lemma deleted_row_zero (i j : nat) :
  expert_deleted acts n i = true -> alpha n i j = 0.
Proof.
  intros Hd. apply alpha_not_1. intros Hin.
  destruct (matching_pair i j Hin) as [_ [Hv _]]. congruence.
Qed.

(** A column holds at most one 1. *)
Lemma column_at_most_one (i i' j : nat) :
  alpha n i j = 1 -> alpha n i' j = 1 -> i = i'.
Proof.
  intros H1 H2. apply alpha_is_1 in H1. apply alpha_is_1 in H2.
  eapply matching_injective; eassumption.
Qed.

(** With every row deleted nothing is matched. *)
Lemma all_deleted_zero :
  (forall i, (i < shape1 acts)%nat -> expert_deleted acts n i = true) ->
  forall i j, alpha n i j = 0.
Proof.
  intros Hall i j. apply alpha_not_1. intros Hin.
  destruct (matching_pair i j Hin) as [Hi [Hv _]].
  rewrite (Hall i Hi) in Hv. discriminate.
Qed.

End MatchingFacts.

Lemma item_contribution_zero (K : nat) (alpha : weights) (m : matrix3)
  (n : nat) :
  (forall i j, (i < K)%nat -> (j < K)%nat -> alpha n i j = 0) ->
  (forall i j, (i < K)%nat -> (j < K)%nat -> is_finite (m n i j) = true) ->
  item_contribution K alpha m n = Fin 0.
Proof.
  intros Hz Hfin. unfold item_contribution.
  rewrite (fsum_n_fin_ext K _ (fun _ => 0)).
  - f_equal. apply sum_n_zero. reflexivity.
  - intros i Hi. rewrite (fsum_n_fin_ext K _ (fun _ => 0)).
    + f_equal. apply sum_n_zero. reflexivity.
    + intros j Hj. rewrite Hz by assumption.
      specialize (Hfin i j Hi Hj). destruct (m n i j) as [q |];
        [| discriminate].
      cbn [fmul]. f_equal. ring.
Qed.

Lemma expert_deleted_minus_one (acts : tensor3) (n i : nat) :
  data acts n i (shape2 acts - 1) = - (1) -> expert_deleted acts n i = true.
Proof.
  intros H. unfold expert_deleted. rewrite H, th_round_opp1.
  apply Qc_eq_bool_refl.
Qed.

Lemma expert_kept_plus_one (acts : tensor3) (n i : nat) :
  data acts n i (shape2 acts - 1) = 1 -> expert_deleted acts n i = false.
Proof.
  intros H. unfold expert_deleted. rewrite H, th_round_1.
  apply Qc_eq_bool_neq. intros E. apply (f_equal this) in E.
  vm_compute in E. discriminate.
Qed.

(** * The claims of the specification *)

Lemma Fin_eq (x : tfloat) (q : Q) :
  match x with
  | Fin a => Qeq_bool (this a) q = true
  | NotFinite => False
  end -> x = Fin (Q2Qc q).
Proof.
  destruct x as [a |]; [| intros []].
  intros H. f_equal. apply Qc_is_canon. apply Qeq_bool_iff in H.
  simpl. rewrite Qred_correct. exact H.
Qed.

Lemma same_shape_refl_list (l l' : list (list (list Q))) :
  length l = length l' ->
  length (hd [] l) = length (hd [] l') ->
  length (hd [] (hd [] l)) = length (hd [] (hd [] l')) ->
  same_shape (tensor3_of_list l) (tensor3_of_list l').
Proof. intros. repeat split; assumption. Qed.

(** ** C1: the returned scalar *)

(** C1. On a batch of [N] items with [K] slots each, the loss computation
    returns whenever [N >= 1], [K >= 2] and the vectors have at least two
    components, and every scalar it returns is
    [matched_cost[full] + weight_prob * prob_loss], with
    [matched_cost[full]] the [1/(N K)]-weighted sum of
    [assignment * full cost] and [prob_loss] the [1/(N K)]-weighted sum of
    [(score - 1)^2] over the assigned slots plus the plain sum of
    [(score + 1)^2] over the unassigned slots. *)
Theorem loss_is_matched_cost_plus_weighted_prob_loss
  (solve : list (list Qc) -> list nat * list nat)
  (cfg : config) (acts pred_acts : tensor3) :
  LsaContract solve ->
  same_shape acts pred_acts ->
  (0 < traj_size_pos_ctrl_pts cfg)%nat ->
  ((1 <= shape0 acts)%nat -> (2 <= shape1 acts)%nat ->
   (2 <= shape2 acts)%nat ->
   exists r, _calculate_loss solve cfg acts pred_acts = Ok r)
  /\ forall r,
       _calculate_loss solve cfg acts pred_acts = Ok r ->
       exists d a,
         cost_matrices cfg acts pred_acts = Ok d
         /\ solve_assignment solve acts d = Ok a
         /\ (forall n i j, (n < shape0 acts)%nat -> (i < shape1 acts)%nat ->
               (j < shape1 acts)%nat ->
               distance_matrix d n i j = Fin (full_cost acts pred_acts n i j))
         /\ prob_loss r
            = Fin (spec_prob_loss (shape0 acts) (shape1 acts)
                     (alpha_matrix a) pred_acts)
         /\ loss r
            = Fin (spec_matched_cost (shape0 acts) (shape1 acts)
                     (alpha_matrix a) (full_cost acts pred_acts)
                   + weight_prob cfg
                     * spec_prob_loss (shape0 acts) (shape1 acts)
                         (alpha_matrix a) pred_acts).
Proof.
  intros Hc Hs HP. split.
  - intros HN HK HS.
    destruct (calculate_loss_run solve cfg acts pred_acts Hc Hs HP HN HK HS)
      as [d [a [r [_ [_ [Hr _]]]]]].
    exists r. exact Hr.
  - intros r Hr.
    destruct (calculate_loss_returns_inv solve cfg acts pred_acts r Hr)
      as [HN [HK HS]].
    destruct (calculate_loss_run solve cfg acts pred_acts Hc Hs HP HN HK HS)
      as [d [a [r' [Hd [Ha [Hr' Hf]]]]]].
    assert (r' = r) by congruence. subst r'.
    exists d, a. split; [exact Hd |]. split; [exact Ha |]. split.
    + intros n i j Hn Hi Hj.
      destruct (rf_cells _ _ _ _ _ _ _ Hf i j Hi Hj n Hn) as [E _].
      cbn [fst snd] in E. rewrite E. apply full_cell_finite. lia.
    + split; [exact (rf_prob_loss _ _ _ _ _ _ _ Hf) |].
      exact (rf_loss _ _ _ _ _ _ _ Hf).
Qed.

Lemma loss_is_matched_cost_plus_weighted_prob_loss_witness :
  (exists r, _calculate_loss lsa_exhaustive cfg_4_1 acts_small pred_small = Ok r)
  /\ forall r,
       _calculate_loss lsa_exhaustive cfg_4_1 acts_small pred_small = Ok r ->
       exists d a,
         cost_matrices cfg_4_1 acts_small pred_small = Ok d
         /\ solve_assignment lsa_exhaustive acts_small d = Ok a
         /\ loss r
            = Fin (spec_matched_cost 1 2 (alpha_matrix a)
                     (full_cost acts_small pred_small)
                   + weight_prob cfg_4_1
                     * spec_prob_loss 1 2 (alpha_matrix a) pred_small).
Proof.
  destruct (loss_is_matched_cost_plus_weighted_prob_loss
              lsa_exhaustive cfg_4_1 acts_small pred_small
              lsa_exhaustive_contract
              (same_shape_refl_list _ _ eq_refl eq_refl eq_refl)
              ltac:(simpl; lia)) as [Hret Hval].
  split.
  - apply Hret; simpl; lia.
  - intros r Hr. destruct (Hval r Hr) as [d [a [Hd [Ha [_ [_ Hl]]]]]].
    exists d, a. split; [exact Hd |]. split; [exact Ha | exact Hl].
Defined.

(** ** C2: the time cost *)

(** The entry of the time cost matrix is the same for every item: the sum,
    over the whole batch, of the squared time differences
    ([th.sum(..., dim=0)] on a 1-d tensor sums over the batch). *)
Lemma time_cost_is_batch_sum (cfg : config) (acts pred_acts : tensor3) :
  same_shape acts pred_acts -> (2 <= shape2 acts)%nat ->
  exists d,
    cost_matrices cfg acts pred_acts = Ok d
    /\ forall n i j, (n < shape0 acts)%nat -> (i < shape1 acts)%nat ->
         (j < shape1 acts)%nat ->
         distance_time_matrix d n i j
         = Fin (sum_n (shape0 acts)
                  (fun m => sq (data acts m i (shape2 acts - 2)
                                - data pred_acts m j (shape2 acts - 2)))).
Proof.
  intros Hs HS.
  destruct (cost_matrices_ok cfg acts pred_acts Hs HS) as [d [Hd Hc]].
  exists d. split; [exact Hd |]. intros n i j Hn Hi Hj.
  destruct (Hc i j Hi Hj n Hn) as [_ [_ [_ E]]]. exact E.
Qed.

(** C2, evaluated on a batch of two items.  Expert 0 and predicted 0 of
    item 0 have the same time, so the squared time difference of item 0 is
    0; the code's entry for item 0 is 9, the squared time difference of
    item 1, and it becomes 0 when only the times of item 1 are changed. *)
Theorem time_cost_depends_on_other_items :
  exists d d',
    cost_matrices cfg_1_1 acts_two pred_two = Ok d
    /\ cost_matrices cfg_1_1 acts_two pred_two' = Ok d'
    /\ (forall i k, data pred_two 0%nat i k = data pred_two' 0%nat i k)
    /\ spec_time_cost cfg_1_1 acts_two pred_two 0 0 0 = 0
    /\ distance_time_matrix d 0%nat 0%nat 0%nat = Fin (Q2Qc 9)
    /\ distance_time_matrix d' 0%nat 0%nat 0%nat = Fin (Q2Qc 0).
Proof.
  destruct (time_cost_is_batch_sum cfg_1_1 acts_two pred_two
              (same_shape_refl_list _ _ eq_refl eq_refl eq_refl)
              ltac:(simpl; lia)) as [d [Hd Ht]].
  destruct (time_cost_is_batch_sum cfg_1_1 acts_two pred_two'
              (same_shape_refl_list _ _ eq_refl eq_refl eq_refl)
              ltac:(simpl; lia)) as [d' [Hd' Ht']].
  exists d, d'. split; [exact Hd |]. split; [exact Hd' |]. split.
  { intros i k. reflexivity. }
  split.
  { apply Qc_is_canon. vm_compute. reflexivity. }
  split.
  - rewrite Ht by (simpl; lia). apply Fin_eq. vm_compute. reflexivity.
  - rewrite Ht' by (simpl; lia). apply Fin_eq. vm_compute. reflexivity.
Qed.

(** ** C3: the full cost *)

(** The entry of the full cost matrix: the squared differences of all
    components but the last, divided by the length of the whole vector. *)
Lemma full_cost_divides_by_vector_length (cfg : config)
  (acts pred_acts : tensor3) :
  same_shape acts pred_acts -> (2 <= shape2 acts)%nat ->
  exists d,
    cost_matrices cfg acts pred_acts = Ok d
    /\ forall n i j, (n < shape0 acts)%nat -> (i < shape1 acts)%nat ->
         (j < shape1 acts)%nat ->
         distance_matrix d n i j
         = Fin (sq_diff_sum acts pred_acts n i j 0 (shape2 acts - 1)
                / nat2Qc (shape2 acts)).
Proof.
  intros Hs HS.
  destruct (cost_matrices_ok cfg acts pred_acts Hs HS) as [d [Hd Hc]].
  exists d. split; [exact Hd |]. intros n i j Hn Hi Hj.
  destruct (Hc i j Hi Hj n Hn) as [E _]. cbn [fst snd] in E.
  rewrite E. apply full_cell_finite. lia.
Qed.

(** C3, evaluated with [P = Y = 1] on vectors of length 4.  Expert 0 and
    predicted 0 of item 0 differ by 3 in one of the three compared
    components: the per-element average over the compared components is
    9/3 = 3, the code's entry is 9/4. *)
Theorem full_cost_is_not_mean_of_compared :
  exists d,
    cost_matrices cfg_1_1 acts_two pred_two = Ok d
    /\ shape2 acts_two
       = (traj_size_pos_ctrl_pts cfg_1_1 + traj_size_yaw_ctrl_pts cfg_1_1 + 2)%nat
    /\ spec_full_cost cfg_1_1 acts_two pred_two 0 0 0 = Q2Qc 3
    /\ distance_matrix d 0%nat 0%nat 0%nat = Fin (Q2Qc (9 # 4)).
Proof.
  destruct (full_cost_divides_by_vector_length cfg_1_1 acts_two pred_two
              (same_shape_refl_list _ _ eq_refl eq_refl eq_refl)
              ltac:(simpl; lia)) as [d [Hd Hf]].
  exists d. split; [exact Hd |]. split; [reflexivity |]. split.
  - apply Qc_is_canon. vm_compute. reflexivity.
  - rewrite Hf by (simpl; lia). apply Fin_eq. vm_compute. reflexivity.
Qed.

(** ** C4: one trajectory per set *)

(** With [K = 1] the assignment is the matrix of ones and the solver is
    skipped, but [col_assigned] is only bound in the branch for [K > 1]:
    the computation of [prob_loss] raises. *)
Lemma single_trajectory_raises
  (solve : list (list Qc) -> list nat * list nat)
  (cfg : config) (acts pred_acts : tensor3) :
  same_shape acts pred_acts ->
  (1 <= shape0 acts)%nat -> shape1 acts = 1%nat -> (2 <= shape2 acts)%nat ->
  (exists d,
     cost_matrices cfg acts pred_acts = Ok d
     /\ solve_assignment solve acts d
        = Ok (Assignment (fun _ _ _ => 1) None None))
  /\ _calculate_loss solve cfg acts pred_acts = Raise UnboundLocalError.
Proof.
  intros Hs HN HK HS.
  destruct (cost_matrices_ok cfg acts pred_acts Hs HS) as [d [Hd _]].
  assert (Ha : solve_assignment solve acts d
               = Ok (Assignment (fun _ _ _ => 1) None None)).
  { unfold solve_assignment. rewrite HK. reflexivity. }
  split; [exists d; split; assumption |].
  unfold _calculate_loss. rewrite Hd. cbn [bind]. rewrite Ha. cbn [bind].
  destruct Hs as [H0 [H1 H2]]. unfold aggregate.
  replace (Nat.leb 1 (shape2 pred_acts)) with true
    by (symmetry; apply Nat.leb_le; lia).
  cbn [guard bind rows cols].
  rewrite <- H0, <- H1, !Nat.eqb_refl. cbn [py_assert bind].
  destruct (Nat.eqb_spec (shape0 acts * shape1 acts) 0) as [E | _]; [nia |].
  reflexivity.
Qed.

(** C4, evaluated on a batch of one item with one valid expert: the
    assignment is the single entry 1 and the solver is skipped, but no loss
    and no [pos_loss] is returned. *)
Theorem single_trajectory_batch_fails :
  shape1 acts_single = 1%nat
  /\ (exists d,
        cost_matrices cfg_1_1 acts_single pred_single = Ok d
        /\ solve_assignment lsa_exhaustive acts_single d
           = Ok (Assignment (fun _ _ _ => 1) None None))
  /\ _calculate_loss lsa_exhaustive cfg_1_1 acts_single pred_single
     = Raise UnboundLocalError.
Proof.
  split; [reflexivity |].
  apply (single_trajectory_raises lsa_exhaustive cfg_1_1 acts_single pred_single
           (same_shape_refl_list _ _ eq_refl eq_refl eq_refl)
           ltac:(simpl; lia) eq_refl ltac:(simpl; lia)).
Qed.

(** ** C7: the invariant of the assignment matrix *)

(** C7, as the code has it.  With [K >= 2], in the assignment matrix of
    every item each row handed to the solver (its existence indicator does
    not round to -1) holds exactly one 1, each deleted row is all zero, and
    each column holds at most one 1.  With [K = 1] the matrix is the single
    entry 1, whatever the expert's existence indicator. *)
Theorem assignment_matrix_invariant
  (solve : list (list Qc) -> list nat * list nat)
  (cfg : config) (acts pred_acts : tensor3) :
  LsaContract solve ->
  same_shape acts pred_acts ->
  (0 < traj_size_pos_ctrl_pts cfg)%nat ->
  (2 <= shape2 acts)%nat ->
  exists d a,
    cost_matrices cfg acts pred_acts = Ok d
    /\ solve_assignment solve acts d = Ok a
    /\ ((2 <= shape1 acts)%nat ->
        forall n, (n < shape0 acts)%nat ->
          (forall i, (i < shape1 acts)%nat ->
             expert_deleted acts n i = false ->
             exists j, (j < shape1 acts)%nat /\ alpha_matrix a n i j = 1
                       /\ forall j', j' <> j -> alpha_matrix a n i j' = 0)
          /\ (forall i j, expert_deleted acts n i = true ->
                alpha_matrix a n i j = 0)
          /\ (forall i i' j, alpha_matrix a n i j = 1 ->
                alpha_matrix a n i' j = 1 -> i = i')
          /\ (forall i j, alpha_matrix a n i j = 0
                           \/ alpha_matrix a n i j = 1))
    /\ (shape1 acts = 1%nat -> forall n, alpha_matrix a n 0%nat 0%nat = 1).
Proof.
  intros Hc Hs HP HS.
  destruct (cost_matrices_ok cfg acts pred_acts Hs HS) as [d [Hd Hcells]].
  destruct (Nat.le_gt_cases 2 (shape1 acts)) as [HK | HK].
  - destruct (solve_assignment_ok solve Hc cfg acts pred_acts d
                HP ltac:(lia) Hcells HK) as [alpha [Ha Halpha]].
    eexists d, _. split; [exact Hd |]. split; [exact Ha |].
    cbn [alpha_matrix]. split; [| intros; lia].
    intros _ n Hn.
    pose proof (fun i j => Halpha n i j Hn) as Hch.
    split; [| split; [| split]].
    + intros i Hi Hv.
      exact (valid_row_one solve Hc cfg acts pred_acts n alpha Hch i Hi Hv).
    + intros i j Hdel.
      exact (deleted_row_zero solve Hc cfg acts pred_acts n alpha Hch i j Hdel).
    + intros i i' j.
      exact (column_at_most_one solve Hc cfg acts pred_acts n alpha Hch i i' j).
    + intros i j.
      exact (alpha_0_or_1 solve cfg acts pred_acts n alpha Hch i j).
  - exists d, (Assignment (fun _ _ _ => 1) None None).
    split; [exact Hd |]. split.
    + unfold solve_assignment.
      replace (Nat.ltb 1 (shape1 acts)) with false
        by (symmetry; apply Nat.ltb_ge; lia).
      reflexivity.
    + split; [intros; lia | intros; reflexivity].
Qed.

Lemma assignment_matrix_invariant_witness :
  exists d a,
    cost_matrices cfg_1_1 acts_two pred_two = Ok d
    /\ solve_assignment lsa_exhaustive acts_two d = Ok a
    /\ (forall i, (i < 2)%nat ->
          exists j, (j < 2)%nat /\ alpha_matrix a 0%nat i j = 1
                    /\ forall j', j' <> j -> alpha_matrix a 0%nat i j' = 0)
    /\ (forall i j, (i < 2)%nat -> alpha_matrix a 1%nat i j = 0)
    /\ (forall n i i' j, (n < 2)%nat -> alpha_matrix a n i j = 1 ->
          alpha_matrix a n i' j = 1 -> i = i').
Proof.
  destruct (assignment_matrix_invariant lsa_exhaustive cfg_1_1 acts_two pred_two
              lsa_exhaustive_contract
              (same_shape_refl_list _ _ eq_refl eq_refl eq_refl)
              ltac:(simpl; lia) ltac:(simpl; lia))
    as [d [a [Hd [Ha [H2 _]]]]].
  specialize (H2 ltac:(simpl; lia)).
  exists d, a. split; [exact Hd |]. split; [exact Ha |].
  split; [| split].
  - intros i Hi.
    destruct (H2 0%nat ltac:(simpl; lia)) as [Hrow _].
    apply (Hrow i Hi). apply expert_kept_plus_one.
    destruct i as [| [| i]]; [| | lia];
      apply Qc_is_canon; vm_compute; reflexivity.
  - intros i j Hi.
    destruct (H2 1%nat ltac:(simpl; lia)) as [_ [Hdel _]].
    apply Hdel. apply expert_deleted_minus_one.
    destruct i as [| [| i]]; [| | lia];
      apply Qc_is_canon; vm_compute; reflexivity.
  - intros n i i' j Hn.
    destruct (H2 n Hn) as [_ [_ [Hcol _]]]. apply Hcol.
Defined.

(** C7 fails for [K = 1]: the row of an invalid expert holds a 1. *)
Lemma single_invalid_expert_row_not_zero :
  data acts_single_invalid 0%nat 0%nat 3%nat = Q2Qc (-1)
  /\ expert_deleted acts_single_invalid 0 0 = true
  /\ exists d a,
       cost_matrices cfg_1_1 acts_single_invalid pred_single = Ok d
       /\ solve_assignment lsa_exhaustive acts_single_invalid d = Ok a
       /\ alpha_matrix a 0%nat 0%nat 0%nat = 1.
Proof.
  split; [reflexivity |]. split; [vm_compute; reflexivity |].
  destruct (single_trajectory_raises lsa_exhaustive cfg_1_1
              acts_single_invalid pred_single
              (same_shape_refl_list _ _ eq_refl eq_refl eq_refl)
              ltac:(simpl; lia) eq_refl ltac:(simpl; lia))
    as [[d [Hd Ha]] _].
  exists d, (Assignment (fun _ _ _ => 1) None None).
  split; [exact Hd |]. split; [exact Ha | reflexivity].
Qed.

(** ** C5: invalid expert rows *)




(** ** C6: optimality of the assignment *)

Lemma entry_of_rows (g : nat -> nat -> Qc) (kept : list nat) (K r c : nat) :
  (r < length kept)%nat -> (c < K)%nat ->
  entry (map (fun i => map (fun j => g i j) (seq 0 K)) kept) r c
  = g (nth r kept 0%nat) c.
Proof.
  intros Hr Hc. unfold entry.
  rewrite (nth_indep _ [] (map (fun j => g 0%nat j) (seq 0 K)))
    by (rewrite length_map; exact Hr).
  rewrite (map_nth (fun i => map (fun j => g i j) (seq 0 K)) kept 0%nat r).
  rewrite (nth_indep _ 0 (g (nth r kept 0%nat) 0%nat))
    by (rewrite length_map, length_seq; exact Hc).
  rewrite (map_nth (fun j => g (nth r kept 0%nat) j) (seq 0 K) 0%nat c).
  rewrite seq_nth by exact Hc. reflexivity.
Qed.

(** The cost scipy reports for column choice [cs] on the reduced matrix is
    the position cost summed over the pairs (kept row, column). *)
Lemma assignment_cost_reduced (cfg : config) (acts pred_acts : tensor3)
  (n : nat) (cs : list nat) :
  feasible (length (valid_rows acts n)) (shape1 acts) cs ->
  assignment_cost (reduced_cost cfg acts pred_acts n) cs
  = sum_list (map (fun p => pos_cost cfg acts pred_acts n (fst p) (snd p))
                (combine (valid_rows acts n) cs)).
Proof.
  intros [Hlen [_ Hlt]]. unfold assignment_cost.
  rewrite <- (combine_nth_seq (valid_rows acts n) cs), map_map.
  rewrite Hlen. f_equal. apply map_ext_in. intros [r c] Hin.
  cbn [fst snd].
  pose proof (in_combine_l _ _ _ _ Hin) as Hr. apply in_seq in Hr.
  pose proof (in_combine_r _ _ _ _ Hin) as Hc.
  rewrite Forall_forall in Hlt. specialize (Hlt c Hc).
  unfold reduced_cost.
  apply (entry_of_rows (pos_cost cfg acts pred_acts n)); [lia | exact Hlt].
Qed.

Lemma item_pos_cost_is_solver_cost
  (solve : list (list Qc) -> list nat * list nat)
  (cfg : config) (acts pred_acts : tensor3) (alpha : weights) (n : nat) :
  LsaContract solve ->
  (forall i j, alpha n i j
               = indicator (in_matching (matching solve cfg acts pred_acts n) i j)) ->
  item_pos_cost cfg acts pred_acts alpha n
  = assignment_cost (reduced_cost cfg acts pred_acts n)
      (snd (solve (reduced_cost cfg acts pred_acts n))).
Proof.
  intros Hc Hch. unfold item_pos_cost.
  rewrite (sum_n_ext _ _
             (fun i => sum_n (shape1 acts) (fun j =>
                indicator (in_matching (matching solve cfg acts pred_acts n) i j)
                * pos_cost cfg acts pred_acts n i j)))
    by (intros i _; apply sum_n_ext; intros j _; rewrite Hch; reflexivity).
  rewrite (sum_over_matching _ _ (pos_cost cfg acts pred_acts n)
             (matching_is_matching solve cfg acts pred_acts n Hc)).
  rewrite assignment_cost_reduced
    by (apply (contract_on_item solve cfg acts pred_acts n Hc)).
  reflexivity.
Qed.

(** C6. With [K >= 2] every stage succeeds and, for every item, the
    produced assignment is a one-to-one matching of all the valid expert
    rows to distinct predicted columns ([alpha_matrix] is 1 exactly on the
    pairs of a column choice that gives every valid row a column of its
    own) whose position cost is at most the position cost of any such
    matching.  In particular, for [N = 1], [K = 2], two valid experts and
    position costs [[1,4],[3,2]], the assignment is (0,0), (1,1) and
    [pos_loss] is 3/2. *)
Theorem assignment_minimizes_position_cost
  (solve : list (list Qc) -> list nat * list nat)
  (cfg : config) (acts pred_acts : tensor3) :
  LsaContract solve ->
  same_shape acts pred_acts ->
  (0 < traj_size_pos_ctrl_pts cfg)%nat ->
  (1 <= shape0 acts)%nat -> (2 <= shape1 acts)%nat ->
  (2 <= shape2 acts)%nat ->
  exists d a r,
    cost_matrices cfg acts pred_acts = Ok d
    /\ solve_assignment solve acts d = Ok a
    /\ _calculate_loss solve cfg acts pred_acts = Ok r
    /\ (forall n i j, (n < shape0 acts)%nat -> (i < shape1 acts)%nat ->
          (j < shape1 acts)%nat ->
          distance_pos_matrix d n i j = Fin (pos_cost cfg acts pred_acts n i j))
    /\ (forall n, (n < shape0 acts)%nat ->
          exists cs,
            feasible (length (valid_rows acts n)) (shape1 acts) cs
            /\ (forall i j,
                  alpha_matrix a n i j
                  = indicator (in_matching (combine (valid_rows acts n) cs)
                                 i j))
            /\ item_pos_cost cfg acts pred_acts (alpha_matrix a) n
               = sum_list
                   (map (fun p => pos_cost cfg acts pred_acts n (fst p) (snd p))
                      (combine (valid_rows acts n) cs))
            /\ forall cs',
                 feasible (length (valid_rows acts n)) (shape1 acts) cs' ->
                 item_pos_cost cfg acts pred_acts (alpha_matrix a) n
                 <= sum_list
                      (map (fun p =>
                              pos_cost cfg acts pred_acts n (fst p) (snd p))
                         (combine (valid_rows acts n) cs')))
    /\ (shape0 acts = 1%nat -> shape1 acts = 2%nat ->
        expert_deleted acts 0 0 = false -> expert_deleted acts 0 1 = false ->
        pos_cost cfg acts pred_acts 0 0 0 = Q2Qc 1 ->
        pos_cost cfg acts pred_acts 0 0 1 = Q2Qc 4 ->
        pos_cost cfg acts pred_acts 0 1 0 = Q2Qc 3 ->
        pos_cost cfg acts pred_acts 0 1 1 = Q2Qc 2 ->
        alpha_matrix a 0%nat 0%nat 0%nat = 1
        /\ alpha_matrix a 0%nat 1%nat 1%nat = 1
        /\ alpha_matrix a 0%nat 0%nat 1%nat = 0
        /\ alpha_matrix a 0%nat 1%nat 0%nat = 0
        /\ item_pos_cost cfg acts pred_acts (alpha_matrix a) 0 = Q2Qc 3
        /\ pos_loss r = Fin (Q2Qc (3 # 2))).
Proof.
  intros Hc Hs HP HN HK HS.
  destruct (calculate_loss_run solve cfg acts pred_acts Hc Hs HP HN HK HS)
    as [d [a [r [Hd [Ha [Hr Hf]]]]]].
  exists d, a, r.
  split; [exact Hd |]. split; [exact Ha |]. split; [exact Hr |].
  pose proof (rf_alpha _ _ _ _ _ _ _ Hf) as Halpha.
  split; [| split].
  - intros n i j Hn Hi Hj.
    destruct (rf_cells _ _ _ _ _ _ _ Hf i j Hi Hj n Hn) as [_ [E _]].
    cbn [fst snd] in E. rewrite E. apply pos_cell_finite. exact HP.
  - intros n Hn.
    destruct (contract_on_item solve cfg acts pred_acts n Hc)
      as [_ [Hfeas Hopt]].
    exists (snd (solve (reduced_cost cfg acts pred_acts n))).
    split; [exact Hfeas |]. split; [| split].
    + intros i j. exact (Halpha n i j Hn).
    + rewrite (item_pos_cost_is_solver_cost solve cfg acts pred_acts _ n Hc
                 (fun i j => Halpha n i j Hn)).
      apply assignment_cost_reduced. exact Hfeas.
    + intros cs Hcs.
      rewrite (item_pos_cost_is_solver_cost solve cfg acts pred_acts _ n Hc
                 (fun i j => Halpha n i j Hn)).
      rewrite <- (assignment_cost_reduced cfg acts pred_acts n cs Hcs).
      apply Hopt. exact Hcs.
  - intros H1 H2 Hv0 Hv1 C00 C01 C10 C11.
    assert (Hrows : valid_rows acts 0 = [0; 1]%nat).
    { unfold valid_rows. rewrite H2. cbn [seq filter].
      rewrite Hv0, Hv1. reflexivity. }
    destruct (contract_on_item solve cfg acts pred_acts 0%nat Hc)
      as [_ [Hfeas Hopt]].
    rewrite Hrows, H2 in Hfeas, Hopt. cbn [length] in Hfeas, Hopt.
    assert (Hcost : forall cs, feasible 2 2 cs ->
              assignment_cost (reduced_cost cfg acts pred_acts 0) cs
              = sum_list
                  (map (fun p => pos_cost cfg acts pred_acts 0 (fst p) (snd p))
                     (combine [0; 1]%nat cs))).
    { intros cs Hcs. rewrite <- Hrows. apply assignment_cost_reduced.
      rewrite Hrows, H2. exact Hcs. }
    assert (Hsol : snd (solve (reduced_cost cfg acts pred_acts 0)) = [0; 1]%nat).
    { pose proof (proj1 (feasible_in_injections 2 2 _) Hfeas) as Hin.
      cbn in Hin. destruct Hin as [E | [E | []]]; [symmetry; exact E |].
      exfalso.
      assert (F01 : feasible 2 2 [0; 1]%nat)
        by (apply feasible_in_injections; cbn; auto).
      assert (F10 : feasible 2 2 [1; 0]%nat)
        by (apply feasible_in_injections; cbn; auto).
      specialize (Hopt [0; 1]%nat F01).
      rewrite <- E in Hopt. rewrite (Hcost _ F10), (Hcost _ F01) in Hopt.
      cbn [combine map sum_list fold_right fst snd] in Hopt.
      rewrite C00, C01, C10, C11 in Hopt.
      revert Hopt. apply Qclt_not_le. reflexivity. }
    assert (Hm : matching solve cfg acts pred_acts 0 = [(0, 0); (1, 1)]%nat).
    { unfold matching. rewrite Hrows, Hsol. reflexivity. }
    assert (Ha0 : forall i j,
              alpha_matrix a 0%nat i j
              = indicator (in_matching [(0, 0); (1, 1)]%nat i j)).
    { intros i j. rewrite <- Hm. apply Halpha. lia. }
    assert (Hitem : item_pos_cost cfg acts pred_acts (alpha_matrix a) 0 = Q2Qc 3).
    { unfold item_pos_cost. rewrite H2. cbn [sum_n].
      rewrite !Ha0, C00, C01, C10, C11.
      apply Qc_is_canon. vm_compute. reflexivity. }
    rewrite !Ha0.
    split; [reflexivity |]. split; [reflexivity |].
    split; [reflexivity |]. split; [reflexivity |].
    split; [exact Hitem |].
    rewrite (rf_pos_loss _ _ _ _ _ _ _ Hf). f_equal.
    unfold spec_matched_cost. rewrite H1. cbn [sum_n].
    change (sum_n (shape1 acts) (fun i => sum_n (shape1 acts) (fun j =>
              alpha_matrix a 0%nat i j * pos_cost cfg acts pred_acts 0 i j)))
      with (item_pos_cost cfg acts pred_acts (alpha_matrix a) 0).
    rewrite Hitem, H2. apply Qc_is_canon. vm_compute. reflexivity.
Qed.

Lemma assignment_minimizes_position_cost_witness :
  exists d a r,
    cost_matrices cfg_4_1 acts_small pred_small = Ok d
    /\ solve_assignment lsa_exhaustive acts_small d = Ok a
    /\ _calculate_loss lsa_exhaustive cfg_4_1 acts_small pred_small = Ok r
    /\ distance_pos_matrix d 0%nat 0%nat 1%nat = Fin (Q2Qc 4)
    /\ alpha_matrix a 0%nat 0%nat 0%nat = 1
    /\ alpha_matrix a 0%nat 1%nat 1%nat = 1
    /\ pos_loss r = Fin (Q2Qc (3 # 2)).
Proof.
  destruct (assignment_minimizes_position_cost lsa_exhaustive cfg_4_1
              acts_small pred_small lsa_exhaustive_contract
              (same_shape_refl_list _ _ eq_refl eq_refl eq_refl)
              ltac:(simpl; lia) ltac:(simpl; lia) ltac:(simpl; lia)
              ltac:(simpl; lia))
    as [d [a [r [Hd [Ha [Hr [Hpos [_ Hinst]]]]]]]].
  assert (C01 : pos_cost cfg_4_1 acts_small pred_small 0 0 1 = Q2Qc 4)
    by (apply Qc_is_canon; vm_compute; reflexivity).
  destruct Hinst as [A00 [A11 [_ [_ [_ Hloss]]]]];
    try reflexivity;
    try (apply Qc_is_canon; vm_compute; reflexivity).
  exists d, a, r.
  split; [exact Hd |]. split; [exact Ha |]. split; [exact Hr |].
  split; [| split; [exact A00 | split; [exact A11 | exact Hloss]]].
  rewrite Hpos by (simpl; lia). f_equal. exact C01.
Defined.

(** ** C9: shape errors *)

(** A result is returned only when the two batch sizes and the two set
    sizes agree: the assertions on the shapes have passed. *)
Lemma calculate_loss_returns_shapes
  (solve : list (list Qc) -> list nat * list nat)
  (cfg : config) (acts pred_acts : tensor3) (r : stats_dict) :
  _calculate_loss solve cfg acts pred_acts = Ok r ->
  shape0 acts = shape0 pred_acts /\ shape1 acts = shape1 pred_acts.
Proof.
  unfold _calculate_loss. intros H.
  apply bind_ok in H. destruct H as [d [_ H]].
  apply bind_ok in H. destruct H as [a [_ H]].
  unfold aggregate in H.
  apply bind_ok in H. destruct H as [u0 [_ H]].
  apply bind_ok in H. destruct H as [u1 [A0 H]].
  apply bind_ok in H. destruct H as [u2 [A1 _]].
  cbn [rows cols] in A0, A1. unfold py_assert in A0, A1.
  destruct (Nat.eqb_spec (shape0 acts) (shape0 pred_acts)); [| discriminate].
  destruct (Nat.eqb_spec (shape1 acts) (shape1 pred_acts)); [| discriminate].
  split; assumption.
Qed.

(** C9, as the code has it.  When the batch sizes or the set sizes of
    [acts] and [pred_acts] differ, an exception is raised and no loss value
    is produced.  The vector length is never compared with [P+Y+2]: on a
    well-formed batch with [N >= 1], [K >= 2] and vectors of any length
    [>= 2] a loss is returned. *)
Theorem mismatched_batches_raise_and_length_is_unchecked
  (solve : list (list Qc) -> list nat * list nat)
  (cfg : config) (acts pred_acts : tensor3) :
  (shape0 acts <> shape0 pred_acts \/ shape1 acts <> shape1 pred_acts ->
   exists e, _calculate_loss solve cfg acts pred_acts = Raise e)
  /\ (LsaContract solve -> same_shape acts pred_acts ->
      (0 < traj_size_pos_ctrl_pts cfg)%nat ->
      (1 <= shape0 acts)%nat -> (2 <= shape1 acts)%nat ->
      (2 <= shape2 acts)%nat ->
      exists r, _calculate_loss solve cfg acts pred_acts = Ok r).
Proof.
  split.
  - intros Hne.
    destruct (_calculate_loss solve cfg acts pred_acts) as [r | e] eqn:E.
    + apply calculate_loss_returns_shapes in E. destruct E, Hne; contradiction.
    + exists e. reflexivity.
  - intros Hc Hs HP HN HK HS.
    destruct (calculate_loss_run solve cfg acts pred_acts Hc Hs HP HN HK HS)
      as [d [a [r [_ [_ [Hr _]]]]]].
    exists r. exact Hr.
Qed.

Lemma mismatched_batches_raise_and_length_is_unchecked_witness :
  (exists e, _calculate_loss lsa_exhaustive cfg_1_1 acts_two pred_single
             = Raise e)
  /\ (exists r, _calculate_loss lsa_exhaustive cfg_1_1 acts_two pred_two
                = Ok r).
Proof.
  split.
  - apply (proj1 (mismatched_batches_raise_and_length_is_unchecked
                    lsa_exhaustive cfg_1_1 acts_two pred_single)).
    left. simpl. lia.
  - apply (proj2 (mismatched_batches_raise_and_length_is_unchecked
                    lsa_exhaustive cfg_1_1 acts_two pred_two));
      try (simpl; lia).
    + exact lsa_exhaustive_contract.
    + exact (same_shape_refl_list _ _ eq_refl eq_refl eq_refl).
Defined.

(** C9 fails: vectors of length 5 under a configuration with
    [P + Y + 2 = 4] raise nothing. *)
Lemma wrong_vector_length_is_accepted :
  shape2 acts_long = 5%nat
  /\ (traj_size_pos_ctrl_pts cfg_1_1 + traj_size_yaw_ctrl_pts cfg_1_1 + 2 = 4)%nat
  /\ exists r, _calculate_loss lsa_exhaustive cfg_1_1 acts_long pred_long = Ok r.
Proof.
  split; [reflexivity |]. split; [reflexivity |].
  destruct (calculate_loss_run lsa_exhaustive cfg_1_1 acts_long pred_long
              lsa_exhaustive_contract
              (same_shape_refl_list _ _ eq_refl eq_refl eq_refl)
              ltac:(simpl; lia) ltac:(simpl; lia) ltac:(simpl; lia)
              ltac:(simpl; lia))
    as [d [a [r [_ [_ [Hr _]]]]]].
  exists r. exact Hr.
Qed.


(** ** Sums and permutations of the index range *)

Lemma sum_n_as_list (K : nat) (f : nat -> Qc) :
  sum_n K f = sum_list (map f (seq 0 K)).
Proof.
  induction K as [| K IH]; [reflexivity |].
  rewrite seq_S, map_app, sum_list_app, <- IH. cbn. ring.
Qed.

Lemma sum_list_perm (l l' : list Qc) :
  Permutation l l' -> sum_list l = sum_list l'.
Proof.
  induction 1 as [| x l l' _ IH | x y l | l l' l'' _ IH1 _ IH2].
  - reflexivity.
  - cbn [sum_list fold_right]. fold (sum_list l). fold (sum_list l').
    rewrite IH. reflexivity.
  - cbn [sum_list fold_right]. ring.
  - congruence.
Qed.

Section Reindex.

Variable K : nat.
Variables pi pi_inv : nat -> nat.
Hypothesis Hpi : is_permutation K pi pi_inv.

Lemma pi_lt (j : nat) : (j < K)%nat -> (pi j < K)%nat.
Proof. intros Hj. apply (Hpi j Hj). Qed.

Lemma pi_inv_lt (j : nat) : (j < K)%nat -> (pi_inv j < K)%nat.
Proof. intros Hj. apply (Hpi j Hj). Qed.

Lemma pi_inv_pi (j : nat) : (j < K)%nat -> pi_inv (pi j) = j.
Proof. intros Hj. apply (Hpi j Hj). Qed.

Lemma pi_pi_inv (j : nat) : (j < K)%nat -> pi (pi_inv j) = j.
Proof. intros Hj. apply (Hpi j Hj). Qed.

Lemma is_permutation_sym : is_permutation K pi_inv pi.
Proof. intros j Hj. destruct (Hpi j Hj) as [? [? [? ?]]]. auto. Qed.

Lemma map_pi_seq : Permutation (map pi (seq 0 K)) (seq 0 K).
Proof.
  apply NoDup_Permutation.
  - apply NoDup_map_NoDup_ForallPairs; [| apply seq_NoDup].
    intros x y Hx Hy E. apply in_seq in Hx. apply in_seq in Hy.
    rewrite <- (pi_inv_pi x), <- (pi_inv_pi y) by lia. congruence.
  - apply seq_NoDup.
  - intros x. rewrite in_map_iff. split.
    + intros [j [<- Hj]]. apply in_seq in Hj. apply in_seq.
      pose proof (pi_lt j). lia.
    + intros Hx. apply in_seq in Hx. exists (pi_inv x). split.
      * apply pi_pi_inv. lia.
      * apply in_seq. pose proof (pi_inv_lt x). lia.
Qed.

(** A sum over the slots does not depend on their order. *)
Lemma sum_n_reindex (f : nat -> Qc) :
  sum_n K (fun j => f (pi j)) = sum_n K f.
Proof.
  rewrite !sum_n_as_list. rewrite <- (map_map pi f).
  apply sum_list_perm. apply Permutation_map. exact map_pi_seq.
Qed.

Lemma map_pi_feasible (nr : nat) (cs : list nat) :
  feasible nr K cs -> feasible nr K (map pi cs).
Proof.
  intros [Hlen [Hnd Hlt]]. rewrite Forall_forall in Hlt.
  repeat split.
  - rewrite length_map. exact Hlen.
  - apply NoDup_map_NoDup_ForallPairs; [| exact Hnd].
    intros x y Hx Hy E.
    rewrite <- (pi_inv_pi x), <- (pi_inv_pi y) by (apply Hlt; assumption).
    congruence.
  - apply Forall_forall. intros c Hc. apply in_map_iff in Hc.
    destruct Hc as [j [<- Hj]]. apply pi_lt, Hlt, Hj.
Qed.

Lemma map_pi_inv_pi (cs : list nat) :
  Forall (fun c => (c < K)%nat) cs -> map pi_inv (map pi cs) = cs.
Proof.
  intros Hlt. rewrite map_map. rewrite <- (map_id cs) at 2.
  apply map_ext_in. intros c Hc. rewrite Forall_forall in Hlt.
  apply pi_inv_pi, Hlt, Hc.
Qed.

End Reindex.

(** ** The loss under a permutation of the predicted slots of one item *)

Lemma combine_map_r {A B C : Type} (h : B -> C) (l : list A) (l' : list B) :
  combine l (map h l') = map (fun p => (fst p, h (snd p))) (combine l l').
Proof.
  revert l'. induction l as [| x l IH]; intros [| y l']; simpl;
    try reflexivity.
  rewrite IH. reflexivity.
Qed.

Lemma existsb_ext_in {A : Type} (f g : A -> bool) (l : list A) :
  (forall x, In x l -> f x = g x) -> existsb f l = existsb g l.
Proof.
  induction l as [| x l IH]; intros H; [reflexivity |].
  cbn [existsb]. rewrite (H x) by (left; reflexivity).
  rewrite IH by (intros; apply H; right; assumption). reflexivity.
Qed.

Section Permuted.

Variable solve : list (list Qc) -> list nat * list nat.
Hypothesis solve_contract : LsaContract solve.
Variable cfg : config.
Variables acts pred_acts : tensor3.
Variable n0 : nat.
Variables pi pi_inv : nat -> nat.
Hypothesis Hpi : is_permutation (shape1 acts) pi pi_inv.

Let pred' := permute_slots pred_acts n0 pi.

(** The slot of [pred_acts] that slot [j] of item [n] of [pred'] holds. *)
Let slot (n j : nat) : nat := if Nat.eqb n n0 then pi j else j.
Let slot_inv (n j : nat) : nat := if Nat.eqb n n0 then pi_inv j else j.

Lemma slot_permutation (n : nat) :
  is_permutation (shape1 acts) (slot n) (slot_inv n).
Proof.
  unfold slot, slot_inv. destruct (Nat.eqb n n0); [exact Hpi |].
  intros j Hj. auto.
Qed.

Lemma permuted_sq_diff_sum (n i j lo cnt : nat) :
  sq_diff_sum acts pred' n i j lo cnt
  = sq_diff_sum acts pred_acts n i (slot n j) lo cnt.
Proof.
  unfold sq_diff_sum, pred', permute_slots, slot. cbn [data].
  destruct (Nat.eqb n n0); reflexivity.
Qed.

Lemma permuted_pos_cost (n i j : nat) :
  pos_cost cfg acts pred' n i j = pos_cost cfg acts pred_acts n i (slot n j).
Proof. unfold pos_cost. cbn zeta. rewrite permuted_sq_diff_sum. reflexivity. Qed.

Lemma permuted_full_cost (n i j : nat) :
  full_cost acts pred' n i j = full_cost acts pred_acts n i (slot n j).
Proof. unfold full_cost. rewrite permuted_sq_diff_sum. reflexivity. Qed.

Lemma permuted_yaw_cost (n i j : nat) :
  yaw_cost cfg acts pred' n i j = yaw_cost cfg acts pred_acts n i (slot n j).
Proof. unfold yaw_cost. cbn zeta. rewrite permuted_sq_diff_sum. reflexivity. Qed.

Lemma permuted_score (n j : nat) :
  score pred' n j = score pred_acts n (slot n j).
Proof.
  unfold score, pred', permute_slots, slot. cbn [data shape2].
  destruct (Nat.eqb n n0); reflexivity.
Qed.

(** The cost of a column choice on the permuted item is the cost of the
    corresponding choice on the original item. *)
Lemma permuted_assignment_cost (n : nat) (cs : list nat) :
  feasible (length (valid_rows acts n)) (shape1 acts) cs ->
  assignment_cost (reduced_cost cfg acts pred' n) cs
  = assignment_cost (reduced_cost cfg acts pred_acts n) (map (slot n) cs).
Proof.
  intros Hcs.
  rewrite assignment_cost_reduced by exact Hcs.
  rewrite assignment_cost_reduced
    by (apply (map_pi_feasible _ _ _ (slot_permutation n)); exact Hcs).
  rewrite combine_map_r, map_map. cbn [fst snd].
  f_equal. apply map_ext. intros p. apply permuted_pos_cost.
Qed.

Lemma permuted_optimal (n : nat) (cs : list nat) :
  optimal_choice cfg acts pred' n cs ->
  optimal_choice cfg acts pred_acts n (map (slot n) cs).
Proof.
  intros [Hf Hopt]. split.
  - apply (map_pi_feasible _ _ _ (slot_permutation n)). exact Hf.
  - intros cs0 Hf0.
    rewrite <- permuted_assignment_cost by exact Hf.
    pose proof (is_permutation_sym _ _ _ (slot_permutation n)) as Hinv.
    pose proof (map_pi_feasible _ _ _ Hinv _ _ Hf0) as Hf1.
    specialize (Hopt _ Hf1).
    rewrite (permuted_assignment_cost n _ Hf1) in Hopt.
    rewrite (map_pi_inv_pi _ _ _ Hinv) in Hopt; [exact Hopt |].
    apply Hf0.
Qed.

Lemma solver_choice_optimal (p : tensor3) (n : nat) :
  optimal_choice cfg acts p n (snd (solve (reduced_cost cfg acts p n))).
Proof.
  destruct (contract_on_item solve cfg acts p n solve_contract)
    as [_ [Hf Hopt]].
  split; assumption.
Qed.

(** The optimal value is the same before and after the permutation. *)
Lemma permuted_optimal_value (n : nat) :
  assignment_cost (reduced_cost cfg acts pred' n)
    (snd (solve (reduced_cost cfg acts pred' n)))
  = assignment_cost (reduced_cost cfg acts pred_acts n)
      (snd (solve (reduced_cost cfg acts pred_acts n))).
Proof.
  destruct (solver_choice_optimal pred' n) as [Hf' Hopt'].
  destruct (solver_choice_optimal pred_acts n) as [Hf Hopt].
  apply Qcle_antisym.
  - pose proof (is_permutation_sym _ _ _ (slot_permutation n)) as Hinv.
    pose proof (map_pi_feasible _ _ _ Hinv _ _ Hf) as Hf1.
    specialize (Hopt' _ Hf1).
    rewrite (permuted_assignment_cost n _ Hf1) in Hopt'.
    rewrite (map_pi_inv_pi _ _ _ Hinv) in Hopt'; [exact Hopt' | apply Hf].
  - rewrite (permuted_assignment_cost n _ Hf').
    apply Hopt. apply (map_pi_feasible _ _ _ (slot_permutation n)). exact Hf'.
Qed.

End Permuted.

Lemma in_matching_permuted (K : nat) (s s_inv : nat -> nat)
  (kept cs : list nat) (i j : nat) :
  is_permutation K s s_inv ->
  Forall (fun c => (c < K)%nat) cs -> (j < K)%nat ->
  in_matching (combine kept (map s_inv cs)) i j
  = in_matching (combine kept cs) i (s j).
Proof.
  intros Hs Hlt Hj. rewrite Forall_forall in Hlt.
  apply eq_true_iff_eq. rewrite !in_matching_In.
  rewrite combine_map_r, in_map_iff. split.
  - intros [[a c] [E Hin]]. cbn [fst snd] in E. inversion E; subst.
    pose proof (in_combine_r _ _ _ _ Hin) as Hc.
    rewrite (pi_pi_inv _ _ _ Hs c (Hlt c Hc)). exact Hin.
  - intros Hin. exists (i, s j). cbn [fst snd].
    rewrite (pi_inv_pi _ _ _ Hs j Hj). split; [reflexivity | exact Hin].
Qed.

Section PermutedSums.

Variables N K : nat.
Variables slot slot_inv : nat -> nat -> nat.
Hypothesis slot_perm :
  forall n, is_permutation K (slot n) (slot_inv n).
Variables alpha alpha' : weights.
Hypothesis alpha_rel :
  forall n i j, (n < N)%nat -> (j < K)%nat ->
    alpha' n i j = alpha n i (slot n j).

Lemma spec_matched_cost_permuted (c c' : nat -> nat -> nat -> Qc) :
  (forall n i j, c' n i j = c n i (slot n j)) ->
  spec_matched_cost N K alpha' c' = spec_matched_cost N K alpha c.
Proof.
  intros Hc. unfold spec_matched_cost. f_equal.
  apply sum_n_ext. intros n Hn. apply sum_n_ext. intros i Hi.
  rewrite <- (sum_n_reindex K (slot n) (slot_inv n) (slot_perm n)
                (fun j => alpha n i j * c n i j)).
  apply sum_n_ext. intros j Hj.
  rewrite alpha_rel, Hc by assumption. reflexivity.
Qed.

Lemma slot_assigned_permuted (n j : nat) :
  (n < N)%nat -> (j < K)%nat ->
  slot_assigned alpha' K n j = slot_assigned alpha K n (slot n j).
Proof.
  intros Hn Hj. unfold slot_assigned. apply existsb_ext_in.
  intros i _. rewrite alpha_rel by assumption. reflexivity.
Qed.

Lemma spec_prob_loss_permuted (p p' : tensor3) :
  (forall n j, score p' n j = score p n (slot n j)) ->
  spec_prob_loss N K alpha' p' = spec_prob_loss N K alpha p.
Proof.
  intros Hsc. unfold spec_prob_loss. f_equal; [f_equal |].
  - apply sum_n_ext. intros n Hn. rewrite !sum_list_filter.
    rewrite <- (sum_n_reindex K (slot n) (slot_inv n) (slot_perm n)
                  (fun j => if slot_assigned alpha K n j
                            then sq (score p n j - 1) else 0)).
    apply sum_n_ext. intros j Hj.
    rewrite slot_assigned_permuted, Hsc by assumption. reflexivity.
  - apply sum_n_ext. intros n Hn. rewrite !sum_list_filter.
    rewrite <- (sum_n_reindex K (slot n) (slot_inv n) (slot_perm n)
                  (fun j => if negb (slot_assigned alpha K n j)
                            then sq (score p n j + 1) else 0)).
    apply sum_n_ext. intros j Hj.
    rewrite slot_assigned_permuted, Hsc by assumption. reflexivity.
Qed.

End PermutedSums.

Section PermutedRun.

Variable solve : list (list Qc) -> list nat * list nat.
Hypothesis solve_contract : LsaContract solve.
Variable cfg : config.
Variables acts pred_acts : tensor3.
Variable n0 : nat.
Variables pi pi_inv : nat -> nat.
Hypothesis Hpi : is_permutation (shape1 acts) pi pi_inv.

Let pred' := permute_slots pred_acts n0 pi.
Let slot (n j : nat) : nat := if Nat.eqb n n0 then pi j else j.
Let slot_inv (n j : nat) : nat := if Nat.eqb n n0 then pi_inv j else j.

Variables alpha alpha' : weights.
Hypothesis alpha_char :
  forall n i j, (n < shape0 acts)%nat ->
    alpha n i j
    = indicator (in_matching (matching solve cfg acts pred_acts n) i j).
Hypothesis alpha_char' :
  forall n i j, (n < shape0 acts)%nat ->
    alpha' n i j = indicator (in_matching (matching solve cfg acts pred' n) i j).

Lemma permuted_item_pos_cost (n : nat) :
  (n < shape0 acts)%nat ->
  item_pos_cost cfg acts pred' alpha' n
  = item_pos_cost cfg acts pred_acts alpha n.
Proof.
  intros Hn.
  rewrite (item_pos_cost_is_solver_cost solve cfg acts pred' alpha' n
             solve_contract (fun i j => alpha_char' n i j Hn)).
  rewrite (item_pos_cost_is_solver_cost solve cfg acts pred_acts alpha n
             solve_contract (fun i j => alpha_char n i j Hn)).
  apply (permuted_optimal_value solve solve_contract cfg acts pred_acts
           n0 pi pi_inv Hpi).
Qed.

Lemma permuted_pos_matched_cost :
  spec_matched_cost (shape0 acts) (shape1 acts) alpha'
    (pos_cost cfg acts pred')
  = spec_matched_cost (shape0 acts) (shape1 acts) alpha
      (pos_cost cfg acts pred_acts).
Proof.
  unfold spec_matched_cost. f_equal. apply sum_n_ext. intros n Hn.
  exact (permuted_item_pos_cost n Hn).
Qed.

Lemma unpermuted_reduced_cost (n : nat) :
  n <> n0 ->
  reduced_cost cfg acts pred' n = reduced_cost cfg acts pred_acts n.
Proof.
  intros Hne. unfold reduced_cost.
  apply map_ext. intros i. apply map_ext. intros j. unfold pred'.
  rewrite (permuted_pos_cost cfg acts pred_acts n0 pi n i j).
  replace (Nat.eqb n n0) with false
    by (symmetry; apply Nat.eqb_neq; exact Hne).
  reflexivity.
Qed.

Hypothesis unique : unique_optimum cfg acts pred_acts n0.

Lemma permuted_choice (n : nat) :
  snd (solve (reduced_cost cfg acts pred' n))
  = map (slot_inv n) (snd (solve (reduced_cost cfg acts pred_acts n))).
Proof.
  unfold slot_inv. destruct (Nat.eqb_spec n n0) as [-> | Hne].
  - pose proof (solver_choice_optimal solve solve_contract cfg acts pred' n0)
      as Ho'.
    pose proof (solver_choice_optimal solve solve_contract cfg acts pred_acts n0)
      as Ho.
    pose proof (permuted_optimal cfg acts pred_acts n0 pi pi_inv Hpi n0 _ Ho')
      as Hm.
    assert (Hs : forall l,
              map (fun j => if Nat.eqb n0 n0 then pi j else j) l = map pi l).
    { intros l. apply map_ext. intros j. rewrite Nat.eqb_refl. reflexivity. }
    cbv beta in Hm. rewrite Hs in Hm.
    rewrite <- (unique _ _ Hm Ho).
    rewrite (map_pi_inv_pi _ _ _ Hpi); [reflexivity | apply Ho'].
  - rewrite (unpermuted_reduced_cost n Hne). symmetry. apply map_id.
Qed.

Lemma permuted_alpha (n i j : nat) :
  (n < shape0 acts)%nat -> (j < shape1 acts)%nat ->
  alpha' n i j = alpha n i (slot n j).
Proof.
  intros Hn Hj. rewrite alpha_char', alpha_char by exact Hn. f_equal.
  unfold matching. rewrite permuted_choice.
  apply (in_matching_permuted (shape1 acts) (slot n) (slot_inv n)).
  - exact (slot_permutation acts n0 pi pi_inv Hpi n).
  - apply (solver_choice_optimal solve solve_contract cfg acts pred_acts n).
  - exact Hj.
Qed.

Lemma permuted_full_matched_cost :
  spec_matched_cost (shape0 acts) (shape1 acts) alpha'
    (full_cost acts pred')
  = spec_matched_cost (shape0 acts) (shape1 acts) alpha
      (full_cost acts pred_acts).
Proof.
  apply (spec_matched_cost_permuted _ _ slot slot_inv
           (slot_permutation acts n0 pi pi_inv Hpi) _ _ permuted_alpha).
  intros n i j. apply (permuted_full_cost acts pred_acts n0 pi).
Qed.

Lemma permuted_spec_prob_loss :
  spec_prob_loss (shape0 acts) (shape1 acts) alpha' pred'
  = spec_prob_loss (shape0 acts) (shape1 acts) alpha pred_acts.
Proof.
  apply (spec_prob_loss_permuted _ _ slot slot_inv
           (slot_permutation acts n0 pi pi_inv Hpi) _ _ permuted_alpha).
  intros n j. apply (permuted_score pred_acts n0 pi).
Qed.

Lemma permuted_spec_loss :
  spec_loss cfg acts pred' alpha' = spec_loss cfg acts pred_acts alpha.
Proof.
  unfold spec_loss.
  rewrite permuted_full_matched_cost, permuted_spec_prob_loss. reflexivity.
Qed.

Lemma permuted_yaw_matched_cost :
  spec_matched_cost (shape0 acts) (shape1 acts) alpha'
    (yaw_cost cfg acts pred')
  = spec_matched_cost (shape0 acts) (shape1 acts) alpha
      (yaw_cost cfg acts pred_acts).
Proof.
  apply (spec_matched_cost_permuted _ _ slot slot_inv
           (slot_permutation acts n0 pi pi_inv Hpi) _ _ permuted_alpha).
  intros n i j. apply (permuted_yaw_cost cfg acts pred_acts n0 pi).
Qed.

End PermutedRun.

(** ** C8: permutation of the predicted trajectories *)

(** C8, as the code has it.  Permuting the predicted trajectories of one
    item (vectors and existence scores together) leaves [pos_loss]
    unchanged.  When that item has only one matching of minimum position
    cost, the loss, [prob_loss] and [yaw_loss] are unchanged too and the
    assignment matrix of the item has its columns permuted accordingly. *)
Theorem permuting_predicted_slots
  (solve : list (list Qc) -> list nat * list nat)
  (cfg : config) (acts pred_acts : tensor3)
  (n0 : nat) (pi pi_inv : nat -> nat) :
  LsaContract solve ->
  same_shape acts pred_acts ->
  (0 < traj_size_pos_ctrl_pts cfg)%nat ->
  (1 <= shape0 acts)%nat -> (2 <= shape1 acts)%nat ->
  (2 <= shape2 acts)%nat ->
  (n0 < shape0 acts)%nat ->
  is_permutation (shape1 acts) pi pi_inv ->
  exists a r a' r',
    (exists d, cost_matrices cfg acts pred_acts = Ok d
               /\ solve_assignment solve acts d = Ok a)
    /\ _calculate_loss solve cfg acts pred_acts = Ok r
    /\ (exists d', cost_matrices cfg acts (permute_slots pred_acts n0 pi) = Ok d'
                   /\ solve_assignment solve acts d' = Ok a')
    /\ _calculate_loss solve cfg acts (permute_slots pred_acts n0 pi) = Ok r'
    /\ pos_loss r' = pos_loss r
    /\ (unique_optimum cfg acts pred_acts n0 ->
        loss r' = loss r
        /\ spec_matched_cost (shape0 acts) (shape1 acts) (alpha_matrix a')
             (full_cost acts (permute_slots pred_acts n0 pi))
           = spec_matched_cost (shape0 acts) (shape1 acts) (alpha_matrix a)
               (full_cost acts pred_acts)
        /\ prob_loss r' = prob_loss r
        /\ yaw_loss r' = yaw_loss r
        /\ forall n i j, (n < shape0 acts)%nat -> (j < shape1 acts)%nat ->
             alpha_matrix a' n i j
             = alpha_matrix a n i (if Nat.eqb n n0 then pi j else j)).
Proof.
  intros Hc Hs HP HN HK HS Hn0 Hpi.
  destruct (calculate_loss_run solve cfg acts pred_acts Hc Hs HP HN HK HS)
    as [d [a [r [Hd [Ha [Hr Hf]]]]]].
  destruct (calculate_loss_run solve cfg acts (permute_slots pred_acts n0 pi)
              Hc Hs HP HN HK HS)
    as [d' [a' [r' [Hd' [Ha' [Hr' Hf']]]]]].
  exists a, r, a', r'.
  split; [exists d; split; assumption |]. split; [exact Hr |].
  split; [exists d'; split; assumption |]. split; [exact Hr' |].
  pose proof (rf_alpha _ _ _ _ _ _ _ Hf) as Hal.
  pose proof (rf_alpha _ _ _ _ _ _ _ Hf') as Hal'.
  split.
  - rewrite (rf_pos_loss _ _ _ _ _ _ _ Hf), (rf_pos_loss _ _ _ _ _ _ _ Hf').
    f_equal.
    exact (permuted_pos_matched_cost solve Hc cfg acts pred_acts n0 pi pi_inv
             Hpi _ _ Hal Hal').
  - intros Huniq. split; [| split; [| split; [| split]]].
    + rewrite (rf_loss _ _ _ _ _ _ _ Hf), (rf_loss _ _ _ _ _ _ _ Hf').
      f_equal.
      exact (permuted_spec_loss solve Hc cfg acts pred_acts n0 pi pi_inv
               Hpi _ _ Hal Hal' Huniq).
    + exact (permuted_full_matched_cost solve Hc cfg acts pred_acts n0 pi
               pi_inv Hpi _ _ Hal Hal' Huniq).
    + rewrite (rf_prob_loss _ _ _ _ _ _ _ Hf),
        (rf_prob_loss _ _ _ _ _ _ _ Hf').
      f_equal.
      exact (permuted_spec_prob_loss solve Hc cfg acts pred_acts n0 pi pi_inv
               Hpi _ _ Hal Hal' Huniq).
    + destruct (Nat.eq_dec (traj_size_yaw_ctrl_pts cfg) 0) as [HY | HY].
      * rewrite (rf_yaw_loss_nan _ _ _ _ _ _ _ Hf HY),
          (rf_yaw_loss_nan _ _ _ _ _ _ _ Hf' HY). reflexivity.
      * rewrite (rf_yaw_loss _ _ _ _ _ _ _ Hf) by lia.
        rewrite (rf_yaw_loss _ _ _ _ _ _ _ Hf') by lia.
        f_equal.
        exact (permuted_yaw_matched_cost solve Hc cfg acts pred_acts n0 pi
                 pi_inv Hpi _ _ Hal Hal' Huniq).
    + intros n i j Hn Hj.
      exact (permuted_alpha solve Hc cfg acts pred_acts n0 pi pi_inv
               Hpi _ _ Hal Hal' Huniq n i j Hn Hj).
Qed.

Lemma swap01_permutation : is_permutation 2 swap01 swap01.
Proof.
  intros j Hj. destruct j as [| [| j]]; cbn; repeat split; lia.
Qed.

(** The position costs [[1,4],[3,2]] have one optimal matching. *)
Lemma small_unique_optimum : unique_optimum cfg_4_1 acts_small pred_small 0.
Proof.
  assert (Hopt : forall cs, optimal_choice cfg_4_1 acts_small pred_small 0 cs ->
                            cs = [0; 1]%nat).
  { intros cs [Hf Hmin].
    change (length (valid_rows acts_small 0)) with 2%nat in Hf, Hmin.
    change (shape1 acts_small) with 2%nat in Hf, Hmin.
    pose proof (proj1 (feasible_in_injections 2 2 _) Hf) as Hin.
    cbn in Hin. destruct Hin as [E | [E | []]]; [symmetry; exact E |].
    exfalso. subst cs.
    assert (F01 : feasible 2 2 [0; 1]%nat)
      by (apply feasible_in_injections; cbn; auto).
    specialize (Hmin _ F01). revert Hmin. apply Qclt_not_le.
    vm_compute. reflexivity. }
  intros cs1 cs2 H1 H2. rewrite (Hopt _ H1), (Hopt _ H2). reflexivity.
Qed.

Lemma permuting_predicted_slots_witness :
  exists a r a' r',
    _calculate_loss lsa_exhaustive cfg_4_1 acts_small pred_small = Ok r
    /\ _calculate_loss lsa_exhaustive cfg_4_1 acts_small
         (permute_slots pred_small 0 swap01) = Ok r'
    /\ pos_loss r' = pos_loss r
    /\ loss r' = loss r
    /\ prob_loss r' = prob_loss r
    /\ yaw_loss r' = yaw_loss r
    /\ alpha_matrix a' 0%nat 0%nat 0%nat = alpha_matrix a 0%nat 0%nat 1%nat.
Proof.
  destruct (permuting_predicted_slots lsa_exhaustive cfg_4_1
              acts_small pred_small 0 swap01 swap01
              lsa_exhaustive_contract
              (same_shape_refl_list _ _ eq_refl eq_refl eq_refl)
              ltac:(simpl; lia) ltac:(simpl; lia) ltac:(simpl; lia)
              ltac:(simpl; lia) ltac:(simpl; lia) swap01_permutation)
    as [a [r [a' [r' [_ [Hr [_ [Hr' [Hpos Hu]]]]]]]]].
  destruct (Hu small_unique_optimum) as [Hl [_ [Hp [Hy Hal]]]].
  exists a, r, a', r'.
  repeat (split; [assumption |]).
  exact (Hal 0%nat 0%nat 0%nat ltac:(simpl; lia) ltac:(simpl; lia)).
Defined.

(** C8 fails when position costs tie.  The experts and the predictions of
    [acts_tie], [pred_tie] all have the same position, so the position cost
    matrix is zero before and after swapping the two predicted slots, and
    the solver returns the same columns both times: the loss is 0 before
    the swap and 1/4 after it. *)
Lemma tied_position_costs_change_the_loss :
  is_permutation 2 swap01 swap01
  /\ exists r r',
       _calculate_loss lsa_exhaustive cfg_1_1 acts_tie pred_tie = Ok r
       /\ _calculate_loss lsa_exhaustive cfg_1_1 acts_tie
            (permute_slots pred_tie 0 swap01) = Ok r'
       /\ loss r = Fin (Q2Qc 0)
       /\ loss r' = Fin (Q2Qc (1 # 4))
       /\ pos_loss r = Fin (Q2Qc 0)
       /\ pos_loss r' = Fin (Q2Qc 0).
Proof.
  split; [exact swap01_permutation |].
  eexists. eexists.
  split; [vm_compute; reflexivity |].
  split; [vm_compute; reflexivity |].
  repeat split; apply Fin_eq; vm_compute; reflexivity.
Qed.

Lemma identity_permutation (K : nat) :
  is_permutation K (fun j => j) (fun j => j).
Proof. intros j Hj. auto. Qed.

(** The loss formula reads [alpha] inside the batch only. *)
Lemma spec_loss_ext (cfg : config) (acts pred_acts : tensor3)
  (alpha beta : weights) :
  (forall n i j, (n < shape0 acts)%nat -> (j < shape1 acts)%nat ->
     alpha n i j = beta n i j) ->
  spec_loss cfg acts pred_acts alpha = spec_loss cfg acts pred_acts beta.
Proof.
  intros H. unfold spec_loss. f_equal; [| f_equal].
  - apply (spec_matched_cost_permuted _ _ (fun _ j => j) (fun _ j => j)
             (fun _ => identity_permutation _) _ _ H).
    reflexivity.
  - apply (spec_prob_loss_permuted _ _ (fun _ j => j) (fun _ j => j)
             (fun _ => identity_permutation _) _ _ H).
    reflexivity.
Qed.

(** The same holds whatever optimal solver is used: the solver sees one
    cost matrix before and after the swap, and each of its two possible
    answers gives the two batches different losses. *)
Lemma every_optimal_solver_changes_the_loss_on_ties
  (solve : list (list Qc) -> list nat * list nat) :
  LsaContract solve ->
  exists r r',
    _calculate_loss solve cfg_1_1 acts_tie pred_tie = Ok r
    /\ _calculate_loss solve cfg_1_1 acts_tie
         (permute_slots pred_tie 0 swap01) = Ok r'
    /\ ((loss r = Fin (Q2Qc 0) /\ loss r' = Fin (Q2Qc (1 # 4)))
        \/ (loss r = Fin (Q2Qc (1 # 4)) /\ loss r' = Fin (Q2Qc 0))).
Proof.
  intros Hc.
  destruct (calculate_loss_run solve cfg_1_1 acts_tie pred_tie Hc
              (same_shape_refl_list _ _ eq_refl eq_refl eq_refl)
              ltac:(simpl; lia) ltac:(simpl; lia) ltac:(simpl; lia)
              ltac:(simpl; lia))
    as [d [a [r [_ [_ [Hr Hf]]]]]].
  destruct (calculate_loss_run solve cfg_1_1 acts_tie
              (permute_slots pred_tie 0 swap01) Hc
              (same_shape_refl_list _ _ eq_refl eq_refl eq_refl)
              ltac:(simpl; lia) ltac:(simpl; lia) ltac:(simpl; lia)
              ltac:(simpl; lia))
    as [d' [a' [r' [_ [_ [Hr' Hf']]]]]].
  exists r, r'. split; [exact Hr |]. split; [exact Hr' |].
  pose proof (rf_alpha _ _ _ _ _ _ _ Hf) as Hal.
  pose proof (rf_alpha _ _ _ _ _ _ _ Hf') as Hal'.
  assert (HM : reduced_cost cfg_1_1 acts_tie (permute_slots pred_tie 0 swap01) 0
               = reduced_cost cfg_1_1 acts_tie pred_tie 0).
  { unfold reduced_cost.
    change (valid_rows acts_tie 0) with [0; 1]%nat.
    change (shape1 acts_tie) with 2%nat. cbn [map seq].
    repeat f_equal; apply Qc_is_canon; vm_compute; reflexivity. }
  assert (Hal0 : forall i j,
            alpha_matrix a 0%nat i j
            = indicator (in_matching
                (combine [0; 1]%nat
                   (snd (solve (reduced_cost cfg_1_1 acts_tie pred_tie 0))))
                i j)).
  { intros i j. apply Hal. simpl. lia. }
  assert (Hal0' : forall i j,
            alpha_matrix a' 0%nat i j
            = indicator (in_matching
                (combine [0; 1]%nat
                   (snd (solve (reduced_cost cfg_1_1 acts_tie pred_tie 0))))
                i j)).
  { intros i j. rewrite <- HM. apply Hal'. simpl. lia. }
  destruct (contract_on_item solve cfg_1_1 acts_tie pred_tie 0%nat Hc)
    as [_ [Hfeas _]].
  change (length (valid_rows acts_tie 0)) with 2%nat in Hfeas.
  change (shape1 acts_tie) with 2%nat in Hfeas.
  remember (snd (solve (reduced_cost cfg_1_1 acts_tie pred_tie 0))) as cs
    eqn:Ecs.
  clear Ecs Hal Hal' HM.
  apply feasible_in_injections in Hfeas. cbn in Hfeas.
  assert (Hone : forall n, (n < shape0 acts_tie)%nat -> n = 0%nat)
    by (intros n Hn; change (shape0 acts_tie) with 1%nat in Hn; lia).
  rewrite (rf_loss _ _ _ _ _ _ _ Hf), (rf_loss _ _ _ _ _ _ _ Hf').
  rewrite (spec_loss_ext _ _ pred_tie _
             (fun _ i j => indicator (in_matching (combine [0; 1]%nat cs) i j)))
    by (intros n i j Hn _; rewrite (Hone n Hn); apply Hal0).
  rewrite (spec_loss_ext _ _ (permute_slots pred_tie 0 swap01) _
             (fun _ i j => indicator (in_matching (combine [0; 1]%nat cs) i j)))
    by (intros n i j Hn _; rewrite (Hone n Hn); apply Hal0').
  destruct Hfeas as [E | [E | []]]; subst cs; [left | right];
    split; apply Fin_eq; vm_compute; reflexivity.
Qed.

(** * Further properties of the code *)

(** ** Order on the rationals *)

Lemma Qc_this_mult (x y : Qc) : (this (x * y) == this x * this y)%Q.
Proof. unfold Qcmult, Q2Qc. cbn [this]. apply Qred_correct. Qed.

Lemma Qc_this_inv (x : Qc) : (this (/ x) == / this x)%Q.
Proof. unfold Qcinv, Q2Qc. cbn [this]. apply Qred_correct. Qed.

Lemma sq_nonneg (x : Qc) : 0 <= sq x.
Proof.
  unfold sq, Qcle. rewrite Qc_this_mult.
  destruct (Qlt_le_dec (this x) 0%Q) as [Hn | Hp].
  - setoid_replace (this x * this x)%Q with ((- this x) * (- this x))%Q by ring.
    assert (0 <= - this x)%Q.
    { apply Qlt_le_weak. apply (Qopp_lt_compat (this x) 0%Q) in Hn. exact Hn. }
    apply Qmult_le_0_compat; assumption.
  - apply Qmult_le_0_compat; assumption.
Qed.

Lemma Qcmult_nonneg (x y : Qc) : 0 <= x -> 0 <= y -> 0 <= x * y.
Proof.
  unfold Qcle. intros Hx Hy. rewrite Qc_this_mult.
  apply Qmult_le_0_compat; assumption.
Qed.

Lemma Qcinv_nonneg (x : Qc) : 0 <= x -> 0 <= / x.
Proof.
  unfold Qcle. intros Hx. rewrite Qc_this_inv.
  apply Qinv_le_0_compat. exact Hx.
Qed.

Lemma Qcdiv_nonneg (x y : Qc) : 0 <= x -> 0 <= y -> 0 <= x / y.
Proof.
  intros Hx Hy. unfold Qcdiv. apply Qcmult_nonneg; [exact Hx |].
  apply Qcinv_nonneg. exact Hy.
Qed.

Lemma nat2Qc_nonneg (n : nat) : 0 <= nat2Qc n.
Proof.
  unfold nat2Qc, Qcle, Q2Qc. cbn [this].
  rewrite (Qred_correct (inject_Z (Z.of_nat n))).
  unfold Qle, inject_Z. cbn. lia.
Qed.

Lemma nat2Qc_S (n : nat) : nat2Qc (S n) = nat2Qc n + 1.
Proof.
  unfold nat2Qc. apply Qc_is_canon. unfold Qcplus, Q2Qc. cbn [this].
  rewrite !Qred_correct. rewrite Nat2Z.inj_succ.
  unfold Qeq, Qplus, inject_Z. cbn [Qnum Qden]. lia.
Qed.

Lemma Qc_nonneg_plus (x y : Qc) : 0 <= x -> 0 <= y -> 0 <= x + y.
Proof.
  intros Hx Hy. replace (0 : Qc) with (0 + 0) by ring.
  apply Qcplus_le_compat; assumption.
Qed.

Lemma Qc_nonneg_sum_zero (x y : Qc) :
  0 <= x -> 0 <= y -> x + y = 0 -> x = 0 /\ y = 0.
Proof.
  intros Hx Hy E.
  assert (Hx' : x <= 0).
  { assert (H : x + 0 <= x + y)
      by (apply Qcplus_le_compat; [apply Qcle_refl | exact Hy]).
    rewrite E in H. replace (x + 0) with x in H by ring. exact H. }
  assert (x = 0) by (apply Qcle_antisym; assumption).
  subst x. split; [reflexivity |]. rewrite <- E. ring.
Qed.

Lemma sq_zero (x : Qc) : sq x = 0 -> x = 0.
Proof. unfold sq. intros H. destruct (Qcmult_integral _ _ H); assumption. Qed.

Lemma sum_n_nonneg (n : nat) (f : nat -> Qc) :
  (forall k, (k < n)%nat -> 0 <= f k) -> 0 <= sum_n n f.
Proof.
  induction n as [| n IH]; intros H; cbn [sum_n]; [apply Qcle_refl |].
  apply Qc_nonneg_plus; [apply IH; intros; apply H; lia | apply H; lia].
Qed.

Lemma sum_n_le (n : nat) (f g : nat -> Qc) :
  (forall k, (k < n)%nat -> f k <= g k) -> sum_n n f <= sum_n n g.
Proof.
  induction n as [| n IH]; intros H; cbn [sum_n]; [apply Qcle_refl |].
  apply Qcplus_le_compat; [apply IH; intros; apply H; lia | apply H; lia].
Qed.

Lemma sum_n_zero_inv (n : nat) (f : nat -> Qc) :
  (forall k, (k < n)%nat -> 0 <= f k) -> sum_n n f = 0 ->
  forall k, (k < n)%nat -> f k = 0.
Proof.
  induction n as [| n IH]; intros Hf E k Hk; [lia |].
  cbn [sum_n] in E.
  destruct (Qc_nonneg_sum_zero _ _
              (sum_n_nonneg n f (fun j Hj => Hf j ltac:(lia)))
              (Hf n ltac:(lia)) E) as [E1 E2].
  destruct (Nat.eq_dec k n) as [-> | Hne]; [exact E2 |].
  apply IH; [intros; apply Hf; lia | exact E1 | lia].
Qed.

Lemma sum_list_nonneg (l : list Qc) :
  (forall x, In x l -> 0 <= x) -> 0 <= sum_list l.
Proof.
  induction l as [| x l IH]; intros H; cbn [sum_list fold_right];
    [apply Qcle_refl |].
  fold (sum_list l).
  apply Qc_nonneg_plus; [apply H; left; reflexivity |].
  apply IH. intros; apply H; right; assumption.
Qed.

Lemma sum_list_zero_inv (l : list Qc) :
  (forall x, In x l -> 0 <= x) -> sum_list l = 0 ->
  forall x, In x l -> x = 0.
Proof.
  induction l as [| y l IH]; intros Hf E x Hx; [destruct Hx |].
  cbn [sum_list fold_right] in E. fold (sum_list l) in E.
  destruct (Qc_nonneg_sum_zero _ _ (Hf y (or_introl eq_refl))
              (sum_list_nonneg l (fun z Hz => Hf z (or_intror Hz))) E)
    as [E1 E2].
  destruct Hx as [<- | Hx]; [exact E1 |].
  apply IH; [intros; apply Hf; right; assumption | exact E2 | exact Hx].
Qed.

Lemma sum_n_swap (a b : nat) (f : nat -> nat -> Qc) :
  sum_n a (fun i => sum_n b (fun j => f i j))
  = sum_n b (fun j => sum_n a (fun i => f i j)).
Proof.
  induction a as [| a IH]; cbn [sum_n].
  - symmetry. apply sum_n_zero. reflexivity.
  - rewrite IH, <- sum_n_plus. reflexivity.
Qed.

(** ** Which exception the loss computation raises *)

(** The loop body needs the two batch sizes and the two vector lengths to
    agree, an expert index [i] and a predicted index [j]; the set sizes may
    differ. *)
Lemma distance_step_ok_wide (cfg : config) (acts pred_acts : tensor3)
  (i j : nat) (d : distances) :
  shape0 acts = shape0 pred_acts -> shape2 acts = shape2 pred_acts ->
  (i < shape1 acts)%nat -> (j < shape1 pred_acts)%nat ->
  (2 <= shape2 acts)%nat ->
  exists d',
    distance_step cfg acts pred_acts i j d = Ok d'
    /\ cell_ok cfg acts pred_acts (i, j) d'
    /\ forall c, cell_ok cfg acts pred_acts c d -> cell_ok cfg acts pred_acts c d'.
Proof.
  intros H0 H2 Hi Hj HS.
  unfold distance_step, slice, select_time.
  rewrite <- H2, <- H0.
  replace (Nat.ltb i (shape1 acts)) with true by (symmetry; apply Nat.ltb_lt; lia).
  replace (Nat.ltb j (shape1 pred_acts)) with true
    by (symmetry; apply Nat.ltb_lt; lia).
  replace (Nat.leb 2 (shape2 acts)) with true by (symmetry; apply Nat.leb_le; lia).
  cbn [bind]. unfold mse_none2, mse_none1. cbn [rows cols len].
  rewrite !bdim_same. cbn [bind].
  unfold assign_col, div_int, sum_dim1. cbn [flen fat1 len rows cols at1 at2].
  rewrite !Nat.eqb_refl. cbn [orb bind].
  eexists. split; [reflexivity |]. split.
  - intros n Hn. cbn [fst snd distance_matrix distance_pos_matrix
                        distance_yaw_matrix distance_time_matrix].
    unfold assign_scalar. rewrite !Nat.eqb_refl. cbn [andb].
    rewrite (bidx_in_range _ _ Hn).
    unfold full_cell, pos_cell, yaw_cell, time_cell, sq_diff_sum, sum_dim0.
    cbn [len at1]. cbn zeta.
    repeat split.
    + f_equal. f_equal. same_sum.
    + f_equal. f_equal. same_sum.
    + f_equal. f_equal. same_sum.
    + f_equal. same_sum.
  - intros [i' j'] Hc n Hn. specialize (Hc n Hn).
    cbn [fst snd distance_matrix distance_pos_matrix
           distance_yaw_matrix distance_time_matrix] in *.
    unfold assign_scalar.
    destruct (Nat.eqb_spec i' i) as [-> | Hne];
      [destruct (Nat.eqb_spec j' j) as [-> | Hne] |]; cbn [andb];
      try exact Hc.
    rewrite (bidx_in_range _ _ Hn).
    unfold full_cell, pos_cell, yaw_cell, time_cell, sq_diff_sum, sum_dim0.
    cbn [len at1]. cbn zeta.
    repeat split.
    + f_equal. f_equal. same_sum.
    + f_equal. f_equal. same_sum.
    + f_equal. f_equal. same_sum.
    + f_equal. same_sum.
Qed.

(** A loop raises at the first element whose iteration raises. *)
Lemma for_each_raise_at {X A : Type} (l1 l2 : list X) (x : X)
  (body : X -> A -> result A) (e : exn) :
  (forall y s, In y l1 -> exists s', body y s = Ok s') ->
  (forall s, body x s = Raise e) ->
  forall s, for_each (l1 ++ x :: l2) body s = Raise e.
Proof.
  induction l1 as [| y l1 IH]; intros Hok Hx s; cbn [app for_each].
  - rewrite Hx. reflexivity.
  - destruct (Hok y s (or_introl eq_refl)) as [s1 E]. rewrite E. cbn [bind].
    apply IH; [intros; apply Hok; right; assumption | exact Hx].
Qed.

Lemma for_each_seq_raise {A : Type} (K : nat) (body : nat -> A -> result A)
  (s : A) (e : exn) :
  (1 <= K)%nat -> body 0%nat s = Raise e ->
  for_each (seq 0 K) body s = Raise e.
Proof.
  intros HK H. destruct K as [| k]; [lia |].
  cbn [seq for_each]. rewrite H. reflexivity.
Qed.

Lemma cost_matrices_ok_wide (cfg : config) (acts pred_acts : tensor3) :
  shape0 acts = shape0 pred_acts -> shape2 acts = shape2 pred_acts ->
  (shape1 acts <= shape1 pred_acts)%nat -> (2 <= shape2 acts)%nat ->
  exists d,
    cost_matrices cfg acts pred_acts = Ok d
    /\ forall i j, (i < shape1 acts)%nat -> (j < shape1 acts)%nat ->
         cell_ok cfg acts pred_acts (i, j) d.
Proof.
  intros H0 H2 HK HS. unfold cost_matrices.
  destruct (for_each_establish (fun i : nat => i)
              (fun i d => forall j, (j < shape1 acts)%nat ->
                                    cell_ok cfg acts pred_acts (i, j) d)
              (seq 0 (shape1 acts))
              (fun i => for_each (seq 0 (shape1 acts))
                          (fun j => distance_step cfg acts pred_acts i j)))
    with (s := Distances zeros zeros zeros zeros) as [d [E [G _]]].
  - intros i s Hi. apply in_seq in Hi.
    destruct (for_each_establish (fun j : nat => (i, j))
                (cell_ok cfg acts pred_acts)
                (seq 0 (shape1 acts))
                (fun j => distance_step cfg acts pred_acts i j))
      with (s := s) as [s' [E' [G' K']]].
    + intros j s0 Hj. apply in_seq in Hj.
      apply distance_step_ok_wide; try assumption; lia.
    + exists s'. split; [exact E' |]. split.
      * intros j Hj. apply G'. apply in_seq. lia.
      * intros y Hy j Hj. apply K', Hy, Hj.
  - exists d. split; [exact E |].
    intros i j Hi Hj. apply G; [apply in_seq; lia | exact Hj].
Qed.

(** X1. An empty batch, or a batch of empty trajectory sets, raises
    [ZeroDivisionError]: [norm_constant = 1/(batch_size * K)] is a division
    of Python integers. *)
Theorem empty_batch_raises_zero_division
  (solve : list (list Qc) -> list nat * list nat)
  (cfg : config) (acts pred_acts : tensor3) :
  same_shape acts pred_acts ->
  (2 <= shape2 acts)%nat ->
  (shape0 acts * shape1 acts = 0)%nat ->
  _calculate_loss solve cfg acts pred_acts = Raise ZeroDivisionError.
Proof.
  intros Hs HS Hz.
  destruct (cost_matrices_ok cfg acts pred_acts Hs HS) as [d [Hd _]].
  assert (Ha : exists a, solve_assignment solve acts d = Ok a).
  { unfold solve_assignment.
    destruct (Nat.ltb_spec 1 (shape1 acts)) as [HK | HK]; [| eauto].
    assert (HN : shape0 acts = 0%nat) by nia.
    rewrite HN. cbn [seq for_each bind]. eauto. }
  destruct Ha as [a Ha].
  unfold _calculate_loss. rewrite Hd. cbn [bind]. rewrite Ha. cbn [bind].
  destruct Hs as [H0 [H1 H2]]. unfold aggregate.
  replace (Nat.leb 1 (shape2 pred_acts)) with true
    by (symmetry; apply Nat.leb_le; lia).
  cbn [guard bind rows cols].
  rewrite <- H0, <- H1, !Nat.eqb_refl. cbn [py_assert bind].
  rewrite Hz. reflexivity.
Qed.

Lemma empty_batch_raises_zero_division_witness :
  _calculate_loss lsa_exhaustive cfg_1_1
    (Tensor3 0 2 4 (fun _ _ _ => 0)) (Tensor3 0 2 4 (fun _ _ _ => 0))
  = Raise ZeroDivisionError.
Proof.
  apply (empty_batch_raises_zero_division lsa_exhaustive cfg_1_1
           (Tensor3 0 2 4 (fun _ _ _ => 0)) (Tensor3 0 2 4 (fun _ _ _ => 0))).
  - repeat split.
  - simpl. lia.
  - reflexivity.
Defined.

(** X2. Trajectory vectors with fewer than two components raise
    [IndexError] in the first iteration of the double loop (the time
    scalar is read at index -2), whatever the rest of the input. *)
Theorem short_vectors_raise_index_error
  (solve : list (list Qc) -> list nat * list nat)
  (cfg : config) (acts pred_acts : tensor3) :
  (1 <= shape1 acts)%nat -> (shape2 acts < 2)%nat ->
  _calculate_loss solve cfg acts pred_acts = Raise IndexError.
Proof.
  intros HK HS.
  assert (Hstep : forall d,
            distance_step cfg acts pred_acts 0 0 d = Raise IndexError).
  { intros d. unfold distance_step, slice, select_time.
    replace (Nat.ltb 0 (shape1 acts)) with true
      by (symmetry; apply Nat.ltb_lt; lia).
    replace (Nat.leb 2 (shape2 acts)) with false
      by (symmetry; apply Nat.leb_gt; lia).
    cbn [bind]. destruct (Nat.ltb 0 (shape1 pred_acts)); reflexivity. }
  unfold _calculate_loss, cost_matrices.
  destruct (shape1 acts) as [| k] eqn:E; [lia |].
  cbn [seq for_each]. rewrite Hstep. reflexivity.
Qed.

Lemma short_vectors_raise_index_error_witness :
  _calculate_loss lsa_exhaustive cfg_1_1
    (tensor3_of_list [[[1]; [1]]]%Q) (tensor3_of_list [[[1]; [1]]]%Q)
  = Raise IndexError.
Proof.
  apply (short_vectors_raise_index_error lsa_exhaustive cfg_1_1
           (tensor3_of_list [[[1]; [1]]]%Q) (tensor3_of_list [[[1]; [1]]]%Q));
    simpl; lia.
Defined.

(** X3. When the policy returns fewer trajectories per item than the expert
    has (batch sizes and vector lengths agreeing), the loop indexes a
    predicted trajectory that does not exist: [IndexError]. *)
Theorem fewer_predicted_trajectories_raise_index_error
  (solve : list (list Qc) -> list nat * list nat)
  (cfg : config) (acts pred_acts : tensor3) :
  shape0 acts = shape0 pred_acts -> shape2 acts = shape2 pred_acts ->
  (2 <= shape2 acts)%nat ->
  (shape1 pred_acts < shape1 acts)%nat ->
  _calculate_loss solve cfg acts pred_acts = Raise IndexError.
Proof.
  intros H0 H2 HS HK.
  assert (Hinner : forall d,
            for_each (seq 0 (shape1 acts))
              (fun j => distance_step cfg acts pred_acts 0 j) d
            = Raise IndexError).
  { intros d.
    replace (shape1 acts)
      with (shape1 pred_acts + S (shape1 acts - S (shape1 pred_acts)))%nat
      by lia.
    rewrite seq_app. cbn [seq plus].
    apply for_each_raise_at.
    - intros j s Hj. apply in_seq in Hj.
      destruct (distance_step_ok_wide cfg acts pred_acts 0 j s H0 H2
                  ltac:(lia) ltac:(lia) HS) as [s' [E _]].
      exists s'. exact E.
    - intros s. unfold distance_step, slice.
      replace (Nat.ltb 0 (shape1 acts)) with true
        by (symmetry; apply Nat.ltb_lt; lia).
      rewrite Nat.ltb_irrefl. reflexivity. }
  unfold _calculate_loss, cost_matrices.
  rewrite (for_each_seq_raise (shape1 acts) _ _ IndexError);
    [reflexivity | lia | apply Hinner].
Qed.

Lemma fewer_predicted_trajectories_raise_index_error_witness :
  _calculate_loss lsa_exhaustive cfg_1_1 acts_two
    (tensor3_of_list [[[3; 0; 0; 1]]; [[0; 0; 3; -1]]]%Q)
  = Raise IndexError.
Proof.
  apply (fewer_predicted_trajectories_raise_index_error lsa_exhaustive cfg_1_1
           acts_two (tensor3_of_list [[[3; 0; 0; 1]]; [[0; 0; 3; -1]]]%Q));
    try reflexivity; simpl; lia.
Defined.

(** X4. When the policy returns more trajectories per item than the expert
    has, the loops and the assignment run on the first [K] predicted
    trajectories and the shape assertion before the aggregation fails:
    [AssertionError]. *)
Theorem more_predicted_trajectories_raise_assertion_error
  (solve : list (list Qc) -> list nat * list nat)
  (cfg : config) (acts pred_acts : tensor3) :
  LsaContract solve ->
  (0 < traj_size_pos_ctrl_pts cfg)%nat ->
  shape0 acts = shape0 pred_acts -> shape2 acts = shape2 pred_acts ->
  (2 <= shape2 acts)%nat ->
  (shape1 acts < shape1 pred_acts)%nat ->
  _calculate_loss solve cfg acts pred_acts = Raise AssertionError.
Proof.
  intros Hc HP H0 H2 HS HK.
  destruct (cost_matrices_ok_wide cfg acts pred_acts H0 H2 ltac:(lia) HS)
    as [d [Hd Hcells]].
  assert (Ha : exists a, solve_assignment solve acts d = Ok a).
  { destruct (Nat.le_gt_cases 2 (shape1 acts)) as [HK2 | HK2].
    - destruct (solve_assignment_ok solve Hc cfg acts pred_acts d HP
                  ltac:(lia) Hcells HK2) as [alpha [Ha _]].
      eexists. exact Ha.
    - unfold solve_assignment.
      replace (Nat.ltb 1 (shape1 acts)) with false
        by (symmetry; apply Nat.ltb_ge; lia).
      eauto. }
  destruct Ha as [a Ha].
  unfold _calculate_loss. rewrite Hd. cbn [bind]. rewrite Ha. cbn [bind].
  unfold aggregate.
  replace (Nat.leb 1 (shape2 pred_acts)) with true
    by (symmetry; apply Nat.leb_le; lia).
  cbn [guard bind rows cols].
  rewrite <- H0, Nat.eqb_refl. cbn [py_assert bind].
  replace (Nat.eqb (shape1 acts) (shape1 pred_acts)) with false
    by (symmetry; apply Nat.eqb_neq; lia).
  reflexivity.
Qed.

Lemma more_predicted_trajectories_raise_assertion_error_witness :
  _calculate_loss lsa_exhaustive cfg_1_1 acts_single
    (tensor3_of_list [[[3; 0; 0; 1]; [5; 0; 0; 1]]]%Q)
  = Raise AssertionError.
Proof.
  apply (more_predicted_trajectories_raise_assertion_error lsa_exhaustive
           cfg_1_1 acts_single
           (tensor3_of_list [[[3; 0; 0; 1]; [5; 0; 0; 1]]]%Q));
    try exact lsa_exhaustive_contract; try reflexivity; simpl; lia.
Defined.

Lemma finite_row_nan (f : nat -> tfloat) (K : nat) :
  (1 <= K)%nat -> f 0%nat = NotFinite ->
  finite_row (map f (seq 0 K)) = None.
Proof.
  intros HK H. destruct K as [| k]; [lia |].
  cbn [seq map finite_row]. rewrite H. reflexivity.
Qed.

Section NoPositionPoints.

Variable solve : list (list Qc) -> list nat * list nat.
Hypothesis solve_contract : LsaContract solve.
Variable cfg : config.
Variables acts pred_acts : tensor3.
Variable d : distances.

Hypothesis no_pos_ctrl_pts : traj_size_pos_ctrl_pts cfg = 0%nat.
Hypothesis has_last : (1 <= shape2 acts)%nat.
Hypothesis trajs : (1 <= shape1 acts)%nat.
Hypothesis cells :
  forall i j, (i < shape1 acts)%nat -> (j < shape1 acts)%nat ->
    cell_ok cfg acts pred_acts (i, j) d.

Lemma pos_entry_nan (n i j : nat) :
  (n < shape0 acts)%nat -> (i < shape1 acts)%nat -> (j < shape1 acts)%nat ->
  distance_pos_matrix d n i j = NotFinite.
Proof.
  intros Hn Hi Hj. destruct (cells i j Hi Hj n Hn) as [_ [E _]].
  cbn [fst snd] in E. rewrite E. unfold pos_cell. cbn zeta.
  rewrite no_pos_ctrl_pts. reflexivity.
Qed.

(** An item without valid experts hands scipy an empty matrix. *)
Lemma assign_item_all_deleted (n : nat) (alpha : weights) :
  valid_rows acts n = [] ->
  assign_item solve acts (distance_pos_matrix d) n alpha = Ok alpha.
Proof.
  intros Hempty. unfold assign_item.
  replace (Nat.leb 1 (shape2 acts)) with true
    by (symmetry; apply Nat.leb_le; exact has_last).
  cbn [guard bind].
  rewrite np_delete_filter, np_delete_rows.
  change (filter (fun i => negb (expert_deleted acts n i))
            (seq 0 (shape1 acts))) with (valid_rows acts n).
  rewrite Hempty. cbn [map]. unfold call_linear_sum_assignment.
  cbn [finite_matrix bind].
  destruct (solve_contract 0%nat (shape1 acts) [])
    as [Hrows _]; [split; [reflexivity | constructor] | lia |].
  rewrite Hrows. reflexivity.
Qed.

(** An item with a valid expert hands scipy a matrix of nan. *)
Lemma assign_item_nan (n : nat) (alpha : weights) :
  (n < shape0 acts)%nat -> valid_rows acts n <> [] ->
  assign_item solve acts (distance_pos_matrix d) n alpha = Raise ValueError.
Proof.
  intros Hn Hne. unfold assign_item.
  replace (Nat.leb 1 (shape2 acts)) with true
    by (symmetry; apply Nat.leb_le; exact has_last).
  cbn [guard bind].
  rewrite np_delete_filter, np_delete_rows.
  change (filter (fun i => negb (expert_deleted acts n i))
            (seq 0 (shape1 acts))) with (valid_rows acts n).
  destruct (valid_rows acts n) as [| i0 rest] eqn:E; [contradiction |].
  assert (Hi0 : (i0 < shape1 acts)%nat).
  { assert (Hin : In i0 (valid_rows acts n)) by (rewrite E; left; reflexivity).
    apply valid_rows_spec in Hin. tauto. }
  unfold call_linear_sum_assignment. cbn [map finite_matrix].
  assert (Hrow : finite_row
                   (map (fun j => distance_pos_matrix d n i0 j)
                      (seq 0 (shape1 acts))) = None).
  { apply finite_row_nan; [exact trajs |].
    apply pos_entry_nan; [exact Hn | exact Hi0 | exact trajs]. }
  rewrite Hrow. reflexivity.
Qed.

Lemma assign_items_nan (l : list nat) :
  (forall n, In n l -> (n < shape0 acts)%nat) ->
  (exists n, In n l /\ valid_rows acts n <> []) ->
  forall alpha,
    for_each l (assign_item solve acts (distance_pos_matrix d)) alpha
    = Raise ValueError.
Proof.
  induction l as [| n0 l IH]; intros Hl [n [Hin Hne]] alpha;
    [destruct Hin |].
  cbn [for_each].
  destruct (valid_rows acts n0) as [| i0 rest] eqn:E.
  - rewrite (assign_item_all_deleted n0 alpha E). cbn [bind].
    apply IH; [intros; apply Hl; right; assumption |].
    exists n. split; [| exact Hne].
    destruct Hin as [-> | Hin]; [congruence | exact Hin].
  - rewrite (assign_item_nan n0 alpha (Hl n0 (or_introl eq_refl)));
      [reflexivity | congruence].
Qed.

End NoPositionPoints.

(** X5. With no position control points ([P = 0]) the position cost is
    0/0; as soon as one item has an expert that is not deleted, scipy is
    handed a matrix of nan and the computation raises [ValueError]. *)
Theorem no_position_points_raise_value_error
  (solve : list (list Qc) -> list nat * list nat)
  (cfg : config) (acts pred_acts : tensor3) :
  LsaContract solve ->
  same_shape acts pred_acts ->
  traj_size_pos_ctrl_pts cfg = 0%nat ->
  (2 <= shape1 acts)%nat -> (2 <= shape2 acts)%nat ->
  (exists n i, (n < shape0 acts)%nat /\ (i < shape1 acts)%nat
               /\ expert_deleted acts n i = false) ->
  _calculate_loss solve cfg acts pred_acts = Raise ValueError.
Proof.
  intros Hc Hs HP HK HS [n [i [Hn [Hi Hv]]]].
  destruct (cost_matrices_ok cfg acts pred_acts Hs HS) as [d [Hd Hcells]].
  unfold _calculate_loss. rewrite Hd. cbn [bind].
  unfold solve_assignment.
  replace (Nat.ltb 1 (shape1 acts)) with true
    by (symmetry; apply Nat.ltb_lt; lia).
  rewrite (assign_items_nan solve Hc cfg acts pred_acts d HP
             ltac:(lia) ltac:(lia) Hcells).
  - reflexivity.
  - intros m Hm. apply in_seq in Hm. lia.
  - exists n. split; [apply in_seq; lia |].
    intros E.
    assert (Hin : In i (valid_rows acts n))
      by (apply valid_rows_spec; split; assumption).
    rewrite E in Hin. destruct Hin.
Qed.

Lemma no_position_points_raise_value_error_witness :
  _calculate_loss lsa_exhaustive (Config 0 2 1) acts_two pred_two
  = Raise ValueError.
Proof.
  apply (no_position_points_raise_value_error lsa_exhaustive (Config 0 2 1)
           acts_two pred_two lsa_exhaustive_contract
           (same_shape_refl_list _ _ eq_refl eq_refl eq_refl) eq_refl
           ltac:(simpl; lia) ltac:(simpl; lia)).
  exists 0%nat, 0%nat. split; [simpl; lia |]. split; [simpl; lia |].
  vm_compute. reflexivity.
Defined.

(** ** Signs and bounds of the returned values *)

Lemma Qc_0_le_1 : (0 : Qc) <= 1.
Proof. unfold Qcle, Qle. simpl. lia. Qed.

Lemma indicator_nonneg (b : bool) : 0 <= indicator b.
Proof. destruct b; [exact Qc_0_le_1 | apply Qcle_refl]. Qed.

Lemma sq_diff_sum_nonneg (acts pred_acts : tensor3) (n i j lo cnt : nat) :
  0 <= sq_diff_sum acts pred_acts n i j lo cnt.
Proof. apply sum_n_nonneg. intros. apply sq_nonneg. Qed.

Lemma full_cost_nonneg (acts pred_acts : tensor3) (n i j : nat) :
  0 <= full_cost acts pred_acts n i j.
Proof.
  apply Qcdiv_nonneg; [apply sq_diff_sum_nonneg | apply nat2Qc_nonneg].
Qed.

Lemma pos_cost_nonneg (cfg : config) (acts pred_acts : tensor3) (n i j : nat) :
  0 <= pos_cost cfg acts pred_acts n i j.
Proof.
  apply Qcdiv_nonneg; [apply sq_diff_sum_nonneg | apply nat2Qc_nonneg].
Qed.

Lemma time_cost_nonneg (acts pred_acts : tensor3) (n i j : nat) :
  0 <= time_cost acts pred_acts n i j.
Proof. apply sum_n_nonneg. intros. apply sq_nonneg. Qed.

Lemma norm_constant_nonneg (m : nat) : 0 <= 1 / nat2Qc m.
Proof. apply Qcdiv_nonneg; [exact Qc_0_le_1 | apply nat2Qc_nonneg]. Qed.

Lemma spec_matched_cost_nonneg (N K : nat) (alpha : weights)
  (c : nat -> nat -> nat -> Qc) :
  (forall n i j, (n < N)%nat -> 0 <= alpha n i j) ->
  (forall n i j, 0 <= c n i j) ->
  0 <= spec_matched_cost N K alpha c.
Proof.
  intros Ha Hc. unfold spec_matched_cost.
  apply Qcmult_nonneg; [apply norm_constant_nonneg |].
  apply sum_n_nonneg. intros n Hn.
  apply sum_n_nonneg. intros i _. apply sum_n_nonneg. intros j _.
  apply Qcmult_nonneg; [apply Ha; exact Hn | apply Hc].
Qed.

Lemma spec_prob_loss_nonneg (N K : nat) (alpha : weights) (p : tensor3) :
  0 <= spec_prob_loss N K alpha p.
Proof.
  unfold spec_prob_loss. apply Qc_nonneg_plus.
  - apply Qcmult_nonneg; [apply norm_constant_nonneg |].
    apply sum_n_nonneg. intros n _. apply sum_list_nonneg.
    intros x Hx. apply in_map_iff in Hx. destruct Hx as [j [<- _]].
    apply sq_nonneg.
  - apply sum_n_nonneg. intros n _. apply sum_list_nonneg.
    intros x Hx. apply in_map_iff in Hx. destruct Hx as [j [<- _]].
    apply sq_nonneg.
Qed.

Lemma Qcmult_le_compat_l (x y z : Qc) : x <= y -> 0 <= z -> z * x <= z * y.
Proof.
  intros H Hz. rewrite (Qcmult_comm z x), (Qcmult_comm z y).
  apply Qcmult_le_compat_r; assumption.
Qed.


(** * The range of the computed values *)

From Stdlib Require Import Lqa.

Lemma Qc_this_plus (x y : Qc) : (this (x + y) == this x + this y)%Q.
Proof. unfold Qcplus, Q2Qc. cbn [this]. apply Qred_correct. Qed.

Lemma Qc_this_opp (x : Qc) : (this (- x) == - this x)%Q.
Proof. unfold Qcopp, Q2Qc. cbn [this]. apply Qred_correct. Qed.

Lemma Qc_this_minus (x y : Qc) : (this (x - y) == this x - this y)%Q.
Proof. unfold Qcminus. rewrite Qc_this_plus, Qc_this_opp. reflexivity. Qed.

(** Order statements on [Qc] as statements on [Q]. *)
Ltac to_Q :=
  unfold Qcle, Qclt in *;
  repeat rewrite ?Qc_this_plus, ?Qc_this_mult, ?Qc_this_opp, ?Qc_this_minus
    in *;
  change (this 0) with 0%Q in *; change (this 1) with 1%Q in *.

Lemma sq_diff_le (x y b : Qc) :
  - b <= x -> x <= b -> - b <= y -> y <= b -> sq (x - y) <= sq (b + b).
Proof. unfold sq. intros H1 H2 H3 H4. to_Q. nra. Qed.

Lemma sq_shift_le (x b : Qc) :
  - b <= x -> x <= b -> sq (x - 1) <= sq (b + 1) /\ sq (x + 1) <= sq (b + 1).
Proof. unfold sq. intros H1 H2. to_Q. split; nra. Qed.

Lemma nat2Qc_le (n m : nat) : (n <= m)%nat -> nat2Qc n <= nat2Qc m.
Proof.
  intros H. unfold nat2Qc, Qcle, Q2Qc. cbn [this].
  rewrite !Qred_correct. unfold Qle, inject_Z. cbn. lia.
Qed.

Lemma nat2Qc_mult (n m : nat) : nat2Qc (n * m) = nat2Qc n * nat2Qc m.
Proof.
  unfold nat2Qc. apply Qc_is_canon. unfold Qcmult, Q2Qc. cbn [this].
  rewrite !Qred_correct. rewrite Nat2Z.inj_mul.
  unfold Qeq, Qmult, inject_Z. cbn [Qnum Qden]. lia.
Qed.

Lemma nat2Qc_1 : nat2Qc 1 = 1.
Proof. apply Qc_is_canon. reflexivity. Qed.

Lemma sum_n_bound (n : nat) (f : nat -> Qc) (c : Qc) :
  (forall k, (k < n)%nat -> f k <= c) -> sum_n n f <= nat2Qc n * c.
Proof.
  induction n as [| n IH]; intros H.
  - cbn [sum_n]. replace (nat2Qc 0) with (0 : Qc) by (apply Qc_is_canon; reflexivity).
    rewrite Qcmult_0_l. apply Qcle_refl.
  - cbn [sum_n]. rewrite nat2Qc_S.
    replace ((nat2Qc n + 1) * c) with (nat2Qc n * c + c) by ring.
    apply Qcplus_le_compat; [apply IH; intros; apply H; lia | apply H; lia].
Qed.

(** Dividing a non-negative value by a positive count does not increase
    it. *)
Lemma Qcdiv_nat_le (x : Qc) (d : nat) :
  0 <= x -> (1 <= d)%nat -> x / nat2Qc d <= x.
Proof.
  intros Hx Hd.
  assert (H1 : 1 <= nat2Qc d) by (rewrite <- nat2Qc_1; apply nat2Qc_le; exact Hd).
  assert (Hne : nat2Qc d <> 0).
  { intros E. rewrite E in H1. revert H1. apply Qclt_not_le. reflexivity. }
  assert (E : x = x / nat2Qc d * nat2Qc d) by (field; exact Hne).
  assert (Hq : 0 <= x / nat2Qc d).
  { apply Qcdiv_nonneg; [exact Hx | apply nat2Qc_nonneg]. }
  rewrite E at 2. set (q := x / nat2Qc d) in *. clearbody q. clear E.
  to_Q. nra.
Qed.

(** ** The cost matrices of a bounded batch *)

Section BoundedCells.

Variable cfg : config.
Variables acts pred_acts : tensor3.
Variable B : Qc.

Hypothesis shapes : same_shape acts pred_acts.
Hypothesis bounded_acts : bounded_by B acts.
Hypothesis bounded_pred : bounded_by B pred_acts.

Lemma sq_diff_sum_bound (n i j lo cnt : nat) :
  (n < shape0 acts)%nat -> (i < shape1 acts)%nat -> (j < shape1 acts)%nat ->
  (cnt = 0%nat \/ lo + cnt <= shape2 acts)%nat ->
  sq_diff_sum acts pred_acts n i j lo cnt <= nat2Qc cnt * sq (B + B).
Proof.
  intros Hn Hi Hj Hc. destruct shapes as [S0 [S1 S2]].
  unfold sq_diff_sum. apply sum_n_bound. intros k Hk.
  destruct (bounded_acts n i (lo + k)%nat) as [A1 A2]; [lia | lia | lia |].
  destruct (bounded_pred n j (lo + k)%nat) as [P1 P2]; [lia | lia | lia |].
  apply sq_diff_le; assumption.
Qed.

Lemma sq_diff_sum_le_cost_bound (n i j lo cnt : nat) :
  (n < shape0 acts)%nat -> (i < shape1 acts)%nat -> (j < shape1 acts)%nat ->
  (cnt = 0%nat \/ lo + cnt <= shape2 acts)%nat ->
  sq_diff_sum acts pred_acts n i j lo cnt <= cost_bound B acts.
Proof.
  intros Hn Hi Hj Hc.
  eapply Qcle_trans; [apply sq_diff_sum_bound; assumption |].
  unfold cost_bound.
  assert (H1 : nat2Qc cnt <= nat2Qc (Nat.max (shape2 acts) (shape0 acts)))
    by (apply nat2Qc_le; lia).
  assert (H2 := sq_nonneg (B + B)).
  assert (H3 := nat2Qc_nonneg cnt).
  set (a := nat2Qc cnt) in *. set (b := nat2Qc (Nat.max _ _)) in *.
  set (s := sq (B + B)) in *. clearbody a b s.
  to_Q. nra.
Qed.

Lemma full_cost_le (n i j : nat) :
  (n < shape0 acts)%nat -> (i < shape1 acts)%nat -> (j < shape1 acts)%nat ->
  (1 <= shape2 acts)%nat ->
  full_cost acts pred_acts n i j <= cost_bound B acts.
Proof.
  intros Hn Hi Hj HS. unfold full_cost.
  eapply Qcle_trans;
    [apply Qcdiv_nat_le; [apply sq_diff_sum_nonneg | exact HS] |].
  apply sq_diff_sum_le_cost_bound; try assumption. right. lia.
Qed.

Lemma pos_cost_le (n i j : nat) :
  (n < shape0 acts)%nat -> (i < shape1 acts)%nat -> (j < shape1 acts)%nat ->
  (0 < traj_size_pos_ctrl_pts cfg)%nat ->
  pos_cost cfg acts pred_acts n i j <= cost_bound B acts.
Proof.
  intros Hn Hi Hj HP. unfold pos_cost. cbn zeta.
  eapply Qcle_trans;
    [apply Qcdiv_nat_le; [apply sq_diff_sum_nonneg | exact HP] |].
  apply sq_diff_sum_le_cost_bound; try assumption. right. lia.
Qed.

Lemma yaw_cost_nonneg (n i j : nat) : 0 <= yaw_cost cfg acts pred_acts n i j.
Proof.
  apply Qcdiv_nonneg; [apply sq_diff_sum_nonneg | apply nat2Qc_nonneg].
Qed.

Lemma yaw_cost_le (n i j : nat) :
  (n < shape0 acts)%nat -> (i < shape1 acts)%nat -> (j < shape1 acts)%nat ->
  (0 < traj_size_yaw_ctrl_pts cfg)%nat ->
  yaw_cost cfg acts pred_acts n i j <= cost_bound B acts.
Proof.
  intros Hn Hi Hj HY. unfold yaw_cost. cbn zeta.
  eapply Qcle_trans;
    [apply Qcdiv_nat_le; [apply sq_diff_sum_nonneg | exact HY] |].
  apply sq_diff_sum_le_cost_bound; try assumption. lia.
Qed.

Lemma time_cost_le (n i j : nat) :
  (i < shape1 acts)%nat -> (j < shape1 acts)%nat ->
  (2 <= shape2 acts)%nat ->
  time_cost acts pred_acts n i j <= cost_bound B acts.
Proof.
  intros Hi Hj HS. destruct shapes as [S0 [S1 S2]]. unfold time_cost.
  eapply Qcle_trans.
  - apply (sum_n_bound _ _ (sq (B + B))). intros m Hm.
    destruct (bounded_acts m i (shape2 acts - 2)%nat) as [A1 A2]; [lia | lia | lia |].
    destruct (bounded_pred m j (shape2 acts - 2)%nat) as [P1 P2]; [lia | lia | lia |].
    apply sq_diff_le; assumption.
  - unfold cost_bound.
    assert (H1 : nat2Qc (shape0 acts)
                 <= nat2Qc (Nat.max (shape2 acts) (shape0 acts)))
      by (apply nat2Qc_le; lia).
    assert (H2 := sq_nonneg (B + B)).
    assert (H3 := nat2Qc_nonneg (shape0 acts)).
    set (a := nat2Qc (shape0 acts)) in *. set (b := nat2Qc (Nat.max _ _)) in *.
    set (s := sq (B + B)) in *. clearbody a b s.
    to_Q. nra.
Qed.

End BoundedCells.

(** ** The returned values of a bounded batch *)

Lemma float32_max_nonneg : 0 <= float32_max.
Proof. unfold Qcle, Qle. vm_compute. discriminate. Qed.

Lemma in_range_nonneg (q : Qc) :
  0 <= q -> q <= float32_max -> in_float32_range (Fin q).
Proof.
  intros H0 H1. split; [| exact H1].
  assert (H := float32_max_nonneg).
  set (m := float32_max) in *. clearbody m. to_Q. lra.
Qed.

Lemma indicator_le_1 (b : bool) : indicator b <= 1.
Proof. destruct b; [apply Qcle_refl | exact Qc_0_le_1]. Qed.

Lemma spec_matched_cost_le (N K : nat) (alpha : weights)
  (c : nat -> nat -> nat -> Qc) (C : Qc) :
  (1 <= N * K)%nat ->
  (forall n i j, (n < N)%nat -> 0 <= alpha n i j /\ alpha n i j <= 1) ->
  (forall n i j, (n < N)%nat -> (i < K)%nat -> (j < K)%nat ->
     0 <= c n i j /\ c n i j <= C) ->
  spec_matched_cost N K alpha c <= nat2Qc (N * K * K) * C.
Proof.
  intros HNK Ha Hc. unfold spec_matched_cost.
  set (s := sum_n N _).
  assert (Hs0 : 0 <= s).
  { apply sum_n_nonneg. intros n Hn. apply sum_n_nonneg. intros i Hi.
    apply sum_n_nonneg. intros j Hj.
    apply Qcmult_nonneg; [apply Ha; exact Hn | apply Hc; assumption]. }
  assert (Hs1 : s <= nat2Qc (N * K * K) * C).
  { rewrite !nat2Qc_mult.
    replace (nat2Qc N * nat2Qc K * nat2Qc K * C)
      with (nat2Qc N * (nat2Qc K * (nat2Qc K * C))) by ring.
    apply sum_n_bound. intros n Hn. apply sum_n_bound. intros i Hi.
    apply sum_n_bound. intros j Hj.
    destruct (Ha n i j Hn) as [A0 A1]. destruct (Hc n i j Hn Hi Hj) as [C0 C1].
    set (x := alpha n i j) in *. set (y := c n i j) in *. clearbody x y.
    to_Q. nra. }
  replace (1 / nat2Qc (N * K) * s) with (s / nat2Qc (N * K))
    by (unfold Qcdiv; ring).
  eapply Qcle_trans; [apply Qcdiv_nat_le; assumption | exact Hs1].
Qed.

Lemma spec_prob_loss_le (N K : nat) (alpha : weights) (p : tensor3) (B : Qc) :
  bounded_by B p ->
  N = shape0 p -> K = shape1 p -> (1 <= shape2 p)%nat ->
  (1 <= N)%nat -> (2 <= K)%nat ->
  spec_prob_loss N K alpha p <= nat2Qc (N * K * K) * sq (B + 1).
Proof.
  intros Hb HN HK HS H1 H2. unfold spec_prob_loss.
  set (s1 := sum_n N (fun n => sum_list (map (fun j => sq (score p n j - 1)) _))).
  set (s2 := sum_n N (fun n => sum_list (map (fun j => sq (score p n j + 1)) _))).
  assert (Hsc : forall n j, (n < N)%nat -> (j < K)%nat ->
            sq (score p n j - 1) <= sq (B + 1)
            /\ sq (score p n j + 1) <= sq (B + 1)).
  { intros n j Hn Hj. unfold score.
    destruct (Hb n j (shape2 p - 1)%nat) as [A1 A2]; [lia | lia | lia |].
    apply sq_shift_le; assumption. }
  assert (Hpb := sq_nonneg (B + 1)).
  assert (Hs10 : 0 <= s1).
  { apply sum_n_nonneg. intros n _. apply sum_list_nonneg.
    intros x Hx. apply in_map_iff in Hx. destruct Hx as [j [<- _]].
    apply sq_nonneg. }
  assert (Hs11 : s1 <= nat2Qc N * (nat2Qc K * sq (B + 1))).
  { apply sum_n_bound. intros n Hn. rewrite sum_list_filter.
    apply sum_n_bound. intros j Hj.
    destruct (slot_assigned alpha K n j); [apply Hsc; assumption | exact Hpb]. }
  assert (Hs21 : s2 <= nat2Qc N * (nat2Qc K * sq (B + 1))).
  { apply sum_n_bound. intros n Hn. rewrite sum_list_filter.
    apply sum_n_bound. intros j Hj.
    destruct (negb (slot_assigned alpha K n j));
      [apply Hsc; assumption | exact Hpb]. }
  assert (Hn1 : 1 / nat2Qc (N * K) * s1 <= s1).
  { replace (1 / nat2Qc (N * K) * s1) with (s1 / nat2Qc (N * K))
      by (unfold Qcdiv; ring).
    apply Qcdiv_nat_le; [exact Hs10 | nia]. }
  assert (HK2 : 1 + 1 <= nat2Qc K).
  { replace (1 + 1 : Qc) with (nat2Qc 2) by (apply Qc_is_canon; reflexivity).
    apply nat2Qc_le. exact H2. }
  assert (HN0 := nat2Qc_nonneg N).
  set (t := 1 / nat2Qc (N * K) * s1) in *.
  rewrite !nat2Qc_mult.
  set (a := nat2Qc N) in *. set (b := nat2Qc K) in *.
  set (q := sq (B + 1)) in *. clearbody t a b q s1 s2.
  assert (Hu : 0 <= b * (a * q)).
  { apply Qcmult_nonneg; [| apply Qcmult_nonneg; assumption]. to_Q. lra. }
  replace (a * (b * q)) with (b * (a * q)) in Hs11, Hs21 by ring.
  replace (a * b * b * q) with (b * (b * (a * q))) by ring.
  set (u := b * (a * q)) in *. clearbody u. to_Q. nra.
Qed.

Section BoundedRun.

Variable cfg : config.
Variables acts pred_acts : tensor3.
Variable B : Qc.
Variable alpha : weights.

Hypothesis shapes : same_shape acts pred_acts.
Hypothesis bounded_acts : bounded_by B acts.
Hypothesis bounded_pred : bounded_by B pred_acts.
Hypothesis pos_ctrl_pts : (0 < traj_size_pos_ctrl_pts cfg)%nat.
Hypothesis batch : (1 <= shape0 acts)%nat.
Hypothesis trajs : (2 <= shape1 acts)%nat.
Hypothesis elems : (2 <= shape2 acts)%nat.
Hypothesis weight_nonneg : 0 <= weight_prob cfg.
Hypothesis alpha_01 :
  forall n i j, (n < shape0 acts)%nat ->
    0 <= alpha n i j /\ alpha n i j <= 1.
Hypothesis no_overflow : loss_bound cfg B acts <= float32_max.

Let NKK := nat2Qc (shape0 acts * shape1 acts * shape1 acts).

Lemma NKK_ge_1 : 1 <= NKK.
Proof.
  unfold NKK. rewrite <- nat2Qc_1. apply nat2Qc_le. nia.
Qed.

Lemma cost_bound_nonneg : 0 <= cost_bound B acts.
Proof.
  unfold cost_bound.
  apply Qcmult_nonneg; [apply Qc_nonneg_plus; exact Qc_0_le_1 |].
  apply Qcmult_nonneg; [apply nat2Qc_nonneg | apply sq_nonneg].
Qed.

Lemma matched_le_loss_bound (x : Qc) :
  x <= NKK * cost_bound B acts -> x <= float32_max.
Proof.
  intros Hx. eapply Qcle_trans; [| exact no_overflow].
  eapply Qcle_trans; [exact Hx |].
  unfold loss_bound. fold NKK.
  assert (H1 := NKK_ge_1). assert (H2 := cost_bound_nonneg).
  assert (H3 := sq_nonneg (B + 1)). assert (H4 := weight_nonneg).
  set (c := cost_bound B acts) in *. set (q := sq (B + 1)) in *.
  set (w := weight_prob cfg) in *. set (k := NKK) in *.
  clearbody c q w k.
  assert (H5 : 0 <= k * (c + q)).
  { apply Qcmult_nonneg; [| apply Qc_nonneg_plus; assumption].
    to_Q. lra. }
  assert (H6 : k * c <= k * (c + q)).
  { replace (k * (c + q)) with (k * c + k * q) by ring.
    assert (0 <= k * q) by (apply Qcmult_nonneg; [to_Q; lra | assumption]).
    set (kc := k * c) in *. set (kq := k * q) in *. clearbody kc kq.
    to_Q. lra. }
  set (u := k * (c + q)) in *. set (v := k * c) in *. clearbody u v.
  to_Q. nra.
Qed.

Lemma cost_bound_in_range : cost_bound B acts <= float32_max.
Proof.
  apply matched_le_loss_bound.
  assert (H1 := NKK_ge_1). assert (H2 := cost_bound_nonneg).
  set (c := cost_bound B acts) in *. set (k := NKK) in *. clearbody c k.
  to_Q. nra.
Qed.

Lemma matched_pos_in_range :
  spec_matched_cost (shape0 acts) (shape1 acts) alpha
    (pos_cost cfg acts pred_acts) <= float32_max.
Proof.
  apply matched_le_loss_bound. unfold NKK.
  apply spec_matched_cost_le; [nia | exact alpha_01 |].
  intros n i j Hn Hi Hj. split; [apply pos_cost_nonneg |].
  apply pos_cost_le; assumption.
Qed.

Lemma matched_time_in_range :
  spec_matched_cost (shape0 acts) (shape1 acts) alpha
    (time_cost acts pred_acts) <= float32_max.
Proof.
  apply matched_le_loss_bound. unfold NKK.
  apply spec_matched_cost_le; [nia | exact alpha_01 |].
  intros n i j Hn Hi Hj. split; [apply time_cost_nonneg |].
  apply time_cost_le; assumption.
Qed.

Lemma matched_yaw_in_range :
  (0 < traj_size_yaw_ctrl_pts cfg)%nat ->
  spec_matched_cost (shape0 acts) (shape1 acts) alpha
    (yaw_cost cfg acts pred_acts) <= float32_max.
Proof.
  intros HY. apply matched_le_loss_bound. unfold NKK.
  apply spec_matched_cost_le; [nia | exact alpha_01 |].
  intros n i j Hn Hi Hj. split; [apply yaw_cost_nonneg |].
  apply yaw_cost_le; assumption.
Qed.

Lemma spec_loss_in_range :
  spec_loss cfg acts pred_acts alpha <= float32_max
  /\ spec_prob_loss (shape0 acts) (shape1 acts) alpha pred_acts
     <= float32_max.
Proof.
  destruct shapes as [S0 [S1 S2]].
  assert (Hm : spec_matched_cost (shape0 acts) (shape1 acts) alpha
                 (full_cost acts pred_acts) <= NKK * cost_bound B acts).
  { unfold NKK. apply spec_matched_cost_le; [nia | exact alpha_01 |].
    intros n i j Hn Hi Hj. split; [apply full_cost_nonneg |].
    apply full_cost_le; try assumption. lia. }
  assert (Hp : spec_prob_loss (shape0 acts) (shape1 acts) alpha pred_acts
               <= NKK * sq (B + 1)).
  { unfold NKK. apply (spec_prob_loss_le _ _ _ _ B); try assumption; lia. }
  assert (Hp0 := spec_prob_loss_nonneg (shape0 acts) (shape1 acts) alpha
                   pred_acts).
  assert (H1 := NKK_ge_1). assert (H2 := cost_bound_nonneg).
  assert (H3 := sq_nonneg (B + 1)). assert (H4 := weight_nonneg).
  assert (Hb := no_overflow). unfold loss_bound in Hb. fold NKK in Hb.
  unfold spec_loss.
  set (m := spec_matched_cost _ _ _ _) in *.
  set (p := spec_prob_loss _ _ _ _) in *.
  set (c := cost_bound B acts) in *. set (q := sq (B + 1)) in *.
  set (w := weight_prob cfg) in *. set (k := NKK) in *.
  set (M := float32_max) in *.
  clearbody m p c q w k M.
  assert (Hkc : 0 <= k * c) by (apply Qcmult_nonneg; [to_Q; lra | assumption]).
  assert (Hkq : 0 <= k * q) by (apply Qcmult_nonneg; [to_Q; lra | assumption]).
  assert (Hwp : w * p <= w * (k * q)) by (apply Qcmult_le_compat_l; assumption).
  assert (Hwkq : 0 <= w * (k * q)) by (apply Qcmult_nonneg; assumption).
  assert (Hwkc : 0 <= w * (k * c)) by (apply Qcmult_nonneg; assumption).
  replace ((1 + w) * (k * (c + q)))
    with (k * c + k * q + w * (k * c) + w * (k * q)) in Hb by ring.
  set (kc := k * c) in *. set (kq := k * q) in *.
  set (wp := w * p) in *. set (wkq := w * kq) in *. set (wkc := w * kc) in *.
  clearbody kc kq wp wkq wkc.
  split; to_Q; lra.
Qed.

End BoundedRun.

(** The entries of the four cost matrices of a bounded batch. *)
Lemma cells_in_range (cfg : config) (acts pred_acts : tensor3) (B : Qc)
  (d : distances) :
  same_shape acts pred_acts ->
  bounded_by B acts -> bounded_by B pred_acts ->
  (0 < traj_size_pos_ctrl_pts cfg)%nat -> (2 <= shape2 acts)%nat ->
  cost_bound B acts <= float32_max ->
  (forall i j, (i < shape1 acts)%nat -> (j < shape1 acts)%nat ->
     cell_ok cfg acts pred_acts (i, j) d) ->
  forall n i j, (n < shape0 acts)%nat -> (i < shape1 acts)%nat ->
    (j < shape1 acts)%nat ->
    (distance_matrix d n i j = Fin (full_cost acts pred_acts n i j)
     /\ in_float32_range (distance_matrix d n i j))
    /\ (distance_pos_matrix d n i j = Fin (pos_cost cfg acts pred_acts n i j)
        /\ in_float32_range (distance_pos_matrix d n i j))
    /\ (distance_time_matrix d n i j = Fin (time_cost acts pred_acts n i j)
        /\ in_float32_range (distance_time_matrix d n i j))
    /\ ((0 < traj_size_yaw_ctrl_pts cfg)%nat ->
        distance_yaw_matrix d n i j = Fin (yaw_cost cfg acts pred_acts n i j)
        /\ in_float32_range (distance_yaw_matrix d n i j)).
Proof.
  intros Hs Ha Hp HP HS Hb Hcells n i j Hn Hi Hj.
  destruct (Hcells i j Hi Hj n Hn) as [Ef [Ep [Ey Et]]]. cbn [fst snd] in *.
  rewrite Ef, Ep, Ey, Et.
  rewrite full_cell_finite by lia. rewrite pos_cell_finite by exact HP.
  split; [| split; [| split]].
  - split; [reflexivity |].
    apply in_range_nonneg; [apply full_cost_nonneg |].
    eapply Qcle_trans; [| exact Hb].
    apply full_cost_le; try assumption. lia.
  - split; [reflexivity |].
    apply in_range_nonneg; [apply pos_cost_nonneg |].
    eapply Qcle_trans; [| exact Hb]. apply pos_cost_le; assumption.
  - change (time_cell acts pred_acts i j)
      with (Fin (time_cost acts pred_acts n i j)).
    split; [reflexivity |].
    apply in_range_nonneg; [apply time_cost_nonneg |].
    eapply Qcle_trans; [| exact Hb]. apply time_cost_le; assumption.
  - intros HY. rewrite yaw_cell_finite by exact HY.
    split; [reflexivity |].
    apply in_range_nonneg; [apply yaw_cost_nonneg |].
    eapply Qcle_trans; [| exact Hb]. apply yaw_cost_le; assumption.
Qed.

(** A run on a bounded batch: every returned value is below the largest
    float32. *)
Lemma bounded_run (solve : list (list Qc) -> list nat * list nat)
  (cfg : config) (acts pred_acts : tensor3) (B : Qc) :
  LsaContract solve ->
  same_shape acts pred_acts ->
  (0 < traj_size_pos_ctrl_pts cfg)%nat ->
  (1 <= shape0 acts)%nat -> (2 <= shape1 acts)%nat ->
  (2 <= shape2 acts)%nat ->
  bounded_by B acts -> bounded_by B pred_acts ->
  0 <= weight_prob cfg ->
  loss_bound cfg B acts <= float32_max ->
  exists d a r,
    cost_matrices cfg acts pred_acts = Ok d
    /\ solve_assignment solve acts d = Ok a
    /\ _calculate_loss solve cfg acts pred_acts = Ok r
    /\ run_facts solve cfg acts pred_acts d a r
    /\ cost_bound B acts <= float32_max
    /\ spec_loss cfg acts pred_acts (alpha_matrix a) <= float32_max
    /\ spec_prob_loss (shape0 acts) (shape1 acts) (alpha_matrix a) pred_acts
       <= float32_max
    /\ spec_matched_cost (shape0 acts) (shape1 acts) (alpha_matrix a)
         (pos_cost cfg acts pred_acts) <= float32_max
    /\ spec_matched_cost (shape0 acts) (shape1 acts) (alpha_matrix a)
         (time_cost acts pred_acts) <= float32_max
    /\ ((0 < traj_size_yaw_ctrl_pts cfg)%nat ->
        spec_matched_cost (shape0 acts) (shape1 acts) (alpha_matrix a)
          (yaw_cost cfg acts pred_acts) <= float32_max).
Proof.
  intros Hc Hs HP HN HK HS Ha Hp Hw Hb.
  destruct (calculate_loss_run solve cfg acts pred_acts Hc Hs HP HN HK HS)
    as [d [a [r [Hd [Hsa [Hr Hf]]]]]].
  assert (H01 : forall n i j, (n < shape0 acts)%nat ->
            0 <= alpha_matrix a n i j /\ alpha_matrix a n i j <= 1).
  { intros n i j Hn. rewrite (rf_alpha _ _ _ _ _ _ _ Hf n i j Hn).
    split; [apply indicator_nonneg | apply indicator_le_1]. }
  exists d, a, r.
  split; [exact Hd |]. split; [exact Hsa |]. split; [exact Hr |].
  split; [exact Hf |].
  split; [apply (cost_bound_in_range cfg acts B); assumption |].
  destruct (spec_loss_in_range cfg acts pred_acts B (alpha_matrix a))
    as [Hl Hq]; try assumption.
  split; [exact Hl |]. split; [exact Hq |].
  split; [apply (matched_pos_in_range cfg acts pred_acts B); assumption |].
  split; [apply (matched_time_in_range cfg acts pred_acts B); assumption |].
  intros HY. apply (matched_yaw_in_range cfg acts pred_acts B); assumption.
Qed.

(** The components of the example batches lie in [[-5, 5]]. *)
Ltac check_bounded :=
  let n := fresh "n" in
  let i := fresh "i" in
  let k := fresh "k" in
  let Hn := fresh "Hn" in
  let Hi := fresh "Hi" in
  let Hk := fresh "Hk" in
  intros n i k Hn Hi Hk; simpl in Hn, Hi, Hk;
  destruct n as [| [| [| n]]]; try lia;
  destruct i as [| [| [| i]]]; try lia;
  destruct k as [| [| [| [| [| k]]]]]; try lia;
  (split; unfold Qcle, Qle; vm_compute; discriminate).

Lemma acts_two_bounded : bounded_by (Q2Qc 5) acts_two.
Proof. check_bounded. Qed.

Lemma pred_two_bounded : bounded_by (Q2Qc 5) pred_two.
Proof. check_bounded. Qed.

Lemma acts_tie_bounded : bounded_by (Q2Qc 5) acts_tie.
Proof. check_bounded. Qed.

Lemma pred_tie_bounded : bounded_by (Q2Qc 5) pred_tie.
Proof. check_bounded. Qed.

Lemma cfg_1_1_no_overflow :
  loss_bound cfg_1_1 (Q2Qc 5) acts_two <= float32_max
  /\ loss_bound cfg_1_1 (Q2Qc 5) acts_tie <= float32_max
  /\ cost_bound (Q2Qc 5) acts_two <= float32_max.
Proof. repeat split; unfold Qcle, Qle; vm_compute; discriminate. Qed.



(** ** How many slots are assigned *)

Lemma sum_list_ones {A : Type} (l : list A) :
  sum_list (map (fun _ => 1) l) = nat2Qc (length l).
Proof.
  induction l as [| x l IH]; [reflexivity |].
  cbn [map sum_list fold_right length]. fold (sum_list (map (fun _ : A => 1) l)).
  rewrite IH, nat2Qc_S. ring.
Qed.

(** The matched columns of a matching are as many as its pairs. *)
Lemma col_hit_count (K : nat) (m : list (nat * nat)) :
  is_matching K m ->
  sum_n K (fun j => indicator (col_hit m j)) = nat2Qc (length m).
Proof.
  intros Hm.
  rewrite (sum_n_ext K _ (fun j => sum_n K (fun i =>
             indicator (in_matching m i j) * 1))).
  - rewrite sum_n_swap.
    rewrite (sum_over_matching K m (fun _ _ => 1) Hm).
    apply sum_list_ones.
  - intros j Hj. rewrite <- (col_sum_matching K m j Hm).
    apply sum_n_ext. intros i _. ring.
Qed.

Lemma matching_length (solve : list (list Qc) -> list nat * list nat)
  (cfg : config) (acts pred_acts : tensor3) (n : nat) :
  LsaContract solve ->
  length (matching solve cfg acts pred_acts n) = length (valid_rows acts n).
Proof.
  intros Hc. unfold matching. rewrite length_combine.
  destruct (contract_on_item solve cfg acts pred_acts n Hc)
    as [_ [[Hlen _] _]].
  rewrite Hlen. apply Nat.min_id.
Qed.

(** X7. In every item the number of predicted slots marked as assigned
    ([col_assigned] summed over the slots) is the number of experts that
    were not deleted; the other slots are the unassigned ones. *)
Theorem assigned_slots_count_valid_experts
  (solve : list (list Qc) -> list nat * list nat)
  (cfg : config) (acts pred_acts : tensor3) :
  LsaContract solve ->
  same_shape acts pred_acts ->
  (0 < traj_size_pos_ctrl_pts cfg)%nat ->
  (1 <= shape0 acts)%nat -> (2 <= shape1 acts)%nat ->
  (2 <= shape2 acts)%nat ->
  exists d a ca cna,
    cost_matrices cfg acts pred_acts = Ok d
    /\ solve_assignment solve acts d = Ok a
    /\ col_assigned a = Some ca
    /\ col_not_assigned a = Some cna
    /\ forall n, (n < shape0 acts)%nat ->
         sum_n (shape1 acts) (ca n)
         = nat2Qc (length (filter (fun i => negb (expert_deleted acts n i))
                             (seq 0 (shape1 acts))))
         /\ forall j, (j < shape1 acts)%nat -> cna n j = 1 - ca n j.
Proof.
  intros Hc Hs HP HN HK HS.
  destruct (calculate_loss_run solve cfg acts pred_acts Hc Hs HP HN HK HS)
    as [d [a [r [Hd [Ha [_ Hf]]]]]].
  eexists d, a, _, _.
  split; [exact Hd |]. split; [exact Ha |].
  split; [exact (rf_col_assigned _ _ _ _ _ _ _ Hf) |].
  split; [exact (rf_col_not_assigned _ _ _ _ _ _ _ Hf) |].
  intros n Hn.
  pose proof (matching_is_matching solve cfg acts pred_acts n Hc) as Hm.
  pose proof (fun i j => rf_alpha _ _ _ _ _ _ _ Hf n i j Hn) as Hch.
  split.
  - rewrite (sum_n_ext _ _
               (fun j => indicator
                           (col_hit (matching solve cfg acts pred_acts n) j)))
      by (intros j _; apply (col_assigned_char _ _ Hm _ _ Hch)).
    rewrite (col_hit_count _ _ Hm), (matching_length _ _ _ _ _ Hc).
    reflexivity.
  - intros j Hj. cbv beta.
    rewrite (col_assigned_char _ _ Hm _ _ Hch), indicator_eq_0.
    destruct (col_hit _ j); cbn [negb indicator]; ring.
Qed.

Lemma assigned_slots_count_valid_experts_witness :
  exists d a ca cna,
    cost_matrices cfg_1_1 acts_two pred_two = Ok d
    /\ solve_assignment lsa_exhaustive acts_two d = Ok a
    /\ col_assigned a = Some ca
    /\ col_not_assigned a = Some cna
    /\ sum_n 2 (ca 0%nat) = Q2Qc 2
    /\ sum_n 2 (ca 1%nat) = Q2Qc 0.
Proof.
  destruct (assigned_slots_count_valid_experts lsa_exhaustive cfg_1_1
              acts_two pred_two lsa_exhaustive_contract
              (same_shape_refl_list _ _ eq_refl eq_refl eq_refl)
              ltac:(simpl; lia) ltac:(simpl; lia) ltac:(simpl; lia)
              ltac:(simpl; lia))
    as [d [a [ca [cna [Hd [Ha [Hca [Hcna H]]]]]]]].
  exists d, a, ca, cna.
  split; [exact Hd |]. split; [exact Ha |].
  split; [exact Hca |]. split; [exact Hcna |]. split.
  - destruct (H 0%nat ltac:(simpl; lia)) as [E _].
    change (shape1 acts_two) with 2%nat in E. rewrite E.
    apply Qc_is_canon. vm_compute. reflexivity.
  - destruct (H 1%nat ltac:(simpl; lia)) as [E _].
    change (shape1 acts_two) with 2%nat in E. rewrite E.
    apply Qc_is_canon. vm_compute. reflexivity.
Defined.

(** ** All experts valid *)

Lemma valid_rows_all (acts : tensor3) (n : nat) :
  (forall i, (i < shape1 acts)%nat -> expert_deleted acts n i = false) ->
  valid_rows acts n = seq 0 (shape1 acts).
Proof.
  intros H. unfold valid_rows.
  rewrite (filter_ext_in' _ (fun _ => true)).
  - induction (seq 0 (shape1 acts)) as [| x l IH]; [reflexivity |].
    cbn [filter]. rewrite IH. reflexivity.
  - intros i Hi. apply in_seq in Hi. rewrite H by lia. reflexivity.
Qed.

(** When every row is assigned, every column is. *)
Lemma full_matching_hits_all (K : nat) (cs : list nat) (j : nat) :
  feasible K K cs -> (j < K)%nat -> col_hit (combine (seq 0 K) cs) j = true.
Proof.
  intros [Hlen [Hnd Hlt]] Hj. rewrite Forall_forall in Hlt.
  assert (Hin : In j cs).
  { apply (NoDup_length_incl Hnd (l' := seq 0 K)).
    - rewrite length_seq. lia.
    - intros c Hc. apply in_seq. specialize (Hlt c Hc). lia.
    - apply in_seq. lia. }
  apply col_hit_In.
  destruct (In_nth cs j 0%nat Hin) as [r [Hr E]].
  exists (nth r (seq 0 K) 0%nat). rewrite <- E.
  rewrite <- combine_nth by (rewrite length_seq; lia).
  apply nth_In. rewrite length_combine, length_seq. lia.
Qed.

(** X8. When no expert of the batch is deleted, every predicted slot of
    every item is assigned, whatever the solver chooses: [col_assigned] is
    1 and [col_not_assigned] is 0 everywhere, and [prob_loss] is the mean
    of [(score - 1)^2] over all slots. *)
Theorem all_valid_experts_assign_every_slot
  (solve : list (list Qc) -> list nat * list nat)
  (cfg : config) (acts pred_acts : tensor3) :
  LsaContract solve ->
  same_shape acts pred_acts ->
  (0 < traj_size_pos_ctrl_pts cfg)%nat ->
  (1 <= shape0 acts)%nat -> (2 <= shape1 acts)%nat ->
  (2 <= shape2 acts)%nat ->
  (forall n i, (n < shape0 acts)%nat -> (i < shape1 acts)%nat ->
     expert_deleted acts n i = false) ->
  exists d a r ca cna,
    cost_matrices cfg acts pred_acts = Ok d
    /\ solve_assignment solve acts d = Ok a
    /\ _calculate_loss solve cfg acts pred_acts = Ok r
    /\ col_assigned a = Some ca
    /\ col_not_assigned a = Some cna
    /\ (forall n j, (n < shape0 acts)%nat -> (j < shape1 acts)%nat ->
          ca n j = 1 /\ cna n j = 0)
    /\ prob_loss r
       = Fin (1 / nat2Qc (shape0 acts * shape1 acts)
              * sum_n (shape0 acts) (fun n =>
                  sum_n (shape1 acts) (fun j =>
                    sq (data pred_acts n j (shape2 pred_acts - 1) - 1)))).
Proof.
  intros Hc Hs HP HN HK HS Hall.
  destruct (calculate_loss_run solve cfg acts pred_acts Hc Hs HP HN HK HS)
    as [d [a [r [Hd [Ha [Hr Hf]]]]]].
  assert (Hhit : forall n j, (n < shape0 acts)%nat -> (j < shape1 acts)%nat ->
            col_hit (matching solve cfg acts pred_acts n) j = true).
  { intros n j Hn Hj. unfold matching.
    destruct (contract_on_item solve cfg acts pred_acts n Hc)
      as [_ [Hfeas _]].
    rewrite (valid_rows_all acts n (fun i Hi => Hall n i Hn Hi)) in *.
    rewrite length_seq in Hfeas.
    apply full_matching_hits_all; assumption. }
  eexists d, a, r, _, _.
  split; [exact Hd |]. split; [exact Ha |]. split; [exact Hr |].
  split; [exact (rf_col_assigned _ _ _ _ _ _ _ Hf) |].
  split; [exact (rf_col_not_assigned _ _ _ _ _ _ _ Hf) |].
  split.
  - intros n j Hn Hj. cbv beta.
    pose proof (matching_is_matching solve cfg acts pred_acts n Hc) as Hm.
    pose proof (fun i j => rf_alpha _ _ _ _ _ _ _ Hf n i j Hn) as Hch.
    rewrite (col_assigned_char _ _ Hm _ _ Hch), (Hhit n j Hn Hj).
    cbn [indicator]. split; [reflexivity |].
    rewrite Qc_eq_bool_neq by exact Qc_1_neq_0. reflexivity.
  - rewrite (rf_prob_loss _ _ _ _ _ _ _ Hf). f_equal.
    unfold spec_prob_loss.
    assert (Hslot : forall n j, (n < shape0 acts)%nat ->
              (j < shape1 acts)%nat ->
              slot_assigned (alpha_matrix a) (shape1 acts) n j = true).
    { intros n j Hn Hj.
      rewrite (slot_assigned_char _ _
                 (matching_is_matching solve cfg acts pred_acts n Hc) _ _
                 (fun i j => rf_alpha _ _ _ _ _ _ _ Hf n i j Hn)).
      apply Hhit; assumption. }
    rewrite (sum_n_zero (shape0 acts)
               (fun n => sum_list (map _ (filter (fun j => negb _) _)))).
    + rewrite Qcplus_0_r. f_equal. apply sum_n_ext. intros n Hn.
      rewrite sum_list_filter. apply sum_n_ext. intros j Hj.
      rewrite (Hslot n j Hn Hj). reflexivity.
    + intros n Hn. rewrite sum_list_filter. apply sum_n_zero. intros j Hj.
      rewrite (Hslot n j Hn Hj). reflexivity.
Qed.

Lemma all_valid_experts_assign_every_slot_witness :
  exists r,
    _calculate_loss lsa_exhaustive cfg_4_1 acts_small pred_small = Ok r
    /\ prob_loss r
       = Fin (1 / nat2Qc (1 * 2)
              * sum_n 1 (fun n => sum_n 2 (fun j =>
                  sq (data pred_small n j 6 - 1)))).
Proof.
  destruct (all_valid_experts_assign_every_slot lsa_exhaustive cfg_4_1
              acts_small pred_small lsa_exhaustive_contract
              (same_shape_refl_list _ _ eq_refl eq_refl eq_refl)
              ltac:(simpl; lia) ltac:(simpl; lia) ltac:(simpl; lia)
              ltac:(simpl; lia))
    as [d [a [r [ca [cna [_ [_ [Hr [_ [_ [_ Hp]]]]]]]]]]].
  - intros n i Hn Hi.
    change (shape0 acts_small) with 1%nat in Hn.
    change (shape1 acts_small) with 2%nat in Hi.
    destruct n as [| n]; [| lia].
    destruct i as [| [| i]]; [| | lia]; vm_compute; reflexivity.
  - exists r. split; [exact Hr | exact Hp].
Defined.

(** ** The slot-by-slot matching as a bound *)

Lemma valid_rows_feasible (acts : tensor3) (n : nat) :
  feasible (length (valid_rows acts n)) (shape1 acts) (valid_rows acts n).
Proof.
  repeat split.
  - apply valid_rows_NoDup.
  - apply Forall_forall. intros i Hi. apply valid_rows_spec in Hi. tauto.
Qed.

Lemma map_combine_diag {A B : Type} (f : A * A -> B) (l : list A) :
  map f (combine l l) = map (fun x => f (x, x)) l.
Proof. induction l as [| x l IH]; cbn; [reflexivity | rewrite IH; reflexivity]. Qed.

(** The cost of matching every valid expert with the predicted trajectory
    of its own slot. *)
Lemma diagonal_cost (cfg : config) (acts pred_acts : tensor3) (n : nat) :
  assignment_cost (reduced_cost cfg acts pred_acts n) (valid_rows acts n)
  = sum_n (shape1 acts) (fun i =>
      if negb (expert_deleted acts n i)
      then pos_cost cfg acts pred_acts n i i else 0).
Proof.
  rewrite assignment_cost_reduced by apply valid_rows_feasible.
  rewrite map_combine_diag. cbn [fst snd].
  unfold valid_rows. apply sum_list_filter.
Qed.

Lemma sq_diff_sum_same (acts pred_acts : tensor3) (n i lo cnt : nat) :
  (forall k, (k < cnt)%nat ->
     data acts n i (lo + k) = data pred_acts n i (lo + k)) ->
  sq_diff_sum acts pred_acts n i i lo cnt = 0.
Proof.
  intros H. unfold sq_diff_sum. apply sum_n_zero. intros k Hk.
  rewrite (H k Hk). unfold sq. ring.
Qed.



(** ** Predictions equal to the experts *)

Lemma nat2Qc_neq0 (n : nat) : n <> 0%nat -> nat2Qc n <> 0.
Proof.
  intros Hn H. unfold nat2Qc in H.
  apply Q2Qc_eq_iff in H. unfold Qeq, inject_Z in H. cbn in H. lia.
Qed.

Lemma Qcdiv_zero_inv (x y : Qc) : y <> 0 -> x / y = 0 -> x = 0.
Proof.
  intros Hy H. unfold Qcdiv in H.
  destruct (Qcmult_integral _ _ H) as [E | E]; [exact E |].
  exfalso. pose proof (Qcmult_inv_r y Hy) as H1.
  rewrite E, Qcmult_0_r in H1. exact (Qc_1_neq_0 (eq_sym H1)).
Qed.

Section ExactPredictions.

Variable solve : list (list Qc) -> list nat * list nat.
Hypothesis solve_contract : LsaContract solve.
Variable cfg : config.
Variable acts : tensor3.
Variable n : nat.

Hypothesis pos_ctrl_pts : (0 < traj_size_pos_ctrl_pts cfg)%nat.

(** A valid expert has the position of no other slot. *)
Hypothesis distinct_positions :
  forall i j, (i < shape1 acts)%nat -> (j < shape1 acts)%nat -> i <> j ->
    expert_deleted acts n i = false ->
    exists k, (k < Nat.min (traj_size_pos_ctrl_pts cfg) (shape2 acts))%nat
              /\ data acts n i k <> data acts n j k.

Let m := matching solve cfg acts acts n.

Lemma zero_pos_cost_same_slot (i j : nat) :
  (i < shape1 acts)%nat -> (j < shape1 acts)%nat ->
  expert_deleted acts n i = false ->
  pos_cost cfg acts acts n i j = 0 -> i = j.
Proof.
  intros Hi Hj Hv H0.
  destruct (Nat.eq_dec i j) as [E | Hne]; [exact E | exfalso].
  destruct (distinct_positions i j Hi Hj Hne Hv) as [k [Hk Hd]].
  unfold pos_cost in H0. cbn zeta in H0.
  apply Qcdiv_zero_inv in H0; [| apply nat2Qc_neq0; lia].
  unfold sq_diff_sum in H0.
  pose proof (sum_n_zero_inv _ _ (fun k _ => sq_nonneg _) H0 k Hk) as Hsq.
  cbn [plus] in Hsq. apply sq_zero in Hsq.
  apply Hd. rewrite <- (Qcplus_0_r (data acts n j k)), <- Hsq. ring.
Qed.

Lemma exact_matching_cost_zero :
  assignment_cost (reduced_cost cfg acts acts n)
    (snd (solve (reduced_cost cfg acts acts n))) = 0.
Proof.
  destruct (contract_on_item solve cfg acts acts n solve_contract)
    as [_ [Hfeas Hopt]].
  apply Qcle_antisym.
  - eapply Qcle_trans; [apply (Hopt _ (valid_rows_feasible acts n)) |].
    rewrite diagonal_cost.
    rewrite sum_n_zero; [apply Qcle_refl |].
    intros i Hi. destruct (negb (expert_deleted acts n i)); [| reflexivity].
    unfold pos_cost. cbn zeta.
    rewrite sq_diff_sum_same by reflexivity. unfold Qcdiv. ring.
  - rewrite assignment_cost_reduced by exact Hfeas.
    apply sum_list_nonneg. intros x Hx. apply in_map_iff in Hx.
    destruct Hx as [p [<- _]]. apply pos_cost_nonneg.
Qed.

(** The solver can only match a valid expert with its own slot. *)
Lemma exact_matching_diagonal (i j : nat) :
  In (i, j) m <-> i = j /\ (i < shape1 acts)%nat
                  /\ expert_deleted acts n i = false.
Proof.
  assert (Hdiag : forall i j, In (i, j) m -> i = j).
  { intros i0 j0 Hin.
    destruct (matching_pair solve solve_contract cfg acts acts n i0 j0 Hin)
      as [Hi [Hv Hj]].
    apply (zero_pos_cost_same_slot i0 j0 Hi Hj Hv).
    pose proof exact_matching_cost_zero as Hz.
    rewrite assignment_cost_reduced in Hz
      by (apply (contract_on_item solve cfg acts acts n solve_contract)).
    apply (sum_list_zero_inv _
             (fun x Hx =>
                match proj1 (in_map_iff _ _ _) Hx with
                | ex_intro _ p (conj E _) =>
                    eq_ind _ (fun y => 0 <= y) (pos_cost_nonneg _ _ _ _ _ _)
                      _ E
                end) Hz).
    apply in_map_iff. exists (i0, j0). split; [reflexivity | exact Hin]. }
  split.
  - intros Hin.
    destruct (matching_pair solve solve_contract cfg acts acts n i j Hin)
      as [Hi [Hv _]].
    split; [apply Hdiag; exact Hin | split; assumption].
  - intros [<- [Hi Hv]].
    destruct (matching_covers solve solve_contract cfg acts acts n i Hi Hv)
      as [j Hj].
    rewrite (Hdiag i j Hj) at 2. exact Hj.
Qed.

End ExactPredictions.

Lemma spec_matched_cost_diagonal_zero (N K : nat) (alpha : weights)
  (mt : nat -> list (nat * nat)) (c : nat -> nat -> nat -> Qc) :
  (forall n i j, (n < N)%nat ->
     alpha n i j = indicator (in_matching (mt n) i j)) ->
  (forall n i j, (n < N)%nat -> In (i, j) (mt n) -> i = j) ->
  (forall n i, (n < N)%nat -> c n i i = 0) ->
  spec_matched_cost N K alpha c = 0.
Proof.
  intros Ha Hd Hc. unfold spec_matched_cost.
  rewrite sum_n_zero; [apply Qcmult_0_r |].
  intros n Hn. apply sum_n_zero. intros i _. apply sum_n_zero. intros j _.
  rewrite (Ha n i j Hn).
  destruct (in_matching (mt n) i j) eqn:E; cbn [indicator]; [| ring].
  apply in_matching_In in E. rewrite <- (Hd n i j Hn E), (Hc n i Hn). ring.
Qed.



(** ** C10: divisions by zero *)




(** ** The batch iterator *)

Lemma yields_app {batch : Type} (e1 e2 : list (event batch)) :
  yields (e1 ++ e2) = yields e1 ++ yields e2.
Proof.
  induction e1 as [| e e1 IH]; [reflexivity |].
  destruct e; cbn [app yields]; rewrite IH; reflexivity.
Qed.

Lemma count_epoch_ends_app {batch : Type} (e1 e2 : list (event batch)) :
  count_epoch_ends (e1 ++ e2) = (count_epoch_ends e1 + count_epoch_ends e2)%nat.
Proof. unfold count_epoch_ends. rewrite filter_app, length_app. reflexivity. Qed.

Lemma numbered_app {batch : Type} (batch_len : batch -> nat)
  (ys1 ys2 : list (batch * iter_stats)) :
  forall bn ss,
    numbered batch_len bn ss ys1 ->
    numbered batch_len (bn + length ys1)
      (ss + total_len batch_len (map fst ys1)) ys2 ->
    numbered batch_len bn ss (ys1 ++ ys2).
Proof.
  induction ys1 as [| [b s] ys1 IH]; intros bn ss H1 H2.
  - cbn in H2. rewrite !Nat.add_0_r in H2. exact H2.
  - cbn [app numbered] in *. destruct H1 as [Hb [Hs H1]].
    split; [exact Hb |]. split; [exact Hs |].
    apply IH; [exact H1 |].
    cbn [length map fst total_len fold_right] in H2.
    fold (total_len batch_len (map fst ys1)) in H2.
    replace (S bn + length ys1)%nat with (bn + S (length ys1))%nat by lia.
    replace (ss + batch_len b + total_len batch_len (map fst ys1))%nat
      with (ss + (batch_len b + total_len batch_len (map fst ys1)))%nat by lia.
    exact H2.
Qed.

Lemma numbered_nth {batch : Type} (batch_len : batch -> nat)
  (ys : list (batch * iter_stats)) :
  forall bn ss k b s,
    numbered batch_len bn ss ys ->
    nth_error ys k = Some (b, s) ->
    batch_num s = (bn + S k)%nat
    /\ samples_so_far s
       = (ss + total_len batch_len (firstn (S k) (map fst ys)))%nat.
Proof.
  induction ys as [| [b0 s0] ys IH]; intros bn ss k b s Hn Hk.
  - destruct k; discriminate.
  - cbn [numbered] in Hn. destruct Hn as [Hb [Hs Hn]].
    destruct k as [| k].
    + cbn in Hk. injection Hk as -> ->. cbn. split; lia.
    + cbn [nth_error] in Hk.
      destruct (IH _ _ _ _ _ Hn Hk) as [Hb' Hs'].
      split; [lia |]. rewrite Hs'.
      cbn [map fst firstn total_len fold_right].
      fold (total_len batch_len (firstn (S k) (map fst ys))).
      cbn [firstn]. lia.
Qed.

Section IteratorFacts.

Variable batch : Type.
Variable batch_len : batch -> nat.
Variable it : iterator batch.

Lemma yields_callback (b : batch) (s : iter_stats)
  (rest : list (event batch)) :
  yields ((Yielded b s :: (if on_batch_end it then [BatchEnd] else []))
          ++ rest)
  = (b, s) :: yields rest.
Proof. destruct (on_batch_end it); reflexivity. Qed.

Lemma yields_callback_nil (b : batch) (s : iter_stats) :
  yields (Yielded b s :: (if on_batch_end it then [BatchEnd] else []))
  = [(b, s)].
Proof. destruct (on_batch_end it); reflexivity. Qed.

Lemma count_callback (b : batch) (s : iter_stats)
  (rest : list (event batch)) :
  count_epoch_ends ((Yielded b s :: (if on_batch_end it then [BatchEnd] else []))
                    ++ rest)
  = count_epoch_ends rest.
Proof. destruct (on_batch_end it); reflexivity. Qed.

Lemma yields_epoch_callback (rest : list (event batch)) :
  yields ((if on_epoch_end it then [EpochEnd] else []) ++ rest) = yields rest.
Proof. destruct (on_epoch_end it); reflexivity. Qed.

Lemma count_epoch_callback (rest : list (event batch)) :
  count_epoch_ends ((if on_epoch_end it then [EpochEnd] else []) ++ rest)
  = ((if on_epoch_end it then 1 else 0) + count_epoch_ends rest)%nat.
Proof. destruct (on_epoch_end it); reflexivity. Qed.

(** The counters of one pass, whichever way it ends. *)
Lemma run_batches_numbered (bs : list batch) :
  forall st evs r,
    run_batches batch batch_len it bs st = (evs, r) ->
    numbered batch_len (batch_num st) (samples_so_far st) (yields evs)
    /\ (forall st', r = inl st' ->
          epoch_num st' = epoch_num st
          /\ batch_num st' = (batch_num st + length (yields evs))%nat
          /\ samples_so_far st'
             = (samples_so_far st
                + total_len batch_len (map fst (yields evs)))%nat).
Proof.
  induction bs as [| b bs IH]; intros st evs r E.
  - cbn in E. injection E as <- <-. cbn. split; [exact I |].
    intros st' H. injection H as <-. repeat split; lia.
  - cbn [run_batches] in E.
    destruct (Nat.eqb (batch_len b) 0).
    { injection E as <- <-. cbn. split; [exact I |]. intros st' H. discriminate. }
    set (st1 := IterStats (epoch_num st) (S (batch_num st))
                  (samples_so_far st + batch_len b)) in *.
    assert (Hrec : forall evs' r',
               run_batches batch batch_len it bs st1 = (evs', r') ->
               evs = (Yielded b st1
                      :: (if on_batch_end it then [BatchEnd] else [])) ++ evs' ->
               r = r' ->
               numbered batch_len (batch_num st) (samples_so_far st) (yields evs)
               /\ (forall st', r = inl st' ->
                     epoch_num st' = epoch_num st
                     /\ batch_num st' = (batch_num st + length (yields evs))%nat
                     /\ samples_so_far st'
                        = (samples_so_far st
                           + total_len batch_len (map fst (yields evs)))%nat)).
    { intros evs' r' E' -> ->. destruct (IH _ _ _ E') as [Hn Hst].
      rewrite yields_callback. cbn [numbered]. split.
      - split; [reflexivity |]. split; [reflexivity |]. exact Hn.
      - intros st' Hr. destruct (Hst st' Hr) as [He [Hb Hs]].
        cbn [length map fst total_len fold_right].
        fold (total_len batch_len (map fst (yields evs'))).
        cbn [epoch_num batch_num samples_so_far st1] in He, Hb, Hs.
        repeat split; lia. }
    destruct (it_limit it) as [n | n].
    + destruct (run_batches batch batch_len it bs st1) as [evs' r'] eqn:E'.
      injection E as <- <-. apply (Hrec evs' r'); reflexivity.
    + destruct (Z.leb n (Z.of_nat (S (batch_num st)))).
      * injection E as <- <-. rewrite yields_callback_nil. cbn [numbered].
        split; [| intros st' H; discriminate].
        split; [reflexivity |]. split; [reflexivity |]. exact I.
      * destruct (run_batches batch batch_len it bs st1) as [evs' r'] eqn:E'.
        injection E as <- <-. apply (Hrec evs' r'); reflexivity.
Qed.

Lemma run_epochs_numbered (fuel : nat) :
  forall st evs r,
    run_epochs batch batch_len it fuel st = (evs, r) ->
    numbered batch_len (batch_num st) (samples_so_far st) (yields evs).
Proof.
  induction fuel as [| fuel IH]; intros st evs r E.
  - cbn in E. injection E as <- <-. exact I.
  - cbn [run_epochs] in E.
    destruct (run_batches batch batch_len it (data_loader it (epoch_num st)) st)
      as [evs1 [st1 | fin]] eqn:E1;
      destruct (run_batches_numbered _ _ _ _ E1) as [Hn Hst].
    2:{ injection E as <- <-. exact Hn. }
    destruct (Hst st1 eq_refl) as [He [Hb Hs]].
    destruct (data_loader it (epoch_num st)) as [| b0 bs0].
    { injection E as <- <-. exact Hn. }
    set (st2 := IterStats (S (epoch_num st1)) (batch_num st1)
                  (samples_so_far st1)) in *.
    assert (Hrec : forall evs' r',
               run_epochs batch batch_len it fuel st2 = (evs', r') ->
               numbered batch_len (batch_num st) (samples_so_far st)
                 (yields (evs1 ++ (if on_epoch_end it then [EpochEnd] else [])
                          ++ evs'))).
    { intros evs' r' E'. rewrite yields_app, yields_epoch_callback.
      apply numbered_app; [exact Hn |].
      rewrite <- Hb, <- Hs. exact (IH _ _ _ E'). }
    destruct (it_limit it) as [n | n].
    + destruct (Z.leb n (Z.of_nat (epoch_num st2))).
      * injection E as <- <-.
        rewrite yields_app.
        replace (yields (if on_epoch_end it then [EpochEnd] else []))
          with (@nil (batch * iter_stats)) by (destruct (on_epoch_end it); reflexivity).
        rewrite app_nil_r. exact Hn.
      * destruct (run_epochs batch batch_len it fuel st2) as [evs' r'] eqn:E'.
        injection E as <- <-. exact (Hrec _ _ eq_refl).
    + destruct (run_epochs batch batch_len it fuel st2) as [evs' r'] eqn:E'.
      injection E as <- <-. exact (Hrec _ _ eq_refl).
Qed.

(** One pass in epoch mode over batches of positive size: all are
    yielded. *)
Lemma run_batches_epoch_mode (n : Z) (bs : list batch) :
  it_limit it = Epochs n -> positive_sizes batch_len bs ->
  forall st, exists evs st',
    run_batches batch batch_len it bs st = (evs, inl st')
    /\ map fst (yields evs) = bs
    /\ count_epoch_ends evs = 0%nat
    /\ epoch_num st' = epoch_num st.
Proof.
  intros Hl. induction bs as [| b bs IH]; intros Hpos st.
  - exists [], st. cbn. repeat split; lia.
  - cbn [run_batches].
    destruct (Nat.eqb_spec (batch_len b) 0) as [E | _].
    { specialize (Hpos b (or_introl eq_refl)). lia. }
    rewrite Hl.
    destruct (IH (fun x Hx => Hpos x (or_intror Hx))
                (IterStats (epoch_num st) (S (batch_num st))
                   (samples_so_far st + batch_len b)))
      as [evs [st' [E [Hy [Hc He]]]]].
    rewrite E. eexists _, st'. split; [reflexivity |].
    rewrite yields_callback, count_callback. cbn [map fst].
    rewrite Hy. cbn [epoch_num] in He. repeat split; assumption.
Qed.

(** One pass in batch mode over batches of positive size, [t] batches
    being left to give: the pass stops after [t] batches if it has that
    many. *)
Lemma run_batches_batch_mode (n : Z) (bs : list batch) :
  it_limit it = Batches n -> positive_sizes batch_len bs ->
  forall st,
    (batch_num st < at_least_one n)%nat ->
    exists evs r,
      run_batches batch batch_len it bs st = (evs, r)
      /\ map fst (yields evs) = firstn (at_least_one n - batch_num st) bs
      /\ count_epoch_ends evs = 0%nat
      /\ (if Nat.leb (at_least_one n - batch_num st) (length bs)
          then r = inr Returned
          else exists st', r = inl st'
                 /\ epoch_num st' = epoch_num st
                 /\ batch_num st' = (batch_num st + length bs)%nat).
Proof.
  intros Hl. induction bs as [| b bs IH]; intros Hpos st Hlt.
  - exists [], (inl st). cbn [run_batches length].
    rewrite firstn_nil.
    destruct (Nat.leb_spec (at_least_one n - batch_num st) 0) as [H | H];
      [lia |].
    repeat split. exists st. repeat split; lia.
  - cbn [run_batches].
    destruct (Nat.eqb_spec (batch_len b) 0) as [E | _].
    { specialize (Hpos b (or_introl eq_refl)). lia. }
    rewrite Hl.
    assert (Hcmp : Z.leb n (Z.of_nat (S (batch_num st)))
                   = Nat.leb (at_least_one n) (S (batch_num st))).
    { unfold at_least_one.
      destruct (Z.leb_spec n (Z.of_nat (S (batch_num st))));
        destruct (Nat.leb_spec (Z.to_nat (Z.max n 1)) (S (batch_num st)));
        try reflexivity; lia. }
    rewrite Hcmp.
    destruct (Nat.leb_spec (at_least_one n) (S (batch_num st))) as [Hd | Hd].
    + eexists _, _. split; [reflexivity |].
      rewrite yields_callback_nil.
      replace (at_least_one n - batch_num st)%nat with 1%nat by lia.
      cbn [map fst firstn length Nat.leb].
      repeat split.
      rewrite <- (app_nil_r (Yielded b _ :: _)). rewrite count_callback.
      reflexivity.
    + set (st1 := IterStats (epoch_num st) (S (batch_num st))
                    (samples_so_far st + batch_len b)).
      destruct (IH (fun x Hx => Hpos x (or_intror Hx)) st1)
        as [evs [r [E [Hy [Hc Hr]]]]]; [exact Hd |].
      rewrite E. eexists _, r. split; [reflexivity |].
      rewrite yields_callback, count_callback. cbn [map fst].
      rewrite Hy. cbn [batch_num epoch_num st1] in *.
      replace (at_least_one n - batch_num st)%nat
        with (S (at_least_one n - S (batch_num st)))%nat by lia.
      cbn [firstn length Nat.leb].
      split; [reflexivity |]. split; [exact Hc |].
      destruct (Nat.leb (at_least_one n - S (batch_num st)) (length bs)).
      * exact Hr.
      * destruct Hr as [st' [-> [He Hb]]]. exists st'.
        repeat split; [exact He | lia].
Qed.


Lemma passes_S_l (e k : nat) :
  passes it e (S k) = data_loader it e ++ passes it (S e) k.
Proof. reflexivity. Qed.

Lemma passes_S_r (e k : nat) :
  passes it e (S k) = passes it e k ++ data_loader it (e + k).
Proof.
  unfold passes. rewrite seq_S, flat_map_app. cbn [flat_map].
  rewrite app_nil_r. reflexivity.
Qed.

Lemma passes_length (e k : nat) :
  good_passes batch_len it e k -> (k <= length (passes it e k))%nat.
Proof.
  revert e. induction k as [| k IH]; intros e Hg; [lia |].
  rewrite passes_S_l, length_app.
  assert (Hk : (k <= length (passes it (S e) k))%nat).
  { apply IH. intros i Hi. apply Hg. lia. }
  destruct (Hg e ltac:(lia)) as [Hne _].
  destruct (data_loader it e); [congruence | cbn [length]; lia].
Qed.

Lemma good_passes_tail (e k : nat) :
  good_passes batch_len it e (S k) -> good_passes batch_len it (S e) k.
Proof. intros Hg i Hi. apply Hg. lia. Qed.

(** A pass during which the limit is not reached. *)
Lemma run_batches_unfinished (bs : list batch) (st : iter_stats) :
  positive_sizes batch_len bs ->
  limit_not_reached it (epoch_num st) (batch_num st + length bs) ->
  exists evs st',
    run_batches batch batch_len it bs st = (evs, inl st')
    /\ map fst (yields evs) = bs
    /\ count_epoch_ends evs = 0%nat
    /\ epoch_num st' = epoch_num st
    /\ batch_num st' = (batch_num st + length bs)%nat.
Proof.
  intros Hpos Hlim. unfold limit_not_reached in Hlim.
  destruct (it_limit it) as [n | n] eqn:Hl.
  - destruct (run_batches_epoch_mode n bs Hl Hpos st)
      as [evs [st' [E [Hy [Hc He]]]]].
    exists evs, st'. repeat split; try assumption.
    destruct (run_batches_numbered _ _ _ _ E) as [_ Hst].
    destruct (Hst st' eq_refl) as [_ [Hb _]]. rewrite Hb.
    rewrite <- (length_map fst), Hy. reflexivity.
  - destruct bs as [| b bs].
    { exists [], st. cbn. repeat split; lia. }
    destruct (run_batches_batch_mode n (b :: bs) Hl Hpos st)
      as [evs [r [E [Hy [Hc Hr]]]]]; [cbn [length] in Hlim; lia |].
    destruct (Nat.leb_spec (at_least_one n - batch_num st) (length (b :: bs)))
      as [H | H]; [lia |].
    destruct Hr as [st' [-> [He Hb]]].
    exists evs, st'. repeat split; try assumption.
    rewrite Hy. apply firstn_all2. lia.
Qed.

Lemma run_batches_app (pre rest : list batch) :
  forall st evs st',
    run_batches batch batch_len it pre st = (evs, inl st') ->
    run_batches batch batch_len it (pre ++ rest) st
    = (let (evs', r) := run_batches batch batch_len it rest st' in
       (evs ++ evs', r)).
Proof.
  induction pre as [| b pre IH]; intros st evs st' E.
  - cbn in E. injection E as <- <-. cbn [app].
    destruct (run_batches batch batch_len it rest st); reflexivity.
  - cbn [app run_batches] in *.
    destruct (Nat.eqb (batch_len b) 0); [discriminate |].
    set (st1 := IterStats (epoch_num st) (S (batch_num st))
                  (samples_so_far st + batch_len b)) in *.
    assert (Hrec : forall evs1 r1,
               run_batches batch batch_len it pre st1 = (evs1, r1) ->
               forall hd, (hd ++ evs1, r1) = (evs, inl st') ->
               (let (evs', r) := run_batches batch batch_len it (pre ++ rest) st1
                in (hd ++ evs', r))
               = (let (evs', r) := run_batches batch batch_len it rest st'
                  in (evs ++ evs', r))).
    { intros evs1 r1 E1 hd H. injection H as <- ->.
      rewrite (IH _ _ _ E1).
      destruct (run_batches batch batch_len it rest st').
      rewrite app_assoc. reflexivity. }
    destruct (it_limit it) as [n | n].
    + destruct (run_batches batch batch_len it pre st1) as [evs1 r1] eqn:E1.
      exact (Hrec _ _ eq_refl
               (Yielded b st1 :: (if on_batch_end it then [BatchEnd] else [])) E).
    + destruct (Z.leb n (Z.of_nat (S (batch_num st)))); [discriminate |].
      destruct (run_batches batch batch_len it pre st1) as [evs1 r1] eqn:E1.
      exact (Hrec _ _ eq_refl
               (Yielded b st1 :: (if on_batch_end it then [BatchEnd] else [])) E).
Qed.

(** [k] passes during which the limit is not reached, one more pass being
    started after them. *)
Lemma run_epochs_unfinished (k : nat) :
  forall st,
    good_passes batch_len it (epoch_num st) k ->
    limit_not_reached it (epoch_num st + k)
      (batch_num st + length (passes it (epoch_num st) k)) ->
    exists evs st',
      (forall fuel,
          run_epochs batch batch_len it (k + fuel) st
          = (let (evs', r) := run_epochs batch batch_len it fuel st' in
             (evs ++ evs', r)))
      /\ map fst (yields evs) = passes it (epoch_num st) k
      /\ count_epoch_ends evs = (if on_epoch_end it then k else 0)%nat
      /\ epoch_num st' = (epoch_num st + k)%nat
      /\ batch_num st' = (batch_num st + length (passes it (epoch_num st) k))%nat.
Proof.
  induction k as [| k IH]; intros st Hg Hlim.
  - exists [], st. split.
    { intros fuel. cbn [Nat.add app].
      destruct (run_epochs batch batch_len it fuel st); reflexivity. }
    cbn. destruct (on_epoch_end it); repeat split; lia.
  - destruct (Hg (epoch_num st) ltac:(lia)) as [Hne Hpos].
    assert (Hlen := passes_length (S (epoch_num st)) k (good_passes_tail _ _ Hg)).
    rewrite passes_S_l, length_app in Hlim.
    destruct (run_batches_unfinished (data_loader it (epoch_num st)) st Hpos)
      as [evs1 [st1 [E1 [Hy1 [Hc1 [He1 Hb1]]]]]].
    { unfold limit_not_reached in *. destruct (it_limit it); lia. }
    set (st2 := IterStats (S (epoch_num st1)) (batch_num st1)
                  (samples_so_far st1)).
    destruct (IH st2) as [evs2 [st' [Hrun [Hy2 [Hc2 [He2 Hb2]]]]]].
    { cbn [epoch_num st2]. rewrite He1. apply good_passes_tail. exact Hg. }
    { cbn [epoch_num batch_num st2]. rewrite He1, Hb1.
      unfold limit_not_reached in *. destruct (it_limit it); lia. }
    cbn [epoch_num batch_num st2] in He2, Hb2, Hy2.
    rewrite He1 in He2, Hb2, Hy2. rewrite Hb1 in Hb2.
    exists (evs1 ++ (if on_epoch_end it then [EpochEnd] else []) ++ evs2), st'.
    split.
    { intros fuel. cbn [Nat.add run_epochs]. rewrite E1.
      destruct (data_loader it (epoch_num st)) as [| b0 bs0] eqn:Eb;
        [congruence |].
      fold st2.
      assert (Hstep : (let (evs', r) := run_epochs batch batch_len it (k + fuel) st2
                       in (evs1 ++ (if on_epoch_end it then [EpochEnd] else [])
                           ++ evs', r))
                      = (let (evs', r) := run_epochs batch batch_len it fuel st'
                         in ((evs1 ++ (if on_epoch_end it then [EpochEnd] else [])
                              ++ evs2) ++ evs', r))).
      { rewrite Hrun. destruct (run_epochs batch batch_len it fuel st').
        rewrite <- !app_assoc. reflexivity. }
      unfold limit_not_reached in Hlim.
      destruct (it_limit it) as [n | n]; [| exact Hstep].
      replace (Z.leb n (Z.of_nat (epoch_num st2))) with false; [exact Hstep |].
      symmetry. apply Z.leb_gt. cbn [epoch_num st2]. rewrite He1.
      unfold at_least_one in Hlim. lia. }
    rewrite yields_app, yields_epoch_callback, map_app.
    rewrite count_epoch_ends_app, count_epoch_callback, Hc1, Hc2.
    rewrite passes_S_l, length_app, Hy1.
    split; [rewrite Hy2; reflexivity |].
    split; [destruct (on_epoch_end it); lia |].
    split; lia.
Qed.


Lemma passes_app (e k m : nat) :
  passes it e (k + m) = passes it e k ++ passes it (e + k) m.
Proof. unfold passes. rewrite seq_app, flat_map_app. reflexivity. Qed.

Lemma firstn_passes (e t m : nat) :
  good_passes batch_len it e t -> (t <= m)%nat ->
  firstn t (passes it e m) = firstn t (passes it e t).
Proof.
  intros Hg Hle. replace m with (t + (m - t))%nat by lia.
  rewrite passes_app, firstn_app.
  assert (Hlen := passes_length e t Hg).
  replace (t - length (passes it e t))%nat with 0%nat by lia.
  cbn [firstn]. rewrite app_nil_r. reflexivity.
Qed.

(** Batch mode, [t] batches being left to give. *)
Lemma run_epochs_batch_mode (n : Z) :
  it_limit it = Batches n ->
  forall fuel st,
    (batch_num st < at_least_one n)%nat ->
    (at_least_one n - batch_num st <= fuel)%nat ->
    good_passes batch_len it (epoch_num st) (at_least_one n - batch_num st) ->
    exists evs,
      run_epochs batch batch_len it fuel st = (evs, Some Returned)
      /\ map fst (yields evs)
         = firstn (at_least_one n - batch_num st)
             (passes it (epoch_num st) (at_least_one n - batch_num st)).
Proof.
  intros Hl. induction fuel as [| fuel IH]; intros st Hlt Hfuel Hg; [lia |].
  remember (at_least_one n - batch_num st)%nat as t eqn:Et.
  destruct t as [| t]; [lia |].
  destruct (Hg (epoch_num st) ltac:(lia)) as [Hne Hpos].
  destruct (run_batches_batch_mode n (data_loader it (epoch_num st)) Hl Hpos
              st Hlt) as [evs1 [r1 [E1 [Hy1 [_ Hr1]]]]].
  rewrite <- Et in Hy1, Hr1.
  cbn [run_epochs]. rewrite E1. rewrite passes_S_l.
  destruct (Nat.leb_spec (S t) (length (data_loader it (epoch_num st))))
    as [Hd | Hd].
  - subst r1. exists evs1. split; [reflexivity |].
    rewrite Hy1, firstn_app.
    replace (S t - length (data_loader it (epoch_num st)))%nat with 0%nat by lia.
    cbn [firstn]. rewrite app_nil_r. reflexivity.
  - destruct Hr1 as [st1 [-> [He1 Hb1]]].
    destruct (data_loader it (epoch_num st)) as [| b0 bs0] eqn:Eb;
      [congruence |].
    rewrite Hl.
    set (st2 := IterStats (S (epoch_num st1)) (batch_num st1)
                  (samples_so_far st1)).
    assert (Hlen : (1 <= length (b0 :: bs0))%nat) by (cbn [length]; lia).
    destruct (IH st2) as [evs2 [E2 Hy2]].
    { cbn [batch_num st2]. lia. }
    { cbn [batch_num st2]. lia. }
    { cbn [batch_num epoch_num st2]. rewrite He1. intros i Hi. apply Hg. lia. }
    rewrite E2. eexists. split; [reflexivity |].
    rewrite yields_app, yields_epoch_callback, map_app, Hy1, Hy2.
    cbn [batch_num epoch_num st2]. rewrite He1, Hb1.
    rewrite firstn_app.
    rewrite !(firstn_all2 (b0 :: bs0)) by lia.
    f_equal.
    replace (at_least_one n - (batch_num st + length (b0 :: bs0)))%nat
      with (S t - length (b0 :: bs0))%nat by lia.
    symmetry. apply firstn_passes; [| lia].
    intros i Hi. apply Hg. lia.
Qed.

End IteratorFacts.

(** X11. In epoch mode the iterator gives every batch of the first
    [max(n_epochs, 1)] passes over the data loader, in order, calls
    [on_epoch_end] once per pass and returns; so [n_epochs <= 0] still runs
    one full pass. *)
Theorem epoch_mode_yields_every_pass {batch : Type} (batch_len : batch -> nat)
  (it : iterator batch) (n : Z) (fuel : nat) :
  it_limit it = Epochs n ->
  good_passes batch_len it 0 (at_least_one n) ->
  (at_least_one n <= fuel)%nat ->
  exists evs,
    iterate batch batch_len it fuel = (evs, Some Returned)
    /\ map fst (yields evs) = passes it 0 (at_least_one n)
    /\ count_epoch_ends evs
       = (if on_epoch_end it then at_least_one n else 0)%nat.
Proof.
  intros Hl Hg Hfuel.
  assert (Hk : exists k, at_least_one n = S k).
  { exists (Nat.pred (at_least_one n)). unfold at_least_one. lia. }
  destruct Hk as [k Hk]. rewrite Hk in *.
  destruct (run_epochs_unfinished batch batch_len it k (IterStats 0 0 0))
    as [evs [st' [Hrun [Hy [Hc [He Hb]]]]]].
  { intros i Hi. apply Hg. cbn [epoch_num] in Hi. lia. }
  { unfold limit_not_reached. rewrite Hl, Hk. cbn [epoch_num]. lia. }
  cbn [epoch_num batch_num Nat.add] in *.
  destruct (Hg k ltac:(lia)) as [Hne Hpos].
  destruct (run_batches_epoch_mode batch batch_len it n (data_loader it k) Hl
              Hpos st') as [evs1 [st1 [E1 [Hy1 [Hc1 He1]]]]].
  unfold iterate. replace fuel with (k + S (fuel - S k))%nat by lia.
  rewrite Hrun. cbn [run_epochs]. rewrite He, E1.
  destruct (data_loader it k) as [| b0 bs0] eqn:Eb; [congruence |].
  rewrite Hl. cbn [epoch_num]. rewrite He1, He.
  replace (Z.leb n (Z.of_nat (S k))) with true
    by (symmetry; apply Z.leb_le; unfold at_least_one in Hk; lia).
  eexists. split; [reflexivity |].
  rewrite !yields_app, !count_epoch_ends_app, !map_app, Hy, Hy1, Hc, Hc1.
  rewrite passes_S_r. cbn [Nat.add]. rewrite Eb.
  split.
  - destruct (on_epoch_end it); cbn; rewrite ?app_nil_r; reflexivity.
  - destruct (on_epoch_end it); cbn; lia.
Qed.

Lemma epoch_mode_yields_every_pass_witness :
  exists evs,
    iterate nat id (Iterator loader_two_three (Epochs 2) true false) 2
    = (evs, Some Returned)
    /\ map fst (yields evs)
       = passes (Iterator loader_two_three (Epochs 2) true false) 0
           (at_least_one 2)
    /\ count_epoch_ends evs
       = (if on_epoch_end (Iterator loader_two_three (Epochs 2) true false)
          then at_least_one 2 else 0)%nat.
Proof.
  apply (epoch_mode_yields_every_pass id
           (Iterator loader_two_three (Epochs 2) true false) 2 2).
  - reflexivity.
  - intros i _. split; [discriminate |].
    intros b [<- | [<- | []]]; unfold id; lia.
  - vm_compute. lia.
Defined.

(** X12. In batch mode the iterator gives exactly the first
    [max(n_batches, 1)] batches of the successive passes over the data
    loader and returns; so [n_batches <= 0] still gives one batch. *)
Theorem batch_mode_yields_first_batches {batch : Type}
  (batch_len : batch -> nat) (it : iterator batch) (n : Z) (fuel : nat) :
  it_limit it = Batches n ->
  good_passes batch_len it 0 (at_least_one n) ->
  (at_least_one n <= fuel)%nat ->
  exists evs,
    iterate batch batch_len it fuel = (evs, Some Returned)
    /\ map fst (yields evs)
       = firstn (at_least_one n) (passes it 0 (at_least_one n))
    /\ length (yields evs) = at_least_one n.
Proof.
  intros Hl Hg Hfuel.
  assert (Hpos : (0 < at_least_one n)%nat) by (unfold at_least_one; lia).
  destruct (run_epochs_batch_mode batch batch_len it n Hl fuel
              (IterStats 0 0 0)) as [evs [E Hy]].
  - cbn [batch_num]. exact Hpos.
  - cbn [batch_num]. lia.
  - cbn [batch_num epoch_num]. rewrite Nat.sub_0_r. exact Hg.
  - cbn [batch_num epoch_num] in Hy. rewrite Nat.sub_0_r in Hy.
    exists evs. split; [exact E |]. split; [exact Hy |].
    rewrite <- (length_map fst), Hy, length_firstn.
    assert (Hlen := passes_length batch batch_len it 0 (at_least_one n) Hg).
    lia.
Qed.

Lemma batch_mode_yields_first_batches_witness :
  exists evs,
    iterate nat id (Iterator loader_two_three (Batches 3) false true) 3
    = (evs, Some Returned)
    /\ map fst (yields evs)
       = firstn (at_least_one 3)
           (passes (Iterator loader_two_three (Batches 3) false true) 0
              (at_least_one 3))
    /\ length (yields evs) = at_least_one 3.
Proof.
  apply (batch_mode_yields_first_batches id
           (Iterator loader_two_three (Batches 3) false true) 3 3).
  - reflexivity.
  - intros i _. split; [discriminate |].
    intros b [<- | [<- | []]]; unfold id; lia.
  - vm_compute. lia.
Defined.

(** X13. Whatever the data loader gives and however the iteration ends, the
    stats of the [k]-th yielded batch (from 0) have [batch_num = k + 1] and
    [samples_so_far] equal to the number of samples of the batches yielded
    so far, that one included. *)
Theorem stats_count_batches_and_samples {batch : Type}
  (batch_len : batch -> nat) (it : iterator batch) (fuel : nat)
  (evs : list (event batch)) (r : option finish)
  (k : nat) (b : batch) (s : iter_stats) :
  iterate batch batch_len it fuel = (evs, r) ->
  nth_error (yields evs) k = Some (b, s) ->
  batch_num s = S k
  /\ samples_so_far s
     = total_len batch_len (firstn (S k) (map fst (yields evs))).
Proof.
  intros E Hk.
  assert (Hn := run_epochs_numbered batch batch_len it fuel _ _ _ E).
  cbn [batch_num samples_so_far] in Hn.
  destruct (numbered_nth batch_len _ _ _ _ _ _ Hn Hk) as [Hb Hs].
  split; [exact Hb | exact Hs].
Qed.

Lemma stats_count_batches_and_samples_witness :
  batch_num (IterStats 1 3 7) = 3%nat
  /\ samples_so_far (IterStats 1 3 7)
     = total_len id
         (firstn 3
            (map fst
               (yields
                  (fst (iterate nat id
                          (Iterator loader_two_three (Batches 3) false true)
                          3))))).
Proof.
  apply (stats_count_batches_and_samples id
           (Iterator loader_two_three (Batches 3) false true) 3
           (fst (iterate nat id
                   (Iterator loader_two_three (Batches 3) false true) 3))
           (Some Returned) 2 2%nat (IterStats 1 3 7)).
  - reflexivity.
  - reflexivity.
Defined.

(** X14. If the data loader gives no batch on a pass that is started (the
    earlier passes having data and the limit not being reached in them),
    the iterator raises [AssertionError] after yielding all batches of the
    earlier passes. *)
Theorem empty_pass_raises_assertion_error {batch : Type}
  (batch_len : batch -> nat) (it : iterator batch) (e fuel : nat) :
  good_passes batch_len it 0 e ->
  data_loader it e = [] ->
  limit_not_reached it e (length (passes it 0 e)) ->
  (e < fuel)%nat ->
  exists evs,
    iterate batch batch_len it fuel = (evs, Some (Raised AssertionError))
    /\ map fst (yields evs) = passes it 0 e.
Proof.
  intros Hg Hempty Hlim Hfuel.
  destruct (run_epochs_unfinished batch batch_len it e (IterStats 0 0 0))
    as [evs [st' [Hrun [Hy [_ [He _]]]]]].
  { exact Hg. }
  { exact Hlim. }
  cbn [epoch_num Nat.add] in *.
  unfold iterate. replace fuel with (e + S (fuel - S e))%nat by lia.
  rewrite Hrun. cbn [run_epochs]. rewrite He, Hempty. cbn [run_batches].
  exists (evs ++ []). split; [reflexivity |].
  rewrite app_nil_r. exact Hy.
Qed.

Lemma empty_pass_raises_assertion_error_witness :
  exists evs,
    iterate nat id (Iterator loader_runs_dry (Epochs 3) true true) 2
    = (evs, Some (Raised AssertionError))
    /\ map fst (yields evs)
       = passes (Iterator loader_runs_dry (Epochs 3) true true) 0 1.
Proof.
  apply (empty_pass_raises_assertion_error id
           (Iterator loader_runs_dry (Epochs 3) true true) 1 2).
  - intros i Hi. assert (i = 0)%nat as -> by lia.
    split; [discriminate |].
    intros b [<- | [<- | []]]; unfold id; lia.
  - reflexivity.
  - vm_compute. lia.
  - lia.
Defined.

(** X15. A batch with no sample fails the assertion on the batch size: the
    iterator raises [AssertionError] when it reaches that batch, having
    yielded all the batches before it and not that one. *)
Theorem empty_batch_raises_assertion_error {batch : Type}
  (batch_len : batch -> nat) (it : iterator batch) (e fuel : nat)
  (pre post : list batch) (b0 : batch) :
  good_passes batch_len it 0 e ->
  data_loader it e = pre ++ b0 :: post ->
  positive_sizes batch_len pre ->
  batch_len b0 = 0%nat ->
  limit_not_reached it e (length (passes it 0 e) + length pre) ->
  (e < fuel)%nat ->
  exists evs,
    iterate batch batch_len it fuel = (evs, Some (Raised AssertionError))
    /\ map fst (yields evs) = passes it 0 e ++ pre.
Proof.
  intros Hg Hdata Hpos Hzero Hlim Hfuel.
  destruct (run_epochs_unfinished batch batch_len it e (IterStats 0 0 0))
    as [evs [st' [Hrun [Hy [_ [He Hb]]]]]].
  { exact Hg. }
  { unfold limit_not_reached in *. cbn [epoch_num batch_num].
    destruct (it_limit it); lia. }
  cbn [epoch_num batch_num Nat.add] in *.
  destruct (run_batches_unfinished batch batch_len it pre st' Hpos)
    as [evs1 [st1 [E1 [Hy1 _]]]].
  { rewrite He, Hb. exact Hlim. }
  unfold iterate. replace fuel with (e + S (fuel - S e))%nat by lia.
  rewrite Hrun. cbn [run_epochs]. rewrite He, Hdata.
  rewrite (run_batches_app batch batch_len it pre (b0 :: post) _ _ _ E1).
  cbn [run_batches]. rewrite Hzero. cbn [Nat.eqb].
  eexists. split; [reflexivity |].
  rewrite yields_app, map_app, Hy. rewrite yields_app, map_app, Hy1.
  cbn [yields map]. rewrite app_nil_r. reflexivity.
Qed.

Lemma empty_batch_raises_assertion_error_witness :
  exists evs,
    iterate nat id (Iterator loader_with_empty_batch (Batches 10) true true) 2
    = (evs, Some (Raised AssertionError))
    /\ map fst (yields evs)
       = passes (Iterator loader_with_empty_batch (Batches 10) true true) 0 1
         ++ [4%nat].
Proof.
  apply (empty_batch_raises_assertion_error id
           (Iterator loader_with_empty_batch (Batches 10) true true) 1 2
           [4%nat] [5%nat] 0%nat).
  - intros i Hi. assert (i = 0)%nat as -> by lia.
    split; [discriminate |].
    intros b [<- | [<- | []]]; unfold id; lia.
  - reflexivity.
  - intros b [<- | []]. unfold id. lia.
  - reflexivity.
  - vm_compute. lia.
  - lia.
Defined.

(** ** The training loop *)

Lemma string_length_append (a b : string) :
  String.length (a ++ b) = (String.length a + String.length b)%nat.
Proof. induction a as [| c a IH]; cbn; [reflexivity | rewrite IH; reflexivity]. Qed.

Lemma string_take_append (a b : string) :
  string_take (String.length a) (a ++ b) = a.
Proof.
  induction a as [| c a IH]; cbn.
  - destruct b; reflexivity.
  - rewrite IH. reflexivity.
Qed.

Lemma string_drop_append (a b : string) :
  string_drop (String.length a) (a ++ b) = b.
Proof. induction a as [| c a IH]; cbn; [reflexivity | exact IH]. Qed.

Lemma string_append_assoc (a b c : string) :
  ((a ++ b) ++ c = a ++ (b ++ c))%string.
Proof. induction a as [| x a IH]; cbn; [reflexivity | rewrite IH; reflexivity]. Qed.

(** Whether [sub] starts [s] is decided by the first characters of [s]. *)
Lemma prefix_append (sub : string) :
  forall s t, (String.length sub <= String.length s)%nat ->
    String.prefix sub (s ++ t) = String.prefix sub s.
Proof.
  induction sub as [| a sub IH]; intros s t Hlen.
  - destruct s; destruct t; reflexivity.
  - destruct s as [| b s]; [cbn in Hlen; lia |].
    cbn [String.append String.prefix].
    destruct (ascii_dec a b); [| reflexivity].
    apply IH. cbn in Hlen. lia.
Qed.

Lemma prefix_itself (sub rest : string) :
  String.prefix sub (sub ++ rest) = true.
Proof.
  induction sub as [| a sub IH]; cbn [String.append String.prefix].
  - destruct rest; reflexivity.
  - destruct (ascii_dec a a); [exact IH | congruence].
Qed.

Lemma find_from_cons (sub s : string) (c : ascii) (i : nat) :
  find_from sub (String c s) i
  = if String.prefix sub (String c s) then Z.of_nat i
    else find_from sub s (S i).
Proof. reflexivity. Qed.

(** The first [.pt] of a path: there is none that starts in [stem]. *)
Lemma find_first_pt (rest : string) :
  forall stem i,
    find_from ".pt" (stem ++ ".p") i = (-1)%Z ->
    find_from ".pt" (stem ++ ".pt" ++ rest) i
    = Z.of_nat (i + String.length stem).
Proof.
  induction stem as [| c stem IH]; intros i H.
  - assert (Hp := prefix_itself ".pt" rest).
    cbn [String.append] in Hp |- *. cbn [find_from]. rewrite Hp.
    cbn [String.length]. f_equal. lia.
  - change (String c stem ++ ".p")%string
      with (String c (stem ++ ".p")) in H.
    change (String c stem ++ ".pt" ++ rest)%string
      with (String c (stem ++ ".pt" ++ rest)).
    rewrite find_from_cons in H |- *.
    assert (Hp : String.prefix ".pt" (String c (stem ++ ".pt" ++ rest))
                 = String.prefix ".pt" (String c (stem ++ ".p"))).
    { change (String c (stem ++ ".pt" ++ rest))
        with (String c stem ++ (".p" ++ ("t" ++ rest)))%string.
      rewrite <- string_append_assoc.
      apply (prefix_append ".pt" (String c stem ++ ".p") ("t" ++ rest)).
      rewrite string_length_append. cbn. lia. }
    rewrite Hp.
    destruct (String.prefix ".pt" (String c (stem ++ ".p"))); [lia |].
    rewrite (IH (S i) H). cbn [String.length]. f_equal. lia.
Qed.

(** X16. When the batch number is [k] times the log interval, the path the
    policy is saved to is the given path with [_log<k>] put in front of its
    first [.pt]: [stem.pt...] becomes [stem_log<k>.pt...]. *)
Theorem log_path_inserts_before_first_pt (stem rest : string)
  (batch_num : nat) (log_interval k : Z) :
  find (stem ++ ".p") ".pt" = (-1)%Z ->
  log_interval <> 0%Z ->
  Z.of_nat batch_num = (k * log_interval)%Z ->
  log_path (stem ++ ".pt" ++ rest) batch_num log_interval
  = (stem ++ "_log" ++ str k ++ ".pt" ++ rest)%string.
Proof.
  intros Hfind Hl Hk. unfold log_path, find in *.
  rewrite (find_first_pt rest stem 0 Hfind). cbn [Nat.add].
  unfold slice_to, slice_from, slice_bound.
  rewrite string_length_append.
  replace (Z.ltb (Z.of_nat (String.length stem)) 0) with false
    by (symmetry; apply Z.ltb_ge; lia).
  replace (Z.to_nat
             (Z.min (Z.max (Z.of_nat (String.length stem)) 0)
                (Z.of_nat (String.length stem
                           + String.length (".pt" ++ rest)))))
    with (String.length stem) by lia.
  rewrite string_take_append, string_drop_append.
  rewrite Hk, Z.div_mul by exact Hl. reflexivity.
Qed.

Lemma log_path_inserts_before_first_pt_witness :
  log_path ("out/policy" ++ ".pt" ++ "") 1000 500
  = ("out/policy" ++ "_log" ++ str 2 ++ ".pt" ++ "")%string.
Proof.
  apply (log_path_inserts_before_first_pt "out/policy" "" 1000 500 2).
  - reflexivity.
  - discriminate.
  - reflexivity.
Defined.

(** X17. When the path contains no [.pt], [find] gives -1 and the two
    slices split the path before its last character: [_log<k>] is put
    between the rest of the path and that character. *)
Theorem log_path_without_pt_splits_last_character (body : string) (c : ascii)
  (batch_num : nat) (log_interval k : Z) :
  find (body ++ String c "") ".pt" = (-1)%Z ->
  log_interval <> 0%Z ->
  Z.of_nat batch_num = (k * log_interval)%Z ->
  log_path (body ++ String c "") batch_num log_interval
  = (body ++ "_log" ++ str k ++ String c "")%string.
Proof.
  intros Hfind Hl Hk. unfold log_path. rewrite Hfind.
  unfold slice_to, slice_from, slice_bound.
  rewrite string_length_append. cbn [String.length Z.ltb Z.compare].
  replace (Z.to_nat
             (Z.min (Z.max (-1 + Z.of_nat (String.length body + 1)) 0)
                (Z.of_nat (String.length body + 1))))
    with (String.length body) by lia.
  rewrite string_take_append, string_drop_append.
  rewrite Hk, Z.div_mul by exact Hl. reflexivity.
Qed.

Lemma log_path_without_pt_splits_last_character_witness :
  log_path ("polic" ++ String "y" "") 0 500
  = ("polic" ++ "_log" ++ str 0 ++ String "y" "")%string.
Proof.
  apply (log_path_without_pt_splits_last_character "polic" "y" 0 500 0).
  - reflexivity.
  - discriminate.
  - reflexivity.
Defined.

Lemma optimizer_steps_app (e1 e2 : list train_event) :
  optimizer_steps (e1 ++ e2) = (optimizer_steps e1 + optimizer_steps e2)%nat.
Proof. unfold optimizer_steps. rewrite filter_app, length_app. reflexivity. Qed.

Lemma dumps_app (e1 e2 : list train_event) :
  dumps (e1 ++ e2) = dumps e1 ++ dumps e2.
Proof.
  induction e1 as [| e e1 IH]; [reflexivity |].
  destruct e; cbn [app dumps]; rewrite IH; reflexivity.
Qed.

Lemma saved_paths_app (e1 e2 : list train_event) :
  saved_paths (e1 ++ e2) = saved_paths e1 ++ saved_paths e2.
Proof.
  induction e1 as [| e e1 IH]; [reflexivity |].
  destruct e; cbn [app saved_paths]; rewrite IH; reflexivity.
Qed.

Lemma log_batches_S_l (l : Z) (bn n : nat) :
  log_batches l bn (S n)
  = (if Z.eqb (Z.of_nat bn mod l) 0 then [bn] else [])
    ++ log_batches l (S bn) n.
Proof.
  unfold log_batches. cbn [seq filter].
  destruct (Z.eqb (Z.of_nat bn mod l) 0); reflexivity.
Qed.

Lemma log_batches_S_r (l : Z) (n : nat) :
  log_batches l 0 (S n)
  = log_batches l 0 n
    ++ (if Z.eqb (Z.of_nat n mod l) 0 then [n] else []).
Proof.
  unfold log_batches. rewrite seq_S, filter_app. cbn [Nat.add filter].
  destruct (Z.eqb (Z.of_nat n mod l) 0); reflexivity.
Qed.

Lemma log_batches_ge (l : Z) (bn n i : nat) :
  In i (log_batches l bn n) -> (bn <= i)%nat.
Proof.
  unfold log_batches. intros H. apply filter_In in H. destruct H as [H _].
  apply in_seq in H. lia.
Qed.

(** With a positive interval the loop logs at the batches 0, [l], [2l],
    ... *)
Lemma log_batches_multiples (l : Z) (n : nat) :
  (0 < l)%Z ->
  log_batches l 0 n
  = map (fun k => Z.to_nat (Z.of_nat k * l)) (seq 0 (logs_in n l)).
Proof.
  intros Hl. induction n as [| n IH].
  - unfold logs_in. rewrite Z.div_small by lia. reflexivity.
  - rewrite log_batches_S_r, IH.
    destruct (Z.eqb_spec (Z.of_nat n mod l) 0) as [E | E].
    + assert (Hm : logs_in (S n) l = S (logs_in n l)
                   /\ Z.to_nat (Z.of_nat (logs_in n l) * l) = n).
      { unfold logs_in.
        assert (Hq : (Z.of_nat n = l * (Z.of_nat n / l))%Z).
        { rewrite (Z.div_mod (Z.of_nat n) l) at 1 by lia. lia. }
        assert (H1 : ((Z.of_nat n + l - 1) / l = Z.of_nat n / l)%Z).
        { symmetry. apply (Z.div_unique _ _ _ (l - 1)); lia. }
        assert (H2 : ((Z.of_nat (S n) + l - 1) / l = Z.of_nat n / l + 1)%Z).
        { symmetry. apply (Z.div_unique _ _ _ 0); lia. }
        rewrite H1, H2.
        assert (0 <= Z.of_nat n / l)%Z by (apply Z.div_pos; lia).
        split; lia. }
      destruct Hm as [Hm1 Hm2]. rewrite Hm1, seq_S, map_app. cbn [Nat.add map].
      rewrite Hm2. reflexivity.
    + assert (Hm : logs_in (S n) l = logs_in n l).
      { unfold logs_in. f_equal.
        assert (Hr := Z.mod_pos_bound (Z.of_nat n) l Hl).
        assert (Hq := Z.div_mod (Z.of_nat n) l ltac:(lia)).
        rewrite <- (Z.div_unique (Z.of_nat n + l - 1) l (Z.of_nat n / l + 1)
                      (Z.of_nat n mod l - 1)) by lia.
        rewrite <- (Z.div_unique (Z.of_nat (S n) + l - 1) l
                      (Z.of_nat n / l + 1) (Z.of_nat n mod l)) by lia.
        reflexivity. }
      rewrite Hm, app_nil_r. reflexivity.
Qed.

Section TrainFacts.

Variable batch : Type.
Variable batch_len : batch -> nat.
Variable policy : Type.
Variable loss : Type.
Variable calculate_loss : policy -> batch -> result loss.
Variable optimizer_step : policy -> loss -> policy.
Variable log_interval : Z.
Variable save_full_policy_path : option string.

Hypothesis loss_ok : forall p b, exists l, calculate_loss p b = Ok l.
Hypothesis interval_not_zero : log_interval <> 0%Z.

(** The loop when no loss computation fails. *)
Lemma train_loop_ok (bs : list batch) :
  forall bn p tb,
  exists evs p',
    train_loop batch policy loss calculate_loss optimizer_step log_interval
      save_full_policy_path bs bn p tb
    = (evs, Ok (p', (tb + Z.of_nat (List.length bs))%Z))
    /\ optimizer_steps evs = List.length bs
    /\ dumps evs
       = map (fun i => (tb + Z.of_nat (i - bn))%Z)
           (log_batches log_interval bn (List.length bs))
    /\ saved_paths evs
       = match save_full_policy_path with
         | Some path =>
             map (fun i => log_path path i log_interval)
               (log_batches log_interval bn (List.length bs))
         | None => []
         end.
Proof.
  induction bs as [| b bs IH]; intros bn p tb.
  - exists [], p. cbn. rewrite Z.add_0_r.
    destruct save_full_policy_path; repeat split.
  - cbn [train_loop]. destruct (loss_ok p b) as [l ->].
    replace (Z.eqb log_interval 0) with false
      by (symmetry; apply Z.eqb_neq; exact interval_not_zero).
    destruct (IH (S bn) (optimizer_step p l) (tb + 1)%Z)
      as [evs [p' [E [Hs [Hd Hp]]]]].
    rewrite E. eexists _, p'. split.
    { f_equal. f_equal. f_equal. cbn [List.length]. lia. }
    change (OptimizerStep :: ?a ++ evs) with ([OptimizerStep] ++ a ++ evs).
    rewrite !optimizer_steps_app, !dumps_app, !saved_paths_app, Hs, Hd, Hp.
    cbn [List.length]. rewrite log_batches_S_l.
    assert (Hext : map (fun i => (tb + 1 + Z.of_nat (i - S bn))%Z)
                     (log_batches log_interval (S bn) (List.length bs))
                   = map (fun i => (tb + Z.of_nat (i - bn))%Z)
                       (log_batches log_interval (S bn) (List.length bs))).
    { apply map_ext_in. intros i Hi. apply log_batches_ge in Hi. lia. }
    rewrite Hext.
    destruct (Z.eqb (Z.of_nat bn mod log_interval) 0);
      unfold log_events; destruct save_full_policy_path;
      cbn; rewrite ?Nat.sub_diag, ?Z.add_0_r; repeat split.
Qed.

End TrainFacts.

Section FirstBatch.

Variable batch : Type.
Variable batch_len : batch -> nat.
Variable it : iterator batch.

Lemma run_batches_first (b : batch) (rest : list batch) (st : iter_stats) :
  (0 < batch_len b)%nat ->
  exists evs r tl,
    run_batches batch batch_len it (b :: rest) st = (evs, r)
    /\ map fst (yields evs) = b :: tl.
Proof.
  intros Hpos. cbn [run_batches].
  destruct (Nat.eqb_spec (batch_len b) 0) as [E | _]; [lia |].
  destruct (it_limit it) as [n | n].
  - destruct (run_batches batch batch_len it rest _) as [evs' r'].
    eexists _, _, _. split; [reflexivity |].
    rewrite (yields_callback batch it). reflexivity.
  - destruct (Z.leb n (Z.of_nat (S (batch_num st)))).
    + eexists _, _, _. split; [reflexivity |].
      rewrite (yields_callback_nil batch it). reflexivity.
    + destruct (run_batches batch batch_len it rest _) as [evs' r'].
      eexists _, _, _. split; [reflexivity |].
      rewrite (yields_callback batch it). reflexivity.
Qed.

Lemma iterate_first (b : batch) (rest : list batch) (fuel : nat) :
  data_loader it 0 = b :: rest ->
  (0 < batch_len b)%nat ->
  exists evs r tl,
    iterate batch batch_len it (S fuel) = (evs, r)
    /\ map fst (yields evs) = b :: tl.
Proof.
  intros Hdata Hpos. unfold iterate. cbn [run_epochs epoch_num].
  rewrite Hdata.
  destruct (run_batches_first b rest (IterStats 0 0 0) Hpos)
    as [evs [r [tl [E Hy]]]].
  rewrite E. destruct r as [st1 | fin].
  2:{ eexists _, _, tl. split; [reflexivity | exact Hy]. }
  destruct (it_limit it) as [n | n].
  - destruct (Z.leb n _).
    + eexists _, _, _. split; [reflexivity |].
      rewrite yields_app, map_app, Hy. reflexivity.
    + destruct (run_epochs batch batch_len it fuel _) as [evs' r'].
      eexists _, _, _. split; [reflexivity |].
      rewrite yields_app, map_app, Hy. reflexivity.
  - destruct (run_epochs batch batch_len it fuel _) as [evs' r'].
    eexists _, _, _. split; [reflexivity |].
    rewrite yields_app, map_app, Hy. reflexivity.
Qed.

End FirstBatch.

(** [train] when the iterator returns and no loss computation fails. *)
Lemma train_after_return {batch policy loss : Type} (batch_len : batch -> nat)
  (calculate_loss : policy -> batch -> result loss)
  (optimizer_step : policy -> loss -> policy)
  (log_interval : Z) (save_full_policy_path : option string)
  (loader : nat -> list batch) (n_epochs n_batches : option Z)
  (epoch_cb batch_cb reset_tensorboard : bool) (p : policy) (tb : Z)
  (fuel : nat) (it : iterator batch) (its : list (event batch)) :
  (forall p b, exists l, calculate_loss p b = Ok l) ->
  (0 < log_interval)%Z ->
  iterator_init loader n_epochs n_batches epoch_cb batch_cb = Ok it ->
  iterate batch batch_len it fuel = (its, Some Returned) ->
  exists evs p',
    train batch batch_len policy loss calculate_loss optimizer_step
      log_interval save_full_policy_path loader n_epochs n_batches
      epoch_cb batch_cb reset_tensorboard p tb fuel
    = (evs, Some (Ok (p', ((if reset_tensorboard then 0 else tb)
                           + Z.of_nat (List.length (yields its)))%Z)))
    /\ optimizer_steps evs = List.length (yields its)
    /\ dumps evs
       = map (fun k => ((if reset_tensorboard then 0 else tb)
                        + Z.of_nat k * log_interval)%Z)
           (seq 0 (logs_in (List.length (yields its)) log_interval))
    /\ saved_paths evs
       = match save_full_policy_path with
         | Some path =>
             map (fun k => log_path path
                             (Z.to_nat (Z.of_nat k * log_interval))
                             log_interval)
               (seq 0 (logs_in (List.length (yields its)) log_interval))
         | None => []
         end.
Proof.
  intros Hloss Hl Hinit Hit. unfold train. rewrite Hinit, Hit.
  destruct (train_loop_ok batch policy loss calculate_loss optimizer_step
              log_interval save_full_policy_path Hloss ltac:(lia)
              (map fst (yields its)) 0%nat p
              (if reset_tensorboard then 0%Z else tb))
    as [evs [p' [E [Hs [Hd Hp]]]]].
  rewrite length_map in E, Hs, Hd, Hp.
  rewrite E. exists evs, p'. split; [reflexivity |]. split; [exact Hs |].
  rewrite log_batches_multiples in Hd, Hp by exact Hl.
  rewrite map_map in Hd. split.
  - rewrite Hd. apply map_ext. intros k.
    rewrite Nat.sub_0_r, Z2Nat.id by nia. reflexivity.
  - rewrite Hp. destruct save_full_policy_path; [| reflexivity].
    rewrite map_map. reflexivity.
Qed.

(** X18. With [log_interval = 0] the test [batch_num % log_interval] raises
    [ZeroDivisionError] at the first batch, after the optimizer has taken
    its first step and before anything is logged or saved. *)
Theorem zero_log_interval_raises_after_one_step {batch policy loss : Type}
  (batch_len : batch -> nat)
  (calculate_loss : policy -> batch -> result loss)
  (optimizer_step : policy -> loss -> policy)
  (save_full_policy_path : option string)
  (loader : nat -> list batch) (n_epochs n_batches : option Z)
  (epoch_cb batch_cb reset_tensorboard : bool) (p : policy) (tb : Z)
  (fuel : nat) (it : iterator batch) (b : batch) (rest : list batch)
  (l : loss) :
  iterator_init loader n_epochs n_batches epoch_cb batch_cb = Ok it ->
  loader 0%nat = b :: rest ->
  (0 < batch_len b)%nat ->
  calculate_loss p b = Ok l ->
  (1 <= fuel)%nat ->
  train batch batch_len policy loss calculate_loss optimizer_step
    0%Z save_full_policy_path loader n_epochs n_batches
    epoch_cb batch_cb reset_tensorboard p tb fuel
  = ([OptimizerStep], Some (Raise ZeroDivisionError)).
Proof.
  intros Hinit Hdata Hpos Hloss Hfuel. unfold train. rewrite Hinit.
  assert (Hloader : data_loader it 0 = b :: rest).
  { unfold iterator_init in Hinit.
    destruct n_epochs, n_batches; try discriminate;
      injection Hinit as <-; exact Hdata. }
  destruct fuel as [| fuel]; [lia |].
  destruct (iterate_first batch batch_len it b rest fuel Hloader Hpos)
    as [its [fin [tl [E Hy]]]].
  rewrite E, Hy. cbn [train_loop]. rewrite Hloss. cbn [Z.eqb].
  reflexivity.
Qed.

Lemma zero_log_interval_raises_after_one_step_witness :
  train nat id unit unit (fun _ _ => Ok tt) (fun p _ => p)
    0%Z (Some "policy.pt"%string) loader_two_three None (Some 3%Z)
    false false true tt 0%Z 3
  = ([OptimizerStep], Some (Raise ZeroDivisionError)).
Proof.
  apply (zero_log_interval_raises_after_one_step id (fun _ _ => Ok tt)
           (fun p _ => p) (Some "policy.pt"%string) loader_two_three None
           (Some 3%Z) false false true tt 0%Z 3
           (Iterator loader_two_three (Batches 3) false false)
           2%nat [3%nat] tt).
  - reflexivity.
  - reflexivity.
  - unfold id. lia.
  - reflexivity.
  - lia.
Defined.

(** X19. With [n_batches = n], a positive log interval and loss
    computations that succeed, [train] takes [max(n, 1)] optimizer steps,
    advances [tensorboard_step] by as many, and logs (and saves the policy,
    when a path is given) at the batches 0, [log_interval],
    [2 * log_interval], ... below [max(n, 1)], the first batch included. *)
Theorem train_batch_mode_steps_and_logs {batch policy loss : Type}
  (batch_len : batch -> nat)
  (calculate_loss : policy -> batch -> result loss)
  (optimizer_step : policy -> loss -> policy)
  (log_interval : Z) (save_full_policy_path : option string)
  (loader : nat -> list batch) (n : Z)
  (epoch_cb batch_cb reset_tensorboard : bool) (p : policy) (tb : Z)
  (fuel : nat) :
  (forall p b, exists l, calculate_loss p b = Ok l) ->
  (0 < log_interval)%Z ->
  good_passes batch_len (Iterator loader (Batches n) epoch_cb batch_cb) 0
    (at_least_one n) ->
  (at_least_one n <= fuel)%nat ->
  exists evs p',
    train batch batch_len policy loss calculate_loss optimizer_step
      log_interval save_full_policy_path loader None (Some n)
      epoch_cb batch_cb reset_tensorboard p tb fuel
    = (evs, Some (Ok (p', ((if reset_tensorboard then 0 else tb)
                           + Z.of_nat (at_least_one n))%Z)))
    /\ optimizer_steps evs = at_least_one n
    /\ dumps evs
       = map (fun k => ((if reset_tensorboard then 0 else tb)
                        + Z.of_nat k * log_interval)%Z)
           (seq 0 (logs_in (at_least_one n) log_interval))
    /\ saved_paths evs
       = match save_full_policy_path with
         | Some path =>
             map (fun k => log_path path
                             (Z.to_nat (Z.of_nat k * log_interval))
                             log_interval)
               (seq 0 (logs_in (at_least_one n) log_interval))
         | None => []
         end.
Proof.
  intros Hloss Hl Hg Hfuel.
  set (it := Iterator loader (Batches n) epoch_cb batch_cb) in *.
  assert (Hpos : (0 < at_least_one n)%nat) by (unfold at_least_one; lia).
  destruct (run_epochs_batch_mode batch batch_len it n eq_refl fuel
              (IterStats 0 0 0)) as [its [E Hy]].
  { cbn [batch_num]. exact Hpos. }
  { cbn [batch_num]. lia. }
  { cbn [batch_num epoch_num]. rewrite Nat.sub_0_r. exact Hg. }
  cbn [batch_num epoch_num] in Hy. rewrite Nat.sub_0_r in Hy.
  assert (Hlen : List.length (yields its) = at_least_one n).
  { rewrite <- (length_map fst), Hy, length_firstn.
    assert (H := passes_length batch batch_len it 0 (at_least_one n) Hg).
    lia. }
  rewrite <- Hlen.
  apply (train_after_return batch_len calculate_loss optimizer_step
           log_interval save_full_policy_path loader None (Some n)
           epoch_cb batch_cb reset_tensorboard p tb fuel it its Hloss Hl
           eq_refl E).
Qed.

Lemma train_batch_mode_steps_and_logs_witness :
  exists evs p',
    train nat id unit unit (fun _ _ => Ok tt) (fun p _ => p)
      2%Z (Some "policy.pt"%string) loader_two_three None (Some 3%Z)
      false false true tt 7%Z 3
    = (evs, Some (Ok (p', (0 + Z.of_nat (at_least_one 3))%Z)))
    /\ optimizer_steps evs = at_least_one 3
    /\ dumps evs
       = map (fun k => (0 + Z.of_nat k * 2)%Z)
           (seq 0 (logs_in (at_least_one 3) 2))
    /\ saved_paths evs
       = map (fun k => log_path "policy.pt" (Z.to_nat (Z.of_nat k * 2)) 2)
           (seq 0 (logs_in (at_least_one 3) 2)).
Proof.
  apply (train_batch_mode_steps_and_logs id (fun _ _ => Ok tt)
           (fun p _ => p) 2%Z (Some "policy.pt"%string) loader_two_three 3%Z
           false false true tt 7%Z 3).
  - intros p b. exists tt. reflexivity.
  - lia.
  - intros i _. split; [discriminate |].
    intros b [<- | [<- | []]]; unfold id; lia.
  - vm_compute. lia.
Defined.

(** X20. With [n_epochs = n], a positive log interval and loss
    computations that succeed, [train] takes one optimizer step for every
    batch of the first [max(n, 1)] passes over the data and advances
    [tensorboard_step] by their number. *)
Theorem train_epoch_mode_steps {batch policy loss : Type}
  (batch_len : batch -> nat)
  (calculate_loss : policy -> batch -> result loss)
  (optimizer_step : policy -> loss -> policy)
  (log_interval : Z) (save_full_policy_path : option string)
  (loader : nat -> list batch) (n : Z)
  (epoch_cb batch_cb reset_tensorboard : bool) (p : policy) (tb : Z)
  (fuel : nat) :
  (forall p b, exists l, calculate_loss p b = Ok l) ->
  (0 < log_interval)%Z ->
  good_passes batch_len (Iterator loader (Epochs n) epoch_cb batch_cb) 0
    (at_least_one n) ->
  (at_least_one n <= fuel)%nat ->
  exists evs p',
    train batch batch_len policy loss calculate_loss optimizer_step
      log_interval save_full_policy_path loader (Some n) None
      epoch_cb batch_cb reset_tensorboard p tb fuel
    = (evs,
       Some (Ok (p', ((if reset_tensorboard then 0 else tb)
                      + Z.of_nat
                          (List.length
                             (flat_map loader (seq 0 (at_least_one n)))))%Z)))
    /\ optimizer_steps evs
       = List.length (flat_map loader (seq 0 (at_least_one n))).
Proof.
  intros Hloss Hl Hg Hfuel.
  set (it := Iterator loader (Epochs n) epoch_cb batch_cb) in *.
  assert (Hk : exists k, at_least_one n = S k).
  { exists (Nat.pred (at_least_one n)). unfold at_least_one. lia. }
  destruct Hk as [k Hk].
  destruct (run_epochs_unfinished batch batch_len it k (IterStats 0 0 0))
    as [evs0 [st' [Hrun [Hy [_ [He _]]]]]].
  { intros i Hi. apply Hg. cbn [epoch_num] in Hi. lia. }
  { unfold limit_not_reached. cbn [it_limit it epoch_num]. lia. }
  cbn [epoch_num Nat.add] in *.
  destruct (Hg k ltac:(lia)) as [Hne Hpos].
  destruct (run_batches_epoch_mode batch batch_len it n (data_loader it k)
              eq_refl Hpos st') as [evs1 [st1 [E1 [Hy1 [_ He1]]]]].
  assert (E : exists its,
             iterate batch batch_len it fuel = (its, Some Returned)
             /\ map fst (yields its) = passes it 0 (S k)).
  { unfold iterate. replace fuel with (k + S (fuel - S k))%nat by lia.
    rewrite Hrun. cbn [run_epochs]. rewrite He, E1.
    destruct (data_loader it k) as [| b0 bs0] eqn:Eb; [congruence |].
    cbn [it_limit it epoch_num]. rewrite He1, He.
    replace (Z.leb n (Z.of_nat (S k))) with true
      by (symmetry; apply Z.leb_le; unfold at_least_one in Hk; lia).
    eexists. split; [reflexivity |].
    rewrite !yields_app, !map_app, Hy, Hy1, passes_S_r.
    cbn [Nat.add]. rewrite Eb.
    destruct epoch_cb; cbn; rewrite ?app_nil_r; reflexivity. }
  destruct E as [its [E Hyi]].
  assert (Hlen : List.length (yields its)
                 = List.length (flat_map loader (seq 0 (at_least_one n)))).
  { rewrite <- (length_map fst), Hyi, Hk. reflexivity. }
  rewrite <- Hlen.
  destruct (train_after_return batch_len calculate_loss optimizer_step
              log_interval save_full_policy_path loader (Some n) None
              epoch_cb batch_cb reset_tensorboard p tb fuel it its Hloss Hl
              eq_refl E) as [evs [p' [Et [Hs _]]]].
  exists evs, p'. split; [exact Et | exact Hs].
Qed.

Lemma train_epoch_mode_steps_witness :
  exists evs p',
    train nat id unit unit (fun _ _ => Ok tt) (fun p _ => p)
      2%Z None loader_two_three (Some 2%Z) None
      true false false tt 7%Z 2
    = (evs,
       Some (Ok (p', (7 + Z.of_nat
                            (List.length
                               (flat_map loader_two_three
                                  (seq 0 (at_least_one 2)))))%Z)))
    /\ optimizer_steps evs
       = List.length (flat_map loader_two_three (seq 0 (at_least_one 2))).
Proof.
  apply (train_epoch_mode_steps id (fun _ _ => Ok tt)
           (fun p _ => p) 2%Z None loader_two_three 2%Z
           true false false tt 7%Z 2).
  - intros p b. exists tt. reflexivity.
  - lia.
  - intros i _. split; [discriminate |].
    intros b [<- | [<- | []]]; unfold id; lia.
  - vm_compute. lia.
Defined.
